(** * MIPS pipeline viewer: the simulation core of [SimulationContext.tsx]

    A shallow embedding of the hazard analyzer ([detectHazards]), the
    execution unit ([executeMIPSInstruction]) and the stage scheduler
    ([calculateNextState]) together with the actions of the provider
    ([startSimulation], [resetSimulation], ...), followed by the properties
    of the specification that concern them.

    Conventions of the embedding.
    - A JavaScript [number] is [jsnum]: an integer of [Z] or [NaN].  The
      integers the simulator handles (register indices, cycles, 32-bit
      results of the bit operators) are represented exactly, and the sums
      and differences of [+] and [-] are rounded to the nearest double as
      JavaScript rounds them beyond 2^53; infinities and the sign of zero
      are outside the model.
    - A value read from an object is [jsval]: a number or [undefined].
    - A [Record<K, V>] is a [gmap]; reading a missing key gives [None]
      (JavaScript's [undefined]).
    - A JavaScript [TypeError] (a method called on [undefined], the spread
      of [undefined]) is [None] in the option monad; [Some] is a normal
      return.
    - Strings are sequences of 8-bit characters; [trim] and [toLowerCase]
      act on their ASCII range.
    - [console.log] and [console.error] have no effect on the state and are
      left out. *)

From Stdlib Require Import ZArith String Ascii List Bool Lia.
From Stdlib Require Import DecimalString Decimal.
From stdpp Require Import base option list gmap strings fin_maps.

Local Open Scope Z_scope.

(** ** JavaScript numbers and values *)

Inductive jsnum : Type :=
  | NaN
  | Num (z : Z).

Inductive jsval : Type :=
  | Undefined
  | Number (n : jsnum).

#[global] Instance jsnum_eq_dec : EqDecision jsnum.
Proof. solve_decision. Defined.

#[global] Instance jsval_eq_dec : EqDecision jsval.
Proof. solve_decision. Defined.

#[global] Instance jsnum_countable : Countable jsnum :=
  inj_countable'
    (fun n => match n with NaN => None | Num z => Some z end)
    (fun o => match o with None => NaN | Some z => Num z end)
    (fun n => match n with NaN => eq_refl | Num _ => eq_refl end).

Module JS.

(** [ToNumber]: [undefined] becomes [NaN]. *)
Definition toNumber (v : jsval) : jsnum :=
  match v with
  | Undefined => NaN
  | Number n => n
  end.

(** [ToInt32] and [ToUint32]; [NaN] becomes 0. *)
Definition toInt32 (n : jsnum) : Z :=
  match n with
  | NaN => 0
  | Num z => (z + 2 ^ 31) mod 2 ^ 32 - 2 ^ 31
  end.

Definition toUint32 (n : jsnum) : Z :=
  match n with
  | NaN => 0
  | Num z => z mod 2 ^ 32
  end.

(** The integers of the model stand for the doubles that hold them.
    Every integer below 2^53 in magnitude is a double; from there on the
    doubles are [2^e] apart, [e] being the number of bits beyond 53, and
    an integer is rounded to the nearest of them, to the one with the
    even significand when it is halfway.  (The model has no [Infinity]:
    it follows the numbers below the largest double, 2^1024.) *)
Definition toDouble (z : Z) : Z :=
  let e := Z.log2 (Z.abs z) - 52 in
  if e <=? 0 then z
  else
    let q := Z.abs z / 2 ^ e in
    let r := Z.abs z mod 2 ^ e in
    let up := (2 ^ (e - 1) <? r) || ((r =? 2 ^ (e - 1)) && Z.odd q) in
    Z.sgn z * ((if up then q + 1 else q) * 2 ^ e).

(** [a + b] and [a - b] on numbers: the double nearest to the sum. *)
Definition add (a b : jsnum) : jsnum :=
  match a, b with
  | Num x, Num y => Num (toDouble (x + y))
  | _, _ => NaN
  end.

Definition sub (a b : jsnum) : jsnum :=
  match a, b with
  | Num x, Num y => Num (toDouble (x - y))
  | _, _ => NaN
  end.

(** The bit operators work on the 32-bit conversions of their operands. *)
Definition band (a b : jsnum) : jsnum :=
  Num (Z.land (toInt32 a) (toInt32 b)).

Definition bor (a b : jsnum) : jsnum :=
  Num (Z.lor (toInt32 a) (toInt32 b)).

Definition bnot (a : jsnum) : jsnum :=
  Num (Z.lnot (toInt32 a)).

(** [a << b], [a >> b] and [a >>> b]: the shift count is taken modulo 32. *)
Definition shl (a b : jsnum) : jsnum :=
  Num (toInt32 (Num (Z.shiftl (toInt32 a) (Z.land (toUint32 b) 31)))).

Definition sar (a b : jsnum) : jsnum :=
  Num (Z.shiftr (toInt32 a) (Z.land (toUint32 b) 31)).

Definition shr (a b : jsnum) : jsnum :=
  Num (Z.shiftr (toUint32 a) (Z.land (toUint32 b) 31)).

(** [a < b]: false as soon as one side is [NaN]. *)
Definition lt (a b : jsnum) : bool :=
  match a, b with
  | Num x, Num y => x <? y
  | _, _ => false
  end.

(** [a === b] on numbers and on values: [NaN] is different from itself,
    [undefined] equals only itself. *)
Definition numEq (a b : jsnum) : bool :=
  match a, b with
  | Num x, Num y => x =? y
  | _, _ => false
  end.

Definition strictEq (a b : jsval) : bool :=
  match a, b with
  | Undefined, Undefined => true
  | Number x, Number y => numEq x y
  | _, _ => false
  end.

(** [v || 0] for a value that is a number or [undefined]: the falsy
    values ([undefined], [NaN], 0) give 0. *)
Definition orZero (v : jsval) : jsnum :=
  match v with
  | Number (Num z) => Num z
  | _ => Num 0
  end.

(** [c ? 1 : 0]. *)
Definition ofBool (c : bool) : jsnum := if c then Num 1 else Num 0.

(** [Number.prototype.toString()] in base 10. *)
Definition numToString (n : jsnum) : string :=
  match n with
  | NaN => "NaN"
  | Num z => NilZero.string_of_int (Z.to_int z)
  end.

End JS.

(** ** JavaScript strings *)

Module Str.

Definition isWhite (c : ascii) : bool :=
  let n := nat_of_ascii c in
  ((9 <=? n) && (n <=? 13))%nat || (n =? 32)%nat.

Definition isDigit (c : ascii) : bool :=
  let n := nat_of_ascii c in ((48 <=? n) && (n <=? 57))%nat.

Definition isUpper (c : ascii) : bool :=
  let n := nat_of_ascii c in ((65 <=? n) && (n <=? 90))%nat.

Definition isLower (c : ascii) : bool :=
  let n := nat_of_ascii c in ((97 <=? n) && (n <=? 122))%nat.

(** The class [\w] of a regular expression. *)
Definition isWord (c : ascii) : bool :=
  isDigit c || isUpper c || isLower c || Ascii.eqb c "_".

(** The value of [c] as a digit in base [radix], if it is one. *)
Definition digitValue (radix : Z) (c : ascii) : option Z :=
  let n := Z.of_nat (nat_of_ascii c) in
  let v := if isDigit c then Some (n - 48)
           else if isLower c then Some (n - 97 + 10)
           else if isUpper c then Some (n - 65 + 10)
           else None in
  match v with
  | Some d => if d <? radix then Some d else None
  | None => None
  end.

Fixpoint dropWhile (p : ascii -> bool) (s : string) : string :=
  match s with
  | EmptyString => EmptyString
  | String c r => if p c then dropWhile p r else s
  end.

Fixpoint rev_onto (s acc : string) : string :=
  match s with
  | EmptyString => acc
  | String c r => rev_onto r (String c acc)
  end.

Definition rev (s : string) : string := rev_onto s EmptyString.

(** [s.trim()]. *)
Definition trim (s : string) : string :=
  rev (dropWhile isWhite (rev (dropWhile isWhite s))).

(** [s.toLowerCase()]. *)
Fixpoint toLowerCase (s : string) : string :=
  match s with
  | EmptyString => EmptyString
  | String c r =>
      String (if isUpper c then ascii_of_nat (nat_of_ascii c + 32) else c)
             (toLowerCase r)
  end.

(** [s.startsWith(c)] for a one-character [c]. *)
Definition startsWith (c : ascii) (s : string) : bool :=
  match s with
  | String d _ => Ascii.eqb c d
  | EmptyString => false
  end.

(** [s.replace(c, "")]: the first occurrence of [c] is removed. *)
Fixpoint removeFirst (c : ascii) (s : string) : string :=
  match s with
  | EmptyString => EmptyString
  | String d r => if Ascii.eqb c d then r else String d (removeFirst c r)
  end.

(** [s.replace(/c/g, "")]: every occurrence of [c] is removed. *)
Fixpoint removeAll (c : ascii) (s : string) : string :=
  match s with
  | EmptyString => EmptyString
  | String d r =>
      if Ascii.eqb c d then removeAll c r else String d (removeAll c r)
  end.

(** [s.split(c)]: the pieces between the occurrences of [c]; never empty. *)
Fixpoint splitOn (c : ascii) (s : string) : string * list string :=
  match s with
  | EmptyString => (EmptyString, [])
  | String d r =>
      let '(h, t) := splitOn c r in
      if Ascii.eqb c d then (EmptyString, h :: t) else (String d h, t)
  end.

(** The longest prefix of digits of base [radix], read as a number, with
    the number of digits read. *)
Fixpoint digits (radix : Z) (acc : Z) (count : nat) (s : string) : Z * nat :=
  match s with
  | EmptyString => (acc, count)
  | String c r =>
      match digitValue radix c with
      | Some d => digits radix (acc * radix + d) (S count) r
      | None => (acc, count)
      end
  end.

(** [parseInt(s, radix)]; [radix = None] is the call with one argument.
    Leading white space is skipped, a sign is read, the prefix [0x]
    selects base 16 when the base is 16 or not given; the result is [NaN]
    when no digit follows. *)
Definition parseIntRadix (radix : option Z) (s : string) : jsnum :=
  let s1 := dropWhile isWhite s in
  let '(neg, s2) :=
    match s1 with
    | String "-" r => (true, r)
    | String "+" r => (false, r)
    | _ => (false, s1)
    end in
  let '(base, s3) :=
    match radix, s2 with
    | None, String "0" (String "x" r) => (16, r)
    | None, String "0" (String "X" r) => (16, r)
    | None, _ => (10, s2)
    | Some 16, String "0" (String "x" r) => (16, r)
    | Some 16, String "0" (String "X" r) => (16, r)
    | Some b, _ => (b, s2)
    end in
  let '(v, n) := digits base 0 0%nat s3 in
  match n with
  | O => NaN
  | S _ => Num (if neg then - v else v)
  end.

Definition parseInt (s : string) : jsnum := parseIntRadix None s.

(** [parseInt(x)] where [x] may be [undefined]: the text "undefined" has
    no digit. *)
Definition parseIntOpt (s : option string) : jsnum :=
  match s with
  | Some t => parseInt t
  | None => NaN
  end.

(** The longest prefix of [s] whose characters satisfy [p], and the rest. *)
Fixpoint span (p : ascii -> bool) (s : string) : string * string :=
  match s with
  | EmptyString => (EmptyString, EmptyString)
  | String c r =>
      if p c then let '(a, b) := span p r in (String c a, b)
      else (EmptyString, s)
  end.

(** The regular expression [/^(-?\d+)\(\$(\w+)\)$/]: the two groups of a
    match.  The classes of consecutive parts are disjoint, so the greedy
    reading is the only one. *)
Definition matchOffsetBase (s : string) : option (string * string) :=
  let '(sign, s1) :=
    match s with
    | String "-" r => ("-", r)
    | _ => ("", s)
    end in
  let '(ds, s2) := span isDigit s1 in
  match ds, s2 with
  | String _ _, String "(" (String "$" s3) =>
      let '(ws, s4) := span isWord s3 in
      match ws, s4 with
      | String _ _, String ")" EmptyString => Some (sign +:+ ds, ws)
      | _, _ => None
      end
  | _, _ => None
  end.

End Str.


(** ** Data model *)

(** [STAGE_NAMES = ["IF", "ID", "EX", "MEM", "WB"]]. *)
Inductive StageName : Type := sIF | sID | sEX | sMEM | sWB.

#[global] Instance StageName_eq_dec : EqDecision StageName.
Proof. solve_decision. Defined.

Definition STAGE_NAMES : list StageName := [sIF; sID; sEX; sMEM; sWB].

Inductive InstructionType : Type := R | I | J.

#[global] Instance InstructionType_eq_dec : EqDecision InstructionType.
Proof. solve_decision. Defined.

Inductive HazardType : Type := RAW | WAW | NONE.

#[global] Instance HazardType_eq_dec : EqDecision HazardType.
Proof. solve_decision. Defined.

Record RegisterUsage : Type := mkRegisterUsage {
  rs : jsnum;
  rt : jsnum;
  rd : jsnum;
  opcode : jsnum;
  funct : jsnum;
  type : InstructionType;
  isLoad : bool;
  isStore : bool
}.

Record HazardInfo : Type := mkHazardInfo {
  hazardType : HazardType;   (* the field [type] of the source *)
  description : string;
  canForward : bool;
  stallCycles : Z
}.

Record ForwardingInfo : Type := mkForwardingInfo {
  from : nat;
  to : nat;
  fromStage : StageName;
  toStage : StageName;
  register : string
}.

#[global] Instance HazardInfo_eq_dec : EqDecision HazardInfo.
Proof. solve_decision. Defined.

#[global] Instance ForwardingInfo_eq_dec : EqDecision ForwardingInfo.
Proof. solve_decision. Defined.

(** [regMap]: the conventional name of each register number, keyed by the
    decimal text of the number. *)
Definition regMap : gmap string string :=
  list_to_map
    [ ("0", "zero"); ("1", "at"); ("2", "v0"); ("3", "v1");
      ("4", "a0"); ("5", "a1"); ("6", "a2"); ("7", "a3");
      ("8", "t0"); ("9", "t1"); ("10", "t2"); ("11", "t3");
      ("12", "t4"); ("13", "t5"); ("14", "t6"); ("15", "t7");
      ("16", "s0"); ("17", "s1"); ("18", "s2"); ("19", "s3");
      ("20", "s4"); ("21", "s5"); ("22", "s6"); ("23", "s7");
      ("24", "t8"); ("25", "t9"); ("26", "k0"); ("27", "k1");
      ("28", "gp"); ("29", "sp"); ("30", "fp"); ("31", "ra") ].

(** The template [`$${regMap[n.toString()]}`]: a missing name is printed as
    the text "undefined". *)
Definition regMapName (n : jsnum) : string :=
  "$" +:+ default "undefined" (regMap !! JS.numToString n).

Definition registerNames : list string :=
  [ "$zero"; "$at"; "$v0"; "$v1"; "$a0"; "$a1"; "$a2"; "$a3";
    "$t0"; "$t1"; "$t2"; "$t3"; "$t4"; "$t5"; "$t6"; "$t7";
    "$s0"; "$s1"; "$s2"; "$s3"; "$s4"; "$s5"; "$s6"; "$s7";
    "$t8"; "$t9"; "$k0"; "$k1"; "$gp"; "$sp"; "$fp"; "$ra" ].

(** [initialRegisters]: every register at 0. *)
Definition initialRegisters : gmap string jsnum :=
  list_to_map (map (fun r => (r, Num 0)) registerNames).

(** [initialMemory]: 32 words at 0, addresses 0 to 31. *)
Definition initialMemory : gmap Z jsval :=
  list_to_map (map (fun i => (Z.of_nat i, Number (Num 0))) (seq 0 32)).

(** ** The instruction parser [parseInstruction] *)

Fixpoint posToBinary (p : positive) (acc : string) : string :=
  match p with
  | xH => String "1" acc
  | xO q => posToBinary q (String "0" acc)
  | xI q => posToBinary q (String "1" acc)
  end.

(** [n.toString(2)]. *)
Definition toBinaryString (n : jsnum) : string :=
  match n with
  | NaN => "NaN"
  | Num Z0 => "0"
  | Num (Zpos p) => posToBinary p ""
  | Num (Zneg p) => String "-" (posToBinary p "")
  end.

Fixpoint repeatChar (c : ascii) (n : nat) : string :=
  match n with
  | O => EmptyString
  | S m => String c (repeatChar c m)
  end.

(** [s.padStart(n, c)]. *)
Definition padStart (n : nat) (c : ascii) (s : string) : string :=
  repeatChar c (n - String.length s) +:+ s.

(** [s.substring(a, b)] for [a <= b]. *)
Definition substring (a b : nat) (s : string) : string :=
  String.substring a (b - a) s.

(** [xs.includes(n)] for a list of integers. *)
Definition includes (xs : list Z) (n : jsnum) : bool :=
  existsb (fun x => JS.numEq (Num x) n) xs.

Definition parseInstruction (hexInstruction : string) : RegisterUsage :=
  let binary :=
    padStart 32 "0" (toBinaryString (Str.parseIntRadix (Some 16) hexInstruction)) in
  let opcode := Str.parseIntRadix (Some 2) (substring 0 6 binary) in
  let rs := Str.parseIntRadix (Some 2) (substring 6 11 binary) in
  let rt := Str.parseIntRadix (Some 2) (substring 11 16 binary) in
  if JS.numEq opcode (Num 0) then
    mkRegisterUsage rs rt
      (Str.parseIntRadix (Some 2) (substring 16 21 binary))
      opcode
      (Str.parseIntRadix (Some 2) (substring 26 32 binary))
      R false false
  else if JS.numEq opcode (Num 2) || JS.numEq opcode (Num 3) then
    mkRegisterUsage rs rt
      (if JS.numEq opcode (Num 3) then Num 31 else Num 0)
      opcode (Num 0) J false false
  else if includes [32; 33; 35; 36; 37; 48] opcode then
    mkRegisterUsage rs rt rt opcode (Num 0) I true false
  else if includes [40; 41; 43; 56] opcode then
    mkRegisterUsage rs rt (Num 0) opcode (Num 0) I false true
  else if includes [8; 9; 12; 13; 14; 15] opcode then
    mkRegisterUsage rs rt rt opcode (Num 0) I false false
  else if JS.numEq opcode (Num 15) then
    mkRegisterUsage rs rt rt opcode (Num 0) I false false
  else
    mkRegisterUsage rs rt (Num 0) opcode (Num 0) I false false.


(** ** The execution unit [executeMIPSInstruction] *)

(** [normalizeRegister]. *)
Definition normalizeRegister (reg : string) : string :=
  let reg := Str.trim (Str.toLowerCase reg) in
  if Str.startsWith "$" reg then reg else "$" +:+ reg.

(** [r.replace('$', '')]. *)
Definition stripDollar (r : string) : string := Str.removeFirst "$" r.

(** [registers[name]] and [memory[address]]: [undefined] for a missing key. *)
Definition readRegister (registers : gmap string jsnum) (name : string) : jsval :=
  match registers !! name with
  | Some n => Number n
  | None => Undefined
  end.

Definition readMemory (memory : gmap Z jsval) (address : Z) : jsval :=
  default Undefined (memory !! address).

(** [getRegisterValue]. *)
Definition getRegisterValue (registers : gmap string jsnum) (regName : string) : jsnum :=
  JS.orZero (readRegister registers (normalizeRegister regName)).

(** The mnemonics that the [switch (op)] statements tell apart; any other
    text falls through both switches. *)
Module Op.

Inductive t : Type :=
  | add | addu | addi | addiu | and | andi | or | ori
  | slt | slti | sltiu | sltu | sll | srl | sub | subu | nor
  | beq | bne | j | jal | jr | lui
  | lw | sw | lbu | lhu | ll | sb | sh | sc.

Definition table : list (string * t) :=
  [ ("add", add); ("addu", addu); ("addi", addi); ("addiu", addiu);
    ("and", and); ("andi", andi); ("or", or); ("ori", ori);
    ("slt", slt); ("slti", slti); ("sltiu", sltiu); ("sltu", sltu);
    ("sll", sll); ("srl", srl); ("sub", sub); ("subu", subu);
    ("nor", nor); ("beq", beq); ("bne", bne); ("j", j); ("jal", jal);
    ("jr", jr); ("lui", lui);
    ("lw", lw); ("sw", sw); ("lbu", lbu); ("lhu", lhu); ("ll", ll);
    ("sb", sb); ("sh", sh); ("sc", sc) ].

Definition ofString (op : string) : option t :=
  snd <$> List.find (fun p => String.eqb op (fst p)) table.

End Op.

(** [getRegName]: the name of register number [regNum], or [r<regNum>]. *)
Definition getRegName (regNum : jsnum) : string :=
  "$" +:+ default ("r" +:+ JS.numToString regNum) (regMap !! JS.numToString regNum).

(** [getForwardedValue]: when an edge of [forwardings] carries the name of
    register [regNum] and ends in [stage], the register file is read under
    that name; otherwise the value the caller read is kept. *)
Definition getForwardedValue (forwardings : list ForwardingInfo)
    (stage : StageName) (registers : gmap string jsnum)
    (regNum : jsnum) (defaultValue : jsval) : jsval :=
  let regName := getRegName regNum in
  match List.find
          (fun f => bool_decide (register f = regName)
                    && bool_decide (toStage f = stage)) forwardings with
  | Some _ => readRegister registers regName
  | None => defaultValue
  end.

Section ExecutionUnit.

(** The decoder of [./Converter], which is outside these sources: it maps
    an encoded instruction to the text of its mnemonic and operands. *)
Variable translateInstructionToMIPS : string -> string.

Section Call.

Variable registers : gmap string jsnum.
Variable memory : gmap Z jsval.
Variable PC : jsnum.
Variable stage : StageName.
Variable forwardings : list ForwardingInfo.

(** The result of one case of a switch: the register file, the memory
    and [newPC]. *)
Definition outcome : Type :=
  gmap string jsnum * gmap Z jsval * option jsnum.

(** [getForwardedValue(parseInt(text.replace('$', '')), registers[key])]. *)
Definition operandValue (text key : string) : jsval :=
  getForwardedValue forwardings stage registers
    (Str.parseInt (stripDollar text)) (readRegister registers key).

(** [const [rd, rs, rt] = operands.map(normalize)], then
    [registers[rd] = f(rsValue, rtValue)]. *)
Definition threeRegisters (f : jsval -> jsval -> jsnum)
    (operands : list string) : option outcome :=
  let names := map (fun r => normalizeRegister (stripDollar r)) operands in
  rs ← names !! 1%nat;
  rt ← names !! 2%nat;
  rd ← names !! 0%nat;
  Some (<[rd := f (operandValue rs rs) (operandValue rt rt)]> registers,
        memory, None).

(** [const [rt, rs, immediate] = operands], then
    [registers[rtNorm] = f(rsValue, immediate)]; the shifts read their
    operands as [[rd, rt, shamt]] in the same way. *)
Definition registerImmediate (f : jsval -> option string -> jsnum)
    (operands : list string) : option outcome :=
  rt ← operands !! 0%nat;
  rs ← operands !! 1%nat;
  let immediate := operands !! 2%nat in
  let rtNorm := normalizeRegister (stripDollar rt) in
  let rsNorm := normalizeRegister (stripDollar rs) in
  Some (<[rtNorm := f (operandValue rs rsNorm) immediate]> registers,
        memory, None).

(** [beq] and [bne]: [taken] is the comparison of the two values. *)
Definition branch (taken : jsval -> jsval -> bool)
    (operands : list string) : option outcome :=
  rs ← operands !! 0%nat;
  rt ← operands !! 1%nat;
  let offset := operands !! 2%nat in
  let rsNorm := normalizeRegister (stripDollar rs) in
  let rtNorm := normalizeRegister (stripDollar rt) in
  let rsValue := operandValue rs rsNorm in
  let rtValue := operandValue rt rtNorm in
  Some (registers, memory,
        if taken rsValue rtValue
        then Some (JS.add (JS.add PC (Num 1)) (Str.parseIntOpt offset))
        else None).

(** [parseInt(target, 16) >> 2]; a missing target is the text
    "undefined". *)
Definition jumpTarget (operands : list string) : jsnum :=
  JS.sar (Str.parseIntRadix (Some 16) (default "undefined" (operands !! 0%nat)))
         (Num 2).

(** [case "EX"]. *)
Definition executeStage (op : option Op.t) (operands : list string)
    : option outcome :=
  match op with
  | Some Op.add | Some Op.addu =>
      threeRegisters (fun a b => JS.add (JS.toNumber a) (JS.toNumber b)) operands
  | Some Op.addi | Some Op.addiu =>
      registerImmediate
        (fun a imm => JS.add (JS.toNumber a) (Str.parseIntOpt imm)) operands
  | Some Op.and =>
      threeRegisters (fun a b => JS.band (JS.toNumber a) (JS.toNumber b)) operands
  | Some Op.andi =>
      registerImmediate
        (fun a imm => JS.band (JS.toNumber a) (Str.parseIntOpt imm)) operands
  | Some Op.or =>
      threeRegisters (fun a b => JS.bor (JS.toNumber a) (JS.toNumber b)) operands
  | Some Op.ori =>
      registerImmediate
        (fun a imm => JS.bor (JS.toNumber a) (Str.parseIntOpt imm)) operands
  | Some Op.slt =>
      threeRegisters
        (fun a b => JS.ofBool (JS.lt (JS.toNumber a) (JS.toNumber b))) operands
  | Some Op.slti =>
      registerImmediate
        (fun a imm => JS.ofBool (JS.lt (JS.toNumber a) (Str.parseIntOpt imm)))
        operands
  | Some Op.sltiu =>
      registerImmediate
        (fun a imm =>
           JS.ofBool (JS.toUint32 (JS.toNumber a)
                      <? JS.toUint32 (Str.parseIntOpt imm)))
        operands
  | Some Op.sltu =>
      threeRegisters
        (fun a b =>
           JS.ofBool (JS.toUint32 (JS.toNumber a) <? JS.toUint32 (JS.toNumber b)))
        operands
  | Some Op.sll =>
      registerImmediate
        (fun a shamt => JS.shl (JS.toNumber a) (Str.parseIntOpt shamt)) operands
  | Some Op.srl =>
      registerImmediate
        (fun a shamt => JS.shr (JS.toNumber a) (Str.parseIntOpt shamt)) operands
  | Some Op.sub | Some Op.subu =>
      threeRegisters (fun a b => JS.sub (JS.toNumber a) (JS.toNumber b)) operands
  | Some Op.nor =>
      threeRegisters
        (fun a b => JS.bnot (JS.bor (JS.toNumber a) (JS.toNumber b))) operands
  | Some Op.beq => branch JS.strictEq operands
  | Some Op.bne => branch (fun a b => negb (JS.strictEq a b)) operands
  | Some Op.j => Some (registers, memory, Some (jumpTarget operands))
  | Some Op.jal =>
      Some (<["$ra" := JS.add PC (Num 2)]> registers, memory,
            Some (jumpTarget operands))
  | Some Op.jr =>
      rs ← operands !! 0%nat;
      let rsNorm := normalizeRegister (stripDollar rs) in
      Some (registers, memory,
            Some (JS.sar (JS.toNumber (operandValue rs rsNorm)) (Num 2)))
  | Some Op.lui =>
      rt ← operands !! 0%nat;
      let rtNorm := normalizeRegister (stripDollar rt) in
      Some (<[rtNorm := JS.shl (Str.parseIntOpt (operands !! 1%nat)) (Num 16)]>
              registers, memory, None)
  | _ => Some (registers, memory, None)
  end.

(** The address of a load or store whose operand matched
    [offset($base)]: [(baseValue + offset) >>> 0], of the double that
    the sum is. *)
Definition effectiveAddress (offsetStr baseReg : string) : Z :=
  let offset := Str.parseInt offsetStr in
  let baseRegNorm := normalizeRegister baseReg in
  let baseValue := operandValue baseReg baseRegNorm in
  JS.toUint32 (JS.add (JS.toNumber baseValue) offset).

(** The bound test of the two groups of cases: [address >= 32] for
    [lw] and [sw], [address > 31] for the others. *)
Definition addressRejected (op : Op.t) (address : Z) : bool :=
  match op with
  | Op.lw | Op.sw => (address <? 0) || (32 <=? address)
  | _ => (address <? 0) || (31 <? address)
  end.

(** [case "MEM"] for the loads and stores. *)
Definition memoryAccess (op : Op.t) (operands : list string)
    : option outcome :=
  rt ← operands !! 0%nat;
  let rtNorm := normalizeRegister (stripDollar rt) in
  match Str.matchOffsetBase (default "undefined" (operands !! 1%nat)) with
  | None => Some (registers, memory, None)
  | Some (offsetStr, baseReg) =>
      let address := effectiveAddress offsetStr baseReg in
      if addressRejected op address then Some (registers, memory, None)
      else
        let loaded := JS.orZero (readMemory memory address) in
        let valueToStore := operandValue rt rtNorm in
        match op with
        | Op.lw | Op.ll =>
            Some (<[rtNorm := loaded]> registers, memory, None)
        | Op.lbu =>
            Some (<[rtNorm := JS.band loaded (Num 255)]> registers, memory, None)
        | Op.lhu =>
            Some (<[rtNorm := JS.band loaded (Num 65535)]> registers, memory, None)
        | Op.sw =>
            Some (registers, <[address := valueToStore]> memory, None)
        | Op.sb =>
            Some (registers,
                  <[address := Number (JS.band (JS.toNumber valueToStore) (Num 255))]>
                    memory, None)
        | Op.sh =>
            Some (registers,
                  <[address := Number (JS.band (JS.toNumber valueToStore) (Num 65535))]>
                    memory, None)
        | Op.sc =>
            Some (<[rtNorm := Num 1]> registers,
                  <[address := valueToStore]> memory, None)
        | _ => Some (registers, memory, None)
        end
  end.

Definition memoryStage (op : option Op.t) (operands : list string)
    : option outcome :=
  match op with
  | Some (Op.lw as o) | Some (Op.sw as o)
  | Some (Op.lbu as o) | Some (Op.lhu as o) | Some (Op.ll as o)
  | Some (Op.sb as o) | Some (Op.sh as o) | Some (Op.sc as o) =>
      memoryAccess o operands
  | _ => Some (registers, memory, None)
  end.

(** The body of [executeMIPSInstruction] on the decoded text: the text
    without its commas is split at the spaces, the switch on the stage
    runs, and [$zero] is set back to 0. *)
Definition executeText (mipsInstruction : string) : option outcome :=
  let '(op, operands) := Str.splitOn " " (Str.removeAll "," mipsInstruction) in
  '(registers', memory', newPC) ←
    match stage with
    | sEX => executeStage (Op.ofString op) operands
    | sMEM => memoryStage (Op.ofString op) operands
    | _ => Some (registers, memory, None)
    end;
  Some (<["$zero" := Num 0]> registers', memory', newPC).

End Call.

Definition executeMIPSInstruction (hexInstruction : string)
    (registers : gmap string jsnum) (memory : gmap Z jsval) (PC : jsnum)
    (stage : StageName) (forwardings : list ForwardingInfo)
    (currentCycle : Z) : option outcome :=
  executeText registers memory PC stage forwardings
    (translateInstructionToMIPS hexInstruction).

End ExecutionUnit.


(** ** The hazard analyzer [detectHazards] *)

(** A loop whose body may throw: the bodies run in order over [l] and the
    first exception ends the loop. *)
Fixpoint forEachM {S A : Type} (body : S -> A -> option S) (s : S) (l : list A)
    : option S :=
  match l with
  | [] => Some s
  | x :: r => s' ← body s x; forEachM body s' r
  end.

(** The three tables the analyzer fills and returns. *)
Record Analysis : Type := mkAnalysis {
  aHazards : gmap nat HazardInfo;
  aForwardings : gmap nat (list ForwardingInfo);
  aStalls : gmap nat Z
}.

Definition noHazard : HazardInfo := mkHazardInfo NONE "No hazard" false 0.

(** The first loop: every instruction starts with no hazard, no edge and
    no stall. *)
Definition initialAnalysis (n : nat) : Analysis :=
  fold_left
    (fun T index =>
       mkAnalysis (<[index := noHazard]> (aHazards T))
                  (<[index := []]> (aForwardings T))
                  (<[index := 0]> (aStalls T)))
    (seq 0 n) (mkAnalysis ∅ ∅ ∅).

(** [`${j}`] for an index. *)
Definition indexText (j : nat) : string := JS.numToString (Num (Z.of_nat j)).

(** The test for a RAW dependence of [currentInst] on [prevInst], with the
    text [hazardRegister] it leaves. *)
Definition rawHazard (currentInst prevInst : RegisterUsage) : bool * string :=
  if negb (JS.numEq (rs currentInst) (Num 0))
     && JS.numEq (rs currentInst) (rd prevInst)
  then (true, "rs(" +:+ regMapName (rs currentInst) +:+ ")")
  else if negb (JS.numEq (rt currentInst) (Num 0))
          && JS.numEq (rt currentInst) (rd prevInst)
          && (isStore currentInst
              || (negb (isLoad currentInst)
                  && negb (bool_decide (type currentInst = I))))
  then (true, "rt(" +:+ regMapName (rt currentInst) +:+ ")")
  else (false, "").

(** [forwardings[i] = [...forwardings[i], edge]]: the spread throws when
    the entry is missing. *)
Definition pushForwarding (i : nat) (edge : ForwardingInfo)
    (fw : gmap nat (list ForwardingInfo)) : option (gmap nat (list ForwardingInfo)) :=
  old ← fw !! i;
  Some (<[i := old ++ [edge]]> fw).

(** The part of the inner loop's body under [if (hasRawHazard)]. *)
Definition recordRaw (forwardingEnabled : bool) (i j : nat)
    (prevInst : RegisterUsage) (hazardRegister : string) (T : Analysis)
    : option Analysis :=
  let distance := (i - j)%nat in
  if isLoad prevInst then
    if (distance =? 1)%nat then
      let hazards :=
        <[i := mkHazardInfo RAW
                 ("Load-use hazard: " +:+ hazardRegister
                  +:+ " depends on lw in instruction " +:+ indexText j)
                 forwardingEnabled
                 (if forwardingEnabled then 0 else 1)]> (aHazards T) in
      let stalls := <[i := if forwardingEnabled then 0 else 1]> (aStalls T) in
      if forwardingEnabled then
        fw ← pushForwarding i
                (mkForwardingInfo j i sMEM sEX (regMapName (rd prevInst)))
                (aForwardings T);
        Some (mkAnalysis hazards fw stalls)
      else Some (mkAnalysis hazards (aForwardings T) stalls)
    else Some T
  else if forwardingEnabled then
    let hazards :=
      <[i := mkHazardInfo RAW
               ("RAW hazard: " +:+ hazardRegister +:+ " depends on instruction "
                +:+ indexText j +:+ " (forwarded)")
               true 0]> (aHazards T) in
    fw ← pushForwarding i
            (mkForwardingInfo j i (if (distance =? 1)%nat then sEX else sMEM) sEX
               (regMapName (rd prevInst)))
            (aForwardings T);
    Some (mkAnalysis hazards fw (aStalls T))
  else
    Some (mkAnalysis
            (<[i := mkHazardInfo RAW
                      ("RAW hazard: " +:+ hazardRegister +:+ " depends on instruction "
                       +:+ indexText j +:+ " (no forwarding)")
                      false
                      (if (distance =? 1)%nat then 2 else 1)]> (aHazards T))
            (aForwardings T)
            (<[i := if (distance =? 1)%nat then 2 else 1]> (aStalls T))).

(** The test of the WAW check, without its [!hasRawHazard]. *)
Definition sameDestination (currentInst prevInst : RegisterUsage) : bool :=
  negb (JS.numEq (rd currentInst) (Num 0))
  && JS.numEq (rd currentInst) (rd prevInst).

Definition wawRecord (currentInst : RegisterUsage) : HazardInfo :=
  mkHazardInfo WAW
    ("WAW hazard: Both instructions write to " +:+ regMapName (rd currentInst))
    true 0.

(** The body of the inner loop for the pair ([i], [j]). *)
Definition scanPair (forwardingEnabled : bool) (i j : nat)
    (currentInst prevInst : RegisterUsage) (T : Analysis) : option Analysis :=
  if JS.numEq (rd prevInst) (Num 0) && negb (isLoad prevInst) then Some T
  else
    let '(hasRawHazard, hazardRegister) := rawHazard currentInst prevInst in
    T1 ← (if hasRawHazard
          then recordRaw forwardingEnabled i j prevInst hazardRegister T
          else Some T);
    if sameDestination currentInst prevInst && negb hasRawHazard
    then Some (mkAnalysis (<[i := wawRecord currentInst]> (aHazards T1))
                          (aForwardings T1) (aStalls T1))
    else Some T1.

(** The producers the inner loop visits for [i], in its order:
    [for (j = i - 1; j >= 0 && i - j <= 3; j--)]. *)
Definition producers (i : nat) : list nat :=
  map (fun d => (i - d)%nat) (List.filter (fun d => (d <=? i)%nat) [1; 2; 3]%nat).

(** The body of the outer loop for [i]. *)
Definition scanInstruction (forwardingEnabled : bool)
    (registerUsage : gmap nat RegisterUsage) (T : Analysis) (i : nat)
    : option Analysis :=
  currentInst ← registerUsage !! i;
  if bool_decide (type currentInst = J) then Some T
  else
    forEachM
      (fun T j =>
         prevInst ← registerUsage !! j;
         scanPair forwardingEnabled i j currentInst prevInst T)
      T (producers i).

Definition detectHazards (instructions : list string)
    (registerUsage : gmap nat RegisterUsage)
    (forwardingEnabled stallsEnabled : bool) : option Analysis :=
  let T0 := initialAnalysis (length instructions) in
  if negb stallsEnabled then Some T0
  else
    forEachM (scanInstruction forwardingEnabled registerUsage) T0
      (seq 1 (length instructions - 1)).

(** ** The stage scheduler [calculateNextState] *)

Record SimulationState : Type := mkState {
  instructions : list string;
  currentCycle : Z;
  maxCycles : Z;
  isRunning : bool;
  stageCount : Z;
  instructionStages : gmap jsnum (option Z);   (* [None] is [null] *)
  isFinished : bool;
  registerUsage : gmap nat RegisterUsage;
  hazards : gmap nat HazardInfo;
  forwardings : gmap nat (list ForwardingInfo);
  stalls : gmap nat Z;
  currentStallCycles : Z;
  forwardingEnabled : bool;
  stallsEnabled : bool;
  registers : gmap string jsnum;
  memory : gmap Z jsval;
  PC : jsnum
}.

Definition DEFAULT_STAGE_COUNT : Z := Z.of_nat (length STAGE_NAMES).

Definition initialState : SimulationState :=
  mkState [] 0 0 false DEFAULT_STAGE_COUNT ∅ false ∅ ∅ ∅ ∅ 0 true true
          initialRegisters initialMemory (Num 0).

(** [calculatePrecedingStalls]: the loop [for (i = 0; i < index; i++)] runs
    for no [i] when [index] is [NaN] or not positive. *)
Definition calculatePrecedingStalls (stalls : gmap nat Z) (index : jsnum) : Z :=
  match index with
  | NaN => 0
  | Num z =>
      fold_left (fun totalStalls i => totalStalls + default 0 (stalls !! i))
                (seq 0 (Z.to_nat z)) 0
  end.

(** The sum over [Object.values(stalls)]. *)
Definition totalStalls (stalls : gmap nat Z) : Z :=
  map_fold (fun _ v total => total + v) 0 stalls.

(** [stageIndex >= 0 && stageIndex < stageCount ? stageIndex : null]. *)
Definition stageOrNull (stageCount stageIndex : Z) : option Z :=
  if (0 <=? stageIndex) && (stageIndex <? stageCount) then Some stageIndex
  else None.

(** [xs.slice(start)]: a negative start counts from the end, [NaN] is 0. *)
Definition slice {A : Type} (start : jsnum) (xs : list A) : list A :=
  match start with
  | NaN => xs
  | Num z =>
      if z <? 0 then drop (Z.to_nat (Z.max (Z.of_nat (length xs) + z) 0)) xs
      else drop (Z.to_nat z) xs
  end.

(** [a !== b] on numbers. *)
Definition numNe (a b : jsnum) : bool := negb (JS.numEq a b).

(** [completionCycle]. *)
Definition completionCycle (st : SimulationState) : Z :=
  if (0 <? Z.of_nat (length (instructions st)))
  then Z.of_nat (length (instructions st)) + stageCount st - 1
       + totalStalls (stalls st)
  else 0.

(** The variables the [forEach] of a tick updates. *)
Record Tick : Type := mkTick {
  newInstructionStages : gmap jsnum (option Z);
  newStallCycles : Z;
  newRegisters : gmap string jsnum;
  newMemory : gmap Z jsval;
  newPC : jsnum
}.

(** The stage map of a redirection: entry [index + newPC] for each
    instruction [index] of the truncated sequence. *)
Definition redirectedStages (st : SimulationState) (nextCycle : Z)
    (newPC : jsnum) (count : nat) : gmap jsnum (option Z) :=
  fold_left
    (fun stages index =>
       let key := JS.add (Num (Z.of_nat index)) newPC in
       let stageIndex :=
         nextCycle - Z.of_nat index - 1
         - calculatePrecedingStalls (stalls st) key in
       <[key := stageOrNull (stageCount st) stageIndex]> stages)
    (seq 0 count) ∅.

Section Scheduler.

Variable translateInstructionToMIPS : string -> string.

(** The body of [currentState.instructions.forEach]; the counter
    [activeInstructions], which nothing reads, is left out. *)
Definition visitInstruction (currentState : SimulationState) (nextCycle : Z)
    (t : Tick) (entry : nat * string) : option Tick :=
  let '(index, inst) := entry in
  let precedingStalls :=
    calculatePrecedingStalls (stalls currentState) (Num (Z.of_nat index)) in
  let stageIndex := nextCycle - Z.of_nat index - 1 - precedingStalls in
  if (0 <=? stageIndex) && (stageIndex <? stageCount currentState) then
    let stages :=
      <[Num (Z.of_nat index) := Some stageIndex]> (newInstructionStages t) in
    let ownStall := stalls currentState !! index in
    let stall :=
      if (stageIndex =? 1)
         && match ownStall with Some v => 0 <? v | None => false end
         && (newStallCycles t =? 0)
      then default 0 ownStall
      else newStallCycles t in
    let edges := default [] (forwardings currentState !! index) in
    let call stage :=
      executeMIPSInstruction translateInstructionToMIPS inst
        (newRegisters t) (newMemory t) (newPC t) stage edges nextCycle in
    if stageIndex =? 2 then
      '(regs, mem, updatedPC) ← call sEX;
      Some (mkTick stages stall regs mem (default (newPC t) updatedPC))
    else if stageIndex =? 3 then
      '(regs, mem, _) ← call sMEM;
      Some (mkTick stages stall regs mem (newPC t))
    else if stageIndex =? 4 then
      '(regs, mem, _) ← call sWB;
      Some (mkTick stages stall regs mem (newPC t))
    else Some (mkTick stages stall (newRegisters t) (newMemory t) (newPC t))
  else
    Some (mkTick (<[Num (Z.of_nat index) := None]> (newInstructionStages t))
                 (newStallCycles t) (newRegisters t) (newMemory t) (newPC t)).

(** [xs.forEach((x, index) => ...)]: the elements with their positions. *)
Definition indexed {A : Type} (xs : list A) : list (nat * A) :=
  zip (seq 0 (length xs)) xs.

(** The state a tick with a pending stall returns. *)
Definition stalledState (st : SimulationState) : SimulationState :=
  mkState (instructions st) (currentCycle st + 1) (maxCycles st)
    (isRunning st) (stageCount st) (instructionStages st) (isFinished st)
    (registerUsage st) (hazards st) (forwardings st) (stalls st)
    (currentStallCycles st - 1) (forwardingEnabled st) (stallsEnabled st)
    (registers st) (memory st) (PC st).

Definition calculateNextState (currentState : SimulationState)
    : option SimulationState :=
  if negb (isRunning currentState) || isFinished currentState
  then Some currentState
  else
    let nextCycle := currentCycle currentState + 1 in
    if 0 <? currentStallCycles currentState then Some (stalledState currentState)
    else
      t ← forEachM (visitInstruction currentState nextCycle)
             (mkTick ∅ (currentStallCycles currentState)
                (registers currentState) (memory currentState)
                (PC currentState))
             (indexed (instructions currentState));
      let completion := completionCycle currentState in
      let finished := completion <? nextCycle in
      let running := negb finished in
      if negb finished && numNe (newPC t) (PC currentState) then
        let newInstructions := slice (newPC t) (instructions currentState) in
        Some (mkState newInstructions nextCycle (maxCycles currentState)
                running (stageCount currentState)
                (redirectedStages currentState nextCycle (newPC t)
                   (length newInstructions))
                finished (registerUsage currentState) (hazards currentState)
                (forwardings currentState) (stalls currentState)
                (newStallCycles t) (forwardingEnabled currentState)
                (stallsEnabled currentState) (newRegisters t) (newMemory t)
                (newPC t))
      else
        Some (mkState (instructions currentState)
                (if finished then completion else nextCycle)
                (maxCycles currentState) running (stageCount currentState)
                (newInstructionStages t) finished
                (registerUsage currentState) (hazards currentState)
                (forwardings currentState) (stalls currentState)
                (newStallCycles t) (forwardingEnabled currentState)
                (stallsEnabled currentState) (newRegisters t) (newMemory t)
                (newPC t)).

(** ** The actions of the provider *)

Definition resetSimulation (prevState : SimulationState) : SimulationState :=
  mkState [] 0 0 false DEFAULT_STAGE_COUNT ∅ false ∅ ∅ ∅ ∅ 0
          (forwardingEnabled prevState) (stallsEnabled prevState)
          initialRegisters initialMemory (Num 0).

Definition startSimulation (submittedInstructions : list string)
    (simulationState : SimulationState) : option SimulationState :=
  match submittedInstructions with
  | [] => Some (resetSimulation simulationState)
  | _ :: _ =>
      let registerUsage : gmap nat RegisterUsage :=
        fold_left (fun usage entry =>
                     <[fst entry := parseInstruction (snd entry)]> usage)
                  (indexed submittedInstructions) ∅ in
      T ← detectHazards submittedInstructions registerUsage
             (forwardingEnabled simulationState) (stallsEnabled simulationState);
      let calculatedMaxCycles :=
        Z.of_nat (length submittedInstructions) + DEFAULT_STAGE_COUNT - 1
        + totalStalls (aStalls T) in
      let initialStages : gmap jsnum (option Z) :=
        fold_left (fun stages index =>
                     <[Num (Z.of_nat index) :=
                         stageOrNull DEFAULT_STAGE_COUNT (1 - Z.of_nat index - 1)]>
                       stages)
                  (seq 0 (length submittedInstructions)) ∅ in
      Some (mkState submittedInstructions 1 calculatedMaxCycles true
              DEFAULT_STAGE_COUNT initialStages false registerUsage
              (aHazards T) (aForwardings T) (aStalls T) 0
              (forwardingEnabled simulationState) (stallsEnabled simulationState)
              initialRegisters initialMemory (Num 0))
  end.

Definition withRunning (b : bool) (st : SimulationState) : SimulationState :=
  mkState (instructions st) (currentCycle st) (maxCycles st) b
    (stageCount st) (instructionStages st) (isFinished st)
    (registerUsage st) (hazards st) (forwardings st) (stalls st)
    (currentStallCycles st) (forwardingEnabled st) (stallsEnabled st)
    (registers st) (memory st) (PC st).

Definition pauseSimulation (prevState : SimulationState) : SimulationState :=
  if isRunning prevState then withRunning false prevState else prevState.

Definition resumeSimulation (prevState : SimulationState) : SimulationState :=
  if negb (isRunning prevState) && (0 <? currentCycle prevState)
     && negb (isFinished prevState)
  then withRunning true prevState
  else prevState.

Definition setForwardingEnabled (enabled : bool) (st : SimulationState)
    : SimulationState :=
  mkState (instructions st) (currentCycle st) (maxCycles st) (isRunning st)
    (stageCount st) (instructionStages st) (isFinished st)
    (registerUsage st) (hazards st) (forwardings st) (stalls st)
    (currentStallCycles st) enabled (stallsEnabled st)
    (registers st) (memory st) (PC st).

Definition setStallsEnabled (enabled : bool) (st : SimulationState)
    : SimulationState :=
  mkState (instructions st) (currentCycle st) (maxCycles st) (isRunning st)
    (stageCount st) (instructionStages st) (isFinished st)
    (registerUsage st) (hazards st) (forwardings st) (stalls st)
    (currentStallCycles st) (forwardingEnabled st) enabled
    (registers st) (memory st) (PC st).

(** What the interface and the clock can do to the state. *)
Inductive Action : Type :=
  | Start (submittedInstructions : list string)
  | Clock
  | Pause
  | Resume
  | SetForwarding (enabled : bool)
  | SetStalls (enabled : bool)
  | Reset.

Definition perform (a : Action) (st : SimulationState) : option SimulationState :=
  match a with
  | Start l => startSimulation l st
  | Clock => calculateNextState st
  | Pause => Some (pauseSimulation st)
  | Resume => Some (resumeSimulation st)
  | SetForwarding b => Some (setForwardingEnabled b st)
  | SetStalls b => Some (setStallsEnabled b st)
  | Reset => Some (resetSimulation st)
  end.

(** The states the provider can hold: those reached from [initialState]
    by actions none of which throws. *)
Inductive reachable : SimulationState -> Prop :=
  | reachable_initial : reachable initialState
  | reachable_perform a st st' :
      reachable st -> perform a st = Some st' -> reachable st'.

End Scheduler.

(** ** Notions used in the statements *)

(** The pairs whose body writes the hazard record of [i]: a RAW match on a
    producer that is not a load or is a load at distance 1, or, without a
    RAW match, an equal destination (WAW). *)
Definition recordsHazard (i j : nat) (cur prev : RegisterUsage) : bool :=
  negb (JS.numEq (rd prev) (Num 0) && negb (isLoad prev))
  && (if fst (rawHazard cur prev)
      then negb (isLoad prev) || (i - j =? 1)%nat
      else sameDestination cur prev).

(** The pairs whose body writes the stall entry of [i]: a RAW match on a
    load at distance 1, or on another producer when forwarding is off. *)
Definition recordsStall (fwd : bool) (i j : nat) (cur prev : RegisterUsage) : bool :=
  negb (JS.numEq (rd prev) (Num 0) && negb (isLoad prev))
  && fst (rawHazard cur prev)
  && (if isLoad prev then (i - j =? 1)%nat else negb fwd).

(** The entries of an instruction, as one observation. *)
Definition entriesAt (k : nat) (T : Analysis)
    : option HazardInfo * option (list ForwardingInfo) * option Z :=
  (aHazards T !! k, aForwardings T !! k, aStalls T !! k).

(** The operand texts that one call hands to [getForwardedValue] (before
    [replace('$', '')] and [parseInt]): the source registers of the
    mnemonic, the base register of a load or store, the stored register
    of a store. *)
Definition forwardedOperandsOf (stage : StageName) (op : option Op.t)
    (operands : list string) : list string :=
  let names := map (fun r => normalizeRegister (stripDollar r)) operands in
  let base :=
    match Str.matchOffsetBase (default "undefined" (operands !! 1%nat)) with
    | Some (_, baseReg) => [baseReg]
    | None => []
    end in
  match stage, op with
  | sEX, Some (Op.add | Op.addu | Op.and | Op.or | Op.slt | Op.sltu
               | Op.sub | Op.subu | Op.nor) =>
      option_list (names !! 1%nat) ++ option_list (names !! 2%nat)
  | sEX, Some (Op.addi | Op.addiu | Op.andi | Op.ori | Op.slti | Op.sltiu
               | Op.sll | Op.srl) =>
      option_list (operands !! 1%nat)
  | sEX, Some (Op.beq | Op.bne) =>
      option_list (operands !! 0%nat) ++ option_list (operands !! 1%nat)
  | sEX, Some Op.jr => option_list (operands !! 0%nat)
  | sMEM, Some (Op.lw | Op.lbu | Op.lhu | Op.ll) => base
  | sMEM, Some (Op.sw | Op.sb | Op.sh | Op.sc) =>
      base ++ option_list (operands !! 0%nat)
  | _, _ => []
  end.

Definition forwardedOperands (stage : StageName) (mipsInstruction : string)
    : list string :=
  let '(op, operands) := Str.splitOn " " (Str.removeAll "," mipsInstruction) in
  forwardedOperandsOf stage (Op.ofString op) operands.

(** The body of the inner loop of [i] for the producer [j]. *)
Definition pairBody (forwardingEnabled : bool)
    (registerUsage : gmap nat RegisterUsage) (i : nat)
    (currentInst : RegisterUsage) (T : Analysis) (j : nat) : option Analysis :=
  prevInst ← registerUsage !! j;
  scanPair forwardingEnabled i j currentInst prevInst T.

(** The run of the analyzer that returns [T] passes through the body of
    the pair ([i], [j]), with the tables [Tb] before it and [Ta] after it:
    the outer loop up to [i], then for [i], which is not of type J, the
    inner loop over the producers nearer than [j], the body of the pair
    and the inner loop over the producers farther than [j], and the outer
    loop from [i + 1] on. *)
Definition visitsPair (instructions : list string)
    (registerUsage : gmap nat RegisterUsage) (forwardingEnabled : bool)
    (T : Analysis) (i j : nat) (Tb Ta : Analysis) : Prop :=
  exists currentInst prevInst nearer farther T1 T2,
    registerUsage !! i = Some currentInst
    /\ type currentInst <> J
    /\ registerUsage !! j = Some prevInst
    /\ producers i = nearer ++ j :: farther
    /\ forEachM (scanInstruction forwardingEnabled registerUsage)
         (initialAnalysis (length instructions)) (seq 1 (i - 1)) = Some T1
    /\ forEachM (pairBody forwardingEnabled registerUsage i currentInst)
         T1 nearer = Some Tb
    /\ scanPair forwardingEnabled i j currentInst prevInst Tb = Some Ta
    /\ forEachM (pairBody forwardingEnabled registerUsage i currentInst)
         Ta farther = Some T2
    /\ forEachM (scanInstruction forwardingEnabled registerUsage)
         T2 (seq (S i) (length instructions - 1 - i)) = Some T.

(** The words of the specification for a redirection: [new] is [old]
    truncated to start at the program counter [pc], a position. *)
Definition truncatedAt (pc : jsnum) (old new : list string) : Prop :=
  exists p : nat, pc = Num (Z.of_nat p) /\ new = drop p old.

(** A sequence of actions, for the examples. *)
Fixpoint performAll (decoder : string -> string) (actions : list Action)
    (st : SimulationState) : option SimulationState :=
  match actions with
  | [] => Some st
  | a :: rest => st' ← perform decoder a st; performAll decoder rest st'
  end.

(** A finished state stands at its completion cycle and is not running. *)
Definition finishedAtCompletion (st : SimulationState) : Prop :=
  isFinished st = true ->
  currentCycle st = completionCycle st /\ isRunning st = false.

(** The register [name] in the result of a call. *)
Definition registerAfter (name : string) (result : option outcome) : option jsnum :=
  match result with
  | Some (regs, _, _) => regs !! name
  | None => None
  end.

(** ** The programs and states of the examples *)

(** A decoder for the examples: the text of a few encodings, registers by
    name, as [executeMIPSInstruction] reads them. *)
Definition sampleDecoder (hexInstruction : string) : string :=
  if String.eqb hexInstruction "20080005" then "addi $t0, $zero, 5"
  else if String.eqb hexInstruction "01095020" then "add $t2, $t0, $t1"
  else if String.eqb hexInstruction "8D090004" then "lw $t1, 4($t0)"
  else if String.eqb hexInstruction "8D090040" then "lw $t1, 64($t0)"
  else if String.eqb hexInstruction "AD090040" then "sw $t1, 64($t0)"
  else if String.eqb hexInstruction "08000002" then "j 8"
  else if String.eqb hexInstruction "08000003" then "j 0xc"
  else "nop".

(** [lw $t1, 4($t0)], [addi $t0, $zero, 5] and [add $t2, $t0, $t1]. *)
Definition lwT1 : RegisterUsage := parseInstruction "8D090004".
Definition addiT0 : RegisterUsage := parseInstruction "20080005".
Definition addT2 : RegisterUsage := parseInstruction "01095020".

(** The three of them in this order: the [add] reads [$t0] from the
    [addi] before it and [$t1] from the load two places before it. *)
Definition exampleProgram : list string := ["8D090004"; "20080005"; "01095020"].

Definition exampleUsage : gmap nat RegisterUsage :=
  list_to_map [(0%nat, lwT1); (1%nat, addiT0); (2%nat, addT2)].

Definition exampleAnalysis : Analysis :=
  default (initialAnalysis 0) (detectHazards exampleProgram exampleUsage false true).

(** [addi $t0, $zero, 5], [addi $t1, $zero, 5] and [addi $t0, $t1, 1]: the
    third reads [$t1] from the second and writes [$t0] as the first does. *)
Definition rewriteProgram : list string := ["20080005"; "20090005"; "21280001"].

Definition rewriteUsage : gmap nat RegisterUsage :=
  list_to_map [(0%nat, parseInstruction "20080005");
               (1%nat, parseInstruction "20090005");
               (2%nat, parseInstruction "21280001")].

Definition rewriteAnalysis : Analysis :=
  default (initialAnalysis 0) (detectHazards rewriteProgram rewriteUsage false true).

(** The registers of the examples: [$t0 = 5] and [$t1 = 7]. *)
Definition exampleRegisters : gmap string jsnum :=
  <["$t1" := Num 7]> (<["$t0" := Num 5]> initialRegisters).

(** The state that a list of actions leaves ([initialState] if one of them
    throws). *)
Definition stateAfter (actions : list Action) : SimulationState :=
  default initialState (performAll sampleDecoder actions initialState).

(** One [addi]: started at cycle 1, before and after its last tick. *)
Definition singleRunning : SimulationState :=
  stateAfter [Start ["20080005"]; Clock; Clock; Clock; Clock].

Definition singleFinished : SimulationState :=
  stateAfter [Start ["20080005"]; Clock; Clock; Clock; Clock; Clock].

(** Three [addi] and [j 0xc], a jump to the fourth instruction: the jump
    is in EX at cycle 6, and the redirection keeps one instruction. *)
Definition afterLateJump : SimulationState :=
  stateAfter [Start ["20080005"; "20080005"; "20080005"; "08000003"];
              Clock; Clock; Clock; Clock; Clock].

(** [addi $t0, $zero, 5] then [add $t2, $t0, $t1] without forwarding: the
    [add] has 2 stall cycles, injected when it enters decode at cycle 3. *)
Definition stalledExample : SimulationState :=
  stateAfter [SetForwarding false; Start ["20080005"; "01095020"]; Clock; Clock].

(** [j 8] followed by three [addi]: the jump is in EX at cycle 3 and gives
    the program counter 8 >> 2 = 2. *)
Definition beforeJump : SimulationState :=
  stateAfter [Start ["08000002"; "20080005"; "20080005"; "20080005"]; Clock].

Definition jumpTick : Tick :=
  default (mkTick ∅ 0 ∅ ∅ NaN)
    (forEachM (visitInstruction sampleDecoder beforeJump (currentCycle beforeJump + 1))
       (mkTick ∅ (currentStallCycles beforeJump) (registers beforeJump)
          (memory beforeJump) (PC beforeJump))
       (indexed (instructions beforeJump))).

(** ** Notions and examples of the further properties *)

(** The three entries of [i] all exist. *)
Definition hasEntries (T : Analysis) (i : nat) : Prop :=
  is_Some (aHazards T !! i) /\ is_Some (aForwardings T !! i)
  /\ is_Some (aStalls T !! i).

(** Each table has an entry for exactly the positions below [n]. *)
Definition tablesOver (n : nat) (T : Analysis) : Prop :=
  forall k,
    (is_Some (aHazards T !! k) <-> (k < n)%nat)
    /\ (is_Some (aForwardings T !! k) <-> (k < n)%nat)
    /\ (is_Some (aStalls T !! k) <-> (k < n)%nat).

(** The edge that the pair ([i], [j]) makes from producer [prev]. *)
Definition edgeOf (usage : gmap nat RegisterUsage) (i : nat)
    (f : ForwardingInfo) : Prop :=
  to f = i /\ toStage f = sEX
  /\ exists prev, usage !! from f = Some prev
                  /\ register f = regMapName (rd prev)
                  /\ fromStage f
                     = if (i - from f =? 1)%nat && negb (isLoad prev)
                       then sEX else sMEM.

(** [exampleProgram] analysed with forwarding. *)
Definition forwardedAnalysis : Analysis :=
  default (initialAnalysis 0) (detectHazards exampleProgram exampleUsage true true).

(** The [n] low bits of [z] as text, the highest first. *)
Fixpoint bitString (n : nat) (z : Z) : string :=
  match n with
  | O => EmptyString
  | S m => String (if Z.testbit z (Z.of_nat m) then "1" else "0")%char (bitString m z)
  end.

(** The characters of a text. *)
Fixpoint characters (s : string) : list ascii :=
  match s with
  | EmptyString => []
  | String c r => c :: characters r
  end.

(** The operands a call reads without a guard: fewer of them and a method
    is called on [undefined]. *)
Definition requiredOperands (stage : StageName) (op : option Op.t) : nat :=
  match stage, op with
  | sEX, Some (Op.add | Op.addu | Op.and | Op.or | Op.slt | Op.sltu
               | Op.sub | Op.subu | Op.nor) => 3
  | sEX, Some (Op.addi | Op.addiu | Op.andi | Op.ori | Op.slti | Op.sltiu
               | Op.sll | Op.srl | Op.beq | Op.bne) => 2
  | sEX, Some (Op.jr | Op.lui) => 1
  | sMEM, Some (Op.lw | Op.sw | Op.lbu | Op.lhu | Op.ll
                | Op.sb | Op.sh | Op.sc) => 1
  | _, _ => 0
  end.

(** The range of the value that an instruction of logic, shift or
    comparison leaves in its destination. *)
Definition resultRange (o : Op.t) (v : Z) : Prop :=
  match o with
  | Op.slt | Op.slti | Op.sltu | Op.sltiu => v = 0 \/ v = 1
  | Op.srl => 0 <= v < 2 ^ 32
  | _ => - 2 ^ 31 <= v < 2 ^ 31
  end.

(** The stage that the loop of a tick computes for position [k]. *)
Definition stageAt (st : SimulationState) (cycle : Z) (k : Z) : Z :=
  cycle - k - 1 - calculatePrecedingStalls (stalls st) (Num k).

(** What holds of every state the provider reaches. *)
Record wellFormed (st : SimulationState) : Prop := mkWellFormed {
  wf_stageCount : stageCount st = 5;
  wf_cycle : 0 <= currentCycle st;
  wf_running : isRunning st = true -> 0 < currentCycle st /\ isFinished st = false;
  wf_stall : 0 <= currentStallCycles st <= 2;
  wf_stalls : forall i v, stalls st !! i = Some v -> 0 <= v <= 2;
  wf_stage : forall key s,
    instructionStages st !! key = Some (Some s) -> 0 <= s < 5;
  wf_distinct : forall k1 k2 s,
    instructionStages st !! k1 = Some (Some s) ->
    instructionStages st !! k2 = Some (Some s) -> k1 = k2;
  wf_memory : forall a, is_Some (memory st !! a) <-> 0 <= a < 32
}.

(** The state after the pending stall cycles have been spent. *)
Definition afterStall (st : SimulationState) : SimulationState :=
  mkState (instructions st) (currentCycle st + currentStallCycles st)
    (maxCycles st) (isRunning st) (stageCount st) (instructionStages st)
    (isFinished st) (registerUsage st) (hazards st) (forwardings st)
    (stalls st) 0 (forwardingEnabled st) (stallsEnabled st)
    (registers st) (memory st) (PC st).

(** The potential of a run: an upper bound of the ticks it still takes. *)
Definition ticksLeft (st : SimulationState) : Z :=
  Z.max (currentStallCycles st + 1) (completionCycle st - currentCycle st + 3).

(** A decoder for a store and a load of the same word. *)
Definition memoryDecoder (hexInstruction : string) : string :=
  if String.eqb hexInstruction "AD090004" then "sw $t1, 4($t0)"
  else if String.eqb hexInstruction "8D0A0004" then "lw $t2, 4($t0)"
  else "nop".

(** The state before [stalledExample]: the [add] is about to enter
    decode. *)
Definition beforeStall : SimulationState :=
  stateAfter [SetForwarding false; Start ["20080005"; "01095020"]; Clock].

(** The state after the redirection of [beforeJump]. *)
Definition afterJump : SimulationState :=
  stateAfter [Start ["08000002"; "20080005"; "20080005"; "20080005"];
              Clock; Clock].

(** [lw $t1, 4($t0)] and, right after it, [add $t2, $t0, $t1]. *)
Definition loadUseProgram : list string := ["8D090004"; "01095020"].

Definition loadUseUsage : gmap nat RegisterUsage :=
  list_to_map [(0%nat, lwT1); (1%nat, addT2)].

Definition loadUseAnalysis : Analysis :=
  default (initialAnalysis 0) (detectHazards loadUseProgram loadUseUsage false true).

(** [loadUseProgram] analysed with forwarding. *)
Definition loadUseForwarded : Analysis :=
  default (initialAnalysis 0) (detectHazards loadUseProgram loadUseUsage true true).

(** A decoder for [and $t2, $t0, $t1]. *)
Definition logicDecoder (hexInstruction : string) : string :=
  if String.eqb hexInstruction "01095024" then "and $t2, $t0, $t1" else "nop".

(** A decoder for two branches: one backwards, one to a label. *)
Definition branchDecoder (hexInstruction : string) : string :=
  if String.eqb hexInstruction "1000FFFD" then "beq $zero, $zero, -3"
  else if String.eqb hexInstruction "10000000" then "beq $zero, $zero, loop"
  else "nop".

(** [beq $zero, $zero, -3] followed by four other instructions: the
    branch is in EX at cycle 3 and gives the program counter
    0 + 1 - 3 = -2. *)
Definition beforeBranch : SimulationState :=
  default initialState
    (performAll branchDecoder
       [Start ["1000FFFD"; "20080001"; "20080002"; "20080003"; "20080004"]; Clock]
       initialState).

(** The same with [beq $zero, $zero, loop]: [parseInt] reads no number in
    the label and the program counter is [NaN]. *)
Definition beforeLabel : SimulationState :=
  default initialState
    (performAll branchDecoder
       [Start ["10000000"; "20080001"; "20080002"; "20080003"; "20080004"]; Clock]
       initialState).


(** [addi $t0, $zero, 5] and [addi $t1, $t0, 1], analysed with
    forwarding. *)
Definition numericProgram : list string := ["20080005"; "21090001"].

Definition numericAnalysis : Analysis :=
  default (initialAnalysis 0)
    (detectHazards numericProgram
       (list_to_map [(0%nat, parseInstruction "20080005");
                     (1%nat, parseInstruction "21090001")])
       true true).


(** [addi $t0, $zero, 5], [lw $t1, 4($t0)] and [add $t2, $t0, $t1],
    analysed without forwarding: the [add] reads [$t0] from the [addi]
    two places before it. *)
Definition distantProgram : list string := ["20080005"; "8D090004"; "01095020"].

Definition distantUsage : gmap nat RegisterUsage :=
  list_to_map [(0%nat, addiT0); (1%nat, lwT1); (2%nat, addT2)].

Definition distantAnalysis : Analysis :=
  default (initialAnalysis 0) (detectHazards distantProgram distantUsage false true).

(** A decoder for loads and stores with a large base register. *)
Definition largeBaseDecoder (hexInstruction : string) : string :=
  if String.eqb hexInstruction "8D090028" then "lw $t1, 40($t0)"
  else if String.eqb hexInstruction "AD09FFFF" then "sw $t1, -1($t0)"
  else if String.eqb hexInstruction "8D0AFFFF" then "lw $t2, -1($t0)"
  else "nop".

(** * Properties *)

Ltac scanPair_cases fwd i j cur prev :=
  unfold scanPair, recordRaw, pushForwarding, recordsHazard, recordsStall in *;
  destruct (JS.numEq (rd prev) (Num 0)), (rawHazard cur prev) as [[] ?],
    (isLoad prev), fwd, (i - j =? 1)%nat, (sameDestination cur prev);
  simpl in *; simplify_option_eq.

(** ** The rounding of sums *)

(** Below 2^53 every integer is a double. *)
Lemma toDouble_exact z : Z.abs z < 2 ^ 53 -> JS.toDouble z = z.
Proof.
  intros Hz. unfold JS.toDouble.
  assert (Z.log2 (Z.abs z) < 53).
  { destruct (Z.eq_dec (Z.abs z) 0) as [-> | Hne]; [simpl; lia |].
    apply Z.log2_lt_pow2; lia. }
  destruct (Z.leb_spec (Z.log2 (Z.abs z) - 52) 0); [done | lia].
Qed.

Lemma toDouble_opp z : JS.toDouble (- z) = - JS.toDouble z.
Proof.
  unfold JS.toDouble. rewrite Z.abs_opp, Z.sgn_opp.
  destruct (_ <=? 0); [done |]. lia.
Qed.

(** For a positive integer of [n + 1] bits, [n >= 53]: the double lies in
    [2^n, 2^(n+1)]. *)
Lemma toDouble_pos_spec z :
  2 ^ 53 <= z ->
  let n := Z.log2 z in
  let e := n - 52 in
  exists q', JS.toDouble z = q' * 2 ^ e
             /\ (q' = z / 2 ^ e \/ q' = z / 2 ^ e + 1)
             /\ 2 ^ 52 <= z / 2 ^ e < 2 ^ 53
             /\ 0 < e.
Proof.
  intros Hz n e.
  assert (Hn : 53 <= n).
  { unfold n. apply Z.log2_le_pow2; lia. }
  assert (He : 0 < e) by (unfold e; lia).
  destruct (Z.log2_spec z) as [Hlo Hhi]; [lia |]. fold n in Hlo, Hhi.
  assert (Hq : 2 ^ 52 <= z / 2 ^ e < 2 ^ 53).
  { assert (Hpow : 2 ^ n = 2 ^ 52 * 2 ^ e).
    { rewrite <- Z.pow_add_r by lia. f_equal. unfold e. lia. }
    assert (0 < 2 ^ e) by (apply Z.pow_pos_nonneg; lia).
    split.
    - apply Z.div_le_lower_bound; lia.
    - apply Z.div_lt_upper_bound; [lia |].
      replace (Z.succ n) with (n + 1) in Hhi by lia.
      rewrite Z.pow_add_r in Hhi by lia. lia. }
  unfold JS.toDouble. rewrite Z.abs_eq by lia. fold n. fold e.
  destruct (Z.leb_spec e 0); [lia |].
  rewrite Z.sgn_pos by lia.
  eexists. split; [by rewrite Z.mul_1_l |].
  split; [| done]. destruct (_ || _); auto.
Qed.

Lemma toDouble_pos_bounds z :
  2 ^ 53 <= z -> 2 ^ Z.log2 z <= JS.toDouble z <= 2 ^ (Z.log2 z + 1).
Proof.
  intros Hz. destruct (toDouble_pos_spec z Hz) as (q' & -> & Hq' & Hq & He).
  set (e := Z.log2 z - 52) in *.
  assert (Hn : Z.log2 z = 52 + e) by (unfold e; lia).
  clearbody e. rewrite Hn.
  assert (0 < 2 ^ e) by (apply Z.pow_pos_nonneg; lia).
  replace (52 + e + 1) with (53 + e) by lia.
  rewrite !Z.pow_add_r by lia.
  split; apply Z.mul_le_mono_nonneg_r; lia.
Qed.

Lemma toDouble_mono_pos a b : 0 <= a -> a <= b -> JS.toDouble a <= JS.toDouble b.
Proof.
  intros Ha Hab.
  destruct (Z.lt_ge_cases b (2 ^ 53)) as [Hb | Hb].
  { rewrite !toDouble_exact by lia. done. }
  destruct (Z.lt_ge_cases a (2 ^ 53)) as [Ha' | Ha'].
  { rewrite (toDouble_exact a) by lia.
    pose proof (toDouble_pos_bounds b Hb) as [Hlo _].
    assert (2 ^ 53 <= 2 ^ Z.log2 b).
    { apply Z.pow_le_mono_r; [lia |]. apply Z.log2_le_pow2; lia. }
    lia. }
  pose proof (Z.log2_le_mono a b Hab) as Hlog.
  destruct (Z.eq_dec (Z.log2 a) (Z.log2 b)) as [Heq | Hne].
  - assert (Hn : 53 <= Z.log2 a) by (apply Z.log2_le_pow2; lia).
    unfold JS.toDouble. rewrite !Z.abs_eq, !Z.sgn_pos by lia. rewrite <- Heq.
    set (e := Z.log2 a - 52).
    destruct (Z.leb_spec e 0); [unfold e in *; lia |].
    assert (Hpow : 0 < 2 ^ e) by (apply Z.pow_pos_nonneg; lia).
    assert (Hhalf : 2 * 2 ^ (e - 1) = 2 ^ e).
    { rewrite <- Z.pow_succ_r by lia. f_equal. lia. }
    pose proof (Z.div_mod a (2 ^ e) ltac:(lia)) as Hda.
    pose proof (Z.div_mod b (2 ^ e) ltac:(lia)) as Hdb.
    pose proof (Z.mod_pos_bound a (2 ^ e) Hpow).
    pose proof (Z.mod_pos_bound b (2 ^ e) Hpow).
    pose proof (Z.div_le_mono a b (2 ^ e) Hpow Hab) as Hq.
    rewrite !Z.mul_1_l.
    apply Z.mul_le_mono_nonneg_r; [lia |].
    remember (a / 2 ^ e) as qa eqn:Eqa. remember (b / 2 ^ e) as qb eqn:Eqb.
    remember (a mod 2 ^ e) as ra eqn:Era. remember (b mod 2 ^ e) as rb eqn:Erb.
    remember (2 ^ (e - 1)) as h eqn:Eh. remember (2 ^ e) as P eqn:EP.
    clear Eqa Eqb Era Erb Eh EP.
    destruct (Z.eq_dec qa qb) as [<- | Hqne].
    + assert (Hr : ra <= rb).
      { rewrite Hda, Hdb in Hab. by apply Z.add_le_mono_l in Hab. }
      clear Hda Hdb Hab.
      destruct ((h <? ra) || ((ra =? h) && Z.odd qa)) eqn:Ua;
        [| destruct ((h <? rb) || _); lia].
      assert (Ub : (h <? rb) || ((rb =? h) && Z.odd qa) = true).
      { apply orb_true_iff in Ua as [Ua | Ua].
        - apply Z.ltb_lt in Ua. apply orb_true_iff. left. apply Z.ltb_lt. lia.
        - apply andb_true_iff in Ua as [Ua Uo]. apply Z.eqb_eq in Ua.
          destruct (Z.eq_dec rb h) as [E | E].
          + rewrite E, Z.eqb_refl, Uo. apply orb_true_r.
          + apply orb_true_iff. left. apply Z.ltb_lt. lia. }
      rewrite Ub. lia.
    + destruct ((h <? ra) || _), ((h <? rb) || _); lia.
  - pose proof (toDouble_pos_bounds a Ha') as [_ Hhi].
    pose proof (toDouble_pos_bounds b Hb) as [Hlo _].
    assert (2 ^ (Z.log2 a + 1) <= 2 ^ Z.log2 b).
    { apply Z.pow_le_mono_r; lia. }
    lia.
Qed.

Lemma toDouble_nonneg z : 0 <= z -> 0 <= JS.toDouble z.
Proof.
  intros Hz. rewrite <- (toDouble_exact 0) at 1 by (simpl; lia).
  by apply toDouble_mono_pos.
Qed.

(** Rounding keeps the order of the integers. *)
Lemma toDouble_mono a b : a <= b -> JS.toDouble a <= JS.toDouble b.
Proof.
  intros Hab. destruct (Z.le_gt_cases 0 a) as [Ha | Ha].
  - by apply toDouble_mono_pos.
  - destruct (Z.le_gt_cases 0 b) as [Hb | Hb].
    + pose proof (toDouble_nonneg b Hb).
      pose proof (toDouble_nonneg (- a) ltac:(lia)) as H1.
      rewrite toDouble_opp in H1. lia.
    + pose proof (toDouble_mono_pos (- b) (- a) ltac:(lia) ltac:(lia)) as H1.
      rewrite !toDouble_opp in H1. lia.
Qed.

(** ** Hazard analyzer: what one pair records *)

Lemma numEq_true a b : JS.numEq a b = true -> a = b.
Proof.
  destruct a, b; simpl; try discriminate.
  intros H. apply Z.eqb_eq in H. by subst.
Qed.

Lemma string_app_assoc (a b c : string) : (a +:+ b) +:+ c = a +:+ (b +:+ c).
Proof.
  induction a as [| x a IH]; [reflexivity |].
  change (String x ((a +:+ b) +:+ c) = String x (a +:+ (b +:+ c))).
  by rewrite IH.
Qed.

(** A RAW match needs a producer whose destination is not register 0, so
    the pair is not skipped by the first test of the loop body. *)
Lemma rawHazard_producer_writes cur prev :
  fst (rawHazard cur prev) = true -> JS.numEq (rd prev) (Num 0) = false.
Proof.
  unfold rawHazard.
  destruct (negb (JS.numEq (rs cur) (Num 0)) && JS.numEq (rs cur) (rd prev)) eqn:E1.
  - intros _. apply andb_true_iff in E1 as [E0 E]. apply numEq_true in E.
    rewrite <- E. by apply negb_true_iff.
  - destruct (negb (JS.numEq (rt cur) (Num 0)) && JS.numEq (rt cur) (rd prev)
              && (isStore cur || negb (isLoad cur) && negb (bool_decide (type cur = I))))
      eqn:E2; simpl; [| discriminate].
    intros _. apply andb_true_iff in E2 as [E2 _].
    apply andb_true_iff in E2 as [E0 E]. apply numEq_true in E.
    rewrite <- E. by apply negb_true_iff.
Qed.

(** With a RAW match the body of the pair is [recordRaw]: the WAW check is
    switched off. *)
Lemma scanPair_raw fwd i j cur prev T :
  fst (rawHazard cur prev) = true ->
  scanPair fwd i j cur prev T
  = recordRaw fwd i j prev (snd (rawHazard cur prev)) T.
Proof.
  intros Hraw. unfold scanPair.
  rewrite (rawHazard_producer_writes _ _ Hraw). simpl.
  destruct (rawHazard cur prev) as [b reg]. simpl in *. subst b.
  rewrite andb_false_r.
  by destruct (recordRaw fwd i j prev reg T).
Qed.

(** A load-use pair at distance 1: what the body of the pair does to the
    tables. *)
Lemma scanPair_load_use (fwd : bool) (i j : nat)
    (cur prev : RegisterUsage) (T : Analysis) (edges : list ForwardingInfo) :
  isLoad prev = true ->
  fst (rawHazard cur prev) = true ->
  i = S j ->
  aForwardings T !! i = Some edges ->
  let text := "Load-use hazard: " +:+ snd (rawHazard cur prev)
              +:+ " depends on lw in instruction " +:+ indexText j in
  scanPair fwd i j cur prev T
  = Some (if fwd
          then mkAnalysis
                 (<[i := mkHazardInfo RAW text true 0]> (aHazards T))
                 (<[i := edges ++ [mkForwardingInfo j i sMEM sEX (regMapName (rd prev))]]>
                    (aForwardings T))
                 (<[i := 0]> (aStalls T))
          else mkAnalysis
                 (<[i := mkHazardInfo RAW text false 1]> (aHazards T))
                 (aForwardings T)
                 (<[i := 1]> (aStalls T))).
Proof.
  intros Hload Hraw -> Hfw text.
  rewrite scanPair_raw by done.
  unfold recordRaw, pushForwarding. rewrite Hload.
  replace (S j - j)%nat with 1%nat by lia. simpl.
  destruct fwd; [by rewrite Hfw |done].
Qed.

(** A RAW pair whose producer is not a load, at distance [d] of 1 or 2:
    what the body of the pair does to the tables. *)
Lemma scanPair_general_raw (fwd : bool) (i j d : nat)
    (cur prev : RegisterUsage) (T : Analysis) (edges : list ForwardingInfo) :
  isLoad prev = false ->
  fst (rawHazard cur prev) = true ->
  (i = j + d)%nat ->
  d = 1%nat \/ d = 2%nat ->
  aForwardings T !! i = Some edges ->
  let text := "RAW hazard: " +:+ snd (rawHazard cur prev)
              +:+ " depends on instruction " +:+ indexText j in
  scanPair fwd i j cur prev T
  = Some (if fwd
          then mkAnalysis
                 (<[i := mkHazardInfo RAW (text +:+ " (forwarded)") true 0]>
                    (aHazards T))
                 (<[i := edges
                         ++ [mkForwardingInfo j i
                               (if bool_decide (d = 1%nat) then sEX else sMEM) sEX
                               (regMapName (rd prev))]]>
                    (aForwardings T))
                 (aStalls T)
          else mkAnalysis
                 (<[i := mkHazardInfo RAW (text +:+ " (no forwarding)") false
                           (if bool_decide (d = 1%nat) then 2 else 1)]>
                    (aHazards T))
                 (aForwardings T)
                 (<[i := if bool_decide (d = 1%nat) then 2 else 1]> (aStalls T))).
Proof.
  intros Hload Hraw -> Hd Hfw text.
  rewrite scanPair_raw by done.
  unfold recordRaw, pushForwarding. rewrite Hload.
  replace (j + d - j)%nat with d by lia.
  subst text. rewrite !string_app_assoc.
  destruct fwd; [rewrite Hfw |]; destruct Hd as [-> | ->]; done.
Qed.

(** C10. A RAW match on a load at distance 2 or 3 records nothing: the
    tables come back as they were, whatever the forwarding toggle, and the
    WAW check does not run for the pair. *)
Theorem load_beyond_distance_one (fwd : bool) (i j : nat)
    (cur prev : RegisterUsage) (T : Analysis) :
  isLoad prev = true ->
  fst (rawHazard cur prev) = true ->
  i = (j + 2)%nat \/ i = (j + 3)%nat ->
  scanPair fwd i j cur prev T = Some T.
Proof.
  intros Hload Hraw Hd.
  rewrite scanPair_raw by done.
  unfold recordRaw. rewrite Hload.
  destruct Hd as [-> | ->].
  - by replace (j + 2 - j)%nat with 2%nat by lia.
  - by replace (j + 3 - j)%nat with 3%nat by lia.
Qed.

(** ** Hazard analyzer: which producer's record stays *)

Lemma forEachM_app {S A : Type} (body : S -> A -> option S) s l1 l2 :
  forEachM body s (l1 ++ l2) = forEachM body s l1 ≫= fun s' => forEachM body s' l2.
Proof.
  revert s. induction l1 as [| x l1 IH]; intros s; simpl; [done |].
  destruct (body s x) as [s1 |]; simpl; [apply IH | done].
Qed.

(** An observation that no body of the loop changes is the same after the
    loop. *)
Lemma forEachM_preserves {S A V : Type} (body : S -> A -> option S)
    (obs : S -> V) (l : list A) :
  (forall s a s', a ∈ l -> body s a = Some s' -> obs s' = obs s) ->
  forall s s', forEachM body s l = Some s' -> obs s' = obs s.
Proof.
  induction l as [| x l IH]; intros Hbody s s' Hrun; simpl in Hrun.
  - by injection Hrun as ->.
  - destruct (body s x) as [s1 |] eqn:E; simpl in Hrun; [| done].
    rewrite (IH (fun s a s' Ha => Hbody s a s' (list_elem_of_further _ _ _ Ha)) _ _ Hrun).
    eapply Hbody; [apply list_elem_of_here | done].
Qed.

(** The observation after the loop is what the last body that writes it
    left. *)
Lemma forEachM_last_writer {S A V : Type} (body : S -> A -> option S)
    (obs : S -> V) (v : V) (l1 l2 : list A) (a : A) s s' :
  (forall s0 s1, body s0 a = Some s1 -> obs s1 = v) ->
  (forall s0 x s1, x ∈ l2 -> body s0 x = Some s1 -> obs s1 = obs s0) ->
  forEachM body s (l1 ++ a :: l2) = Some s' ->
  obs s' = v.
Proof.
  intros Ha Hl2 Hrun. rewrite forEachM_app in Hrun.
  destruct (forEachM body s l1) as [s1 |]; simpl in Hrun; [| done].
  destruct (body s1 a) as [s2 |] eqn:E; simpl in Hrun; [| done].
  rewrite (forEachM_preserves body obs l2 Hl2 _ _ Hrun). eauto.
Qed.

(** The body of a pair touches the entries of [i] only. *)
Lemma scanPair_frame fwd i j cur prev T T' k :
  scanPair fwd i j cur prev T = Some T' -> k <> i ->
  aHazards T' !! k = aHazards T !! k
  /\ aForwardings T' !! k = aForwardings T !! k
  /\ aStalls T' !! k = aStalls T !! k.
Proof.
  intros H Hk. scanPair_cases fwd i j cur prev; rewrite ?lookup_insert_ne by done; done.
Qed.

Lemma scanPair_returns fwd i j cur prev T :
  is_Some (aForwardings T !! i) -> is_Some (scanPair fwd i j cur prev T).
Proof.
  intros [edges Hi]. unfold scanPair, recordRaw, pushForwarding. rewrite Hi.
  destruct (JS.numEq (rd prev) (Num 0) && negb (isLoad prev)); [eauto |].
  destruct (rawHazard cur prev) as [[] reg]; simpl;
    destruct (isLoad prev), fwd, (i - j =? 1)%nat, (sameDestination cur prev);
    simpl; eauto.
Qed.

(** A pair that writes the hazard record of [i] writes the same record
    whatever the tables held. *)
Lemma scanPair_hazard_written fwd i j cur prev T T' U U' :
  recordsHazard i j cur prev = true ->
  scanPair fwd i j cur prev T = Some T' ->
  scanPair fwd i j cur prev U = Some U' ->
  aHazards T' !! i = aHazards U' !! i.
Proof.
  intros Hrec HT HU. scanPair_cases fwd i j cur prev; rewrite ?lookup_insert_eq; done.
Qed.

Lemma scanPair_hazard_kept fwd i j cur prev T T' :
  recordsHazard i j cur prev = false ->
  scanPair fwd i j cur prev T = Some T' ->
  aHazards T' = aHazards T.
Proof.
  intros Hrec HT. scanPair_cases fwd i j cur prev; done.
Qed.

Lemma scanPair_stall_written fwd i j cur prev T T' U U' :
  recordsStall fwd i j cur prev = true ->
  scanPair fwd i j cur prev T = Some T' ->
  scanPair fwd i j cur prev U = Some U' ->
  aStalls T' !! i = aStalls U' !! i.
Proof.
  intros Hrec HT HU. scanPair_cases fwd i j cur prev; rewrite ?lookup_insert_eq; done.
Qed.

Lemma scanPair_stall_kept fwd i j cur prev T T' :
  recordsStall fwd i j cur prev = false ->
  scanPair fwd i j cur prev T = Some T' ->
  aStalls T' = aStalls T.
Proof.
  intros Hrec HT. scanPair_cases fwd i j cur prev; done.
Qed.

Lemma initialAnalysis_S n :
  initialAnalysis (S n)
  = mkAnalysis (<[n := noHazard]> (aHazards (initialAnalysis n)))
               (<[n := []]> (aForwardings (initialAnalysis n)))
               (<[n := 0]> (aStalls (initialAnalysis n))).
Proof. unfold initialAnalysis. by rewrite seq_S, fold_left_app. Qed.

(** After the first loop every instruction has its three entries. *)
Lemma initialAnalysis_lookup n i :
  (i < n)%nat ->
  aHazards (initialAnalysis n) !! i = Some noHazard
  /\ aForwardings (initialAnalysis n) !! i = Some []
  /\ aStalls (initialAnalysis n) !! i = Some 0.
Proof.
  induction n as [| n IH]; intros Hi; [lia |].
  rewrite initialAnalysis_S. simpl.
  destruct (decide (i = n)) as [-> | Hne].
  - by rewrite !lookup_insert_eq.
  - rewrite !lookup_insert_ne by done. apply IH. lia.
Qed.

(** The outer loop's body for [i] touches the entries of [i] only. *)
Lemma scanInstruction_frame fwd (usage : gmap nat RegisterUsage) T T' i k :
  scanInstruction fwd usage T i = Some T' -> k <> i ->
  entriesAt k T' = entriesAt k T.
Proof.
  unfold scanInstruction. intros H Hk.
  destruct (usage !! i) as [cur |]; simpl in H; [| done].
  destruct (bool_decide (type cur = J)); [by injection H as -> |].
  revert H. apply (forEachM_preserves _ (entriesAt k)).
  intros s j s' _ Hbody.
  destruct (usage !! j) as [prev |]; simpl in Hbody; [| done].
  destruct (scanPair_frame _ _ _ _ _ _ _ _ Hbody Hk) as (H1 & H2 & H3).
  unfold entriesAt. by rewrite H1, H2, H3.
Qed.

(** Every producer after [j] in the order of the inner loop is farther
    from [i] than [j]. *)
Lemma producers_split i j :
  j ∈ producers i ->
  exists l1 l2, producers i = l1 ++ j :: l2
                /\ forall x, x ∈ l2 -> x ∈ producers i /\ (x < j)%nat.
Proof.
  destruct i as [| [| [| i]]]; unfold producers; simpl; rewrite ?Nat.sub_0_r;
    intros Hj; set_unfold in Hj.
  - done.
  - destruct Hj as [-> | []]. exists [], []. split; [done |].
    intros x Hx. set_unfold in Hx. done.
  - destruct Hj as [-> | [-> | []]].
    + exists [], [0%nat]. split; [done |]. intros x Hx. set_unfold. lia.
    + exists [1%nat], []. split; [done |]. intros x Hx. set_unfold in Hx. done.
  - destruct Hj as [-> | [-> | [-> | []]]].
    + exists [], [S i; i]. split; [done |]. intros x Hx. set_unfold. lia.
    + exists [S (S i)], [i]. split; [done |]. intros x Hx. set_unfold. lia.
    + exists [S (S i); S i], []. split; [done |]. intros x Hx. set_unfold in Hx. done.
Qed.

(** The run of the analyzer, cut at instruction [i]: before the body of
    [i] its entries are the initial ones, and they are final after it. *)
Lemma detectHazards_at instrs (usage : gmap nat RegisterUsage) fwd T i :
  detectHazards instrs usage fwd true = Some T ->
  (1 <= i < length instrs)%nat ->
  exists T1 T2,
    entriesAt i T1 = entriesAt i (initialAnalysis (length instrs))
    /\ scanInstruction fwd usage T1 i = Some T2
    /\ entriesAt i T = entriesAt i T2.
Proof.
  unfold detectHazards. simpl. intros Hrun Hi.
  replace (seq 1 (length instrs - 1))
    with (seq 1 (i - 1) ++ i :: seq (S i) (length instrs - 1 - i)) in Hrun.
  2:{ replace (length instrs - 1)%nat with ((i - 1) + S (length instrs - 1 - i))%nat
        at 2 by lia.
      rewrite seq_app. simpl. do 3 f_equal; lia. }
  rewrite forEachM_app in Hrun.
  destruct (forEachM _ _ (seq 1 (i - 1))) as [T1 |] eqn:Hpre; simpl in Hrun; [| done].
  destruct (scanInstruction fwd usage T1 i) as [T2 |] eqn:Hat; simpl in Hrun; [| done].
  exists T1, T2. split_and!; [| done |].
  - revert Hpre. apply (forEachM_preserves _ (entriesAt i)).
    intros s k s' Hk Hbody. eapply scanInstruction_frame; [done |].
    apply elem_of_seq in Hk. lia.
  - revert Hrun. apply (forEachM_preserves _ (entriesAt i)).
    intros s k s' Hk Hbody. eapply scanInstruction_frame; [done |].
    apply elem_of_seq in Hk. lia.
Qed.

(** The inner loop for [i]: an observation of the tables that the pairs
    selected by [writes] set, each to a value of its own, and the others
    keep, ends as the farthest selected producer set it. *)
Lemma inner_loop_farthest {V : Type} fwd (usage : gmap nat RegisterUsage)
    i cur j prev
    (obs : Analysis -> V) (writes : nat -> RegisterUsage -> bool) T0 T1 T2 :
  (forall j prev T T' U U', writes j prev = true ->
     scanPair fwd i j cur prev T = Some T' ->
     scanPair fwd i j cur prev U = Some U' -> obs T' = obs U') ->
  (forall j prev T T', writes j prev = false ->
     scanPair fwd i j cur prev T = Some T' -> obs T' = obs T) ->
  is_Some (aForwardings T0 !! i) ->
  forEachM (fun T j => prevInst ← usage !! j; scanPair fwd i j cur prevInst T)
           T1 (producers i) = Some T2 ->
  j ∈ producers i -> usage !! j = Some prev ->
  writes j prev = true ->
  (forall j' prev', j' ∈ producers i -> (j' < j)%nat ->
     usage !! j' = Some prev' -> writes j' prev' = false) ->
  exists Tj, scanPair fwd i j cur prev T0 = Some Tj /\ obs T2 = obs Tj.
Proof.
  intros Hset Hkeep HT0 Hrun Hj Hprev Hw Hfar.
  destruct (scanPair_returns fwd i j cur prev T0 HT0) as [Tj HTj].
  exists Tj. split; [done |].
  destruct (producers_split i j Hj) as (l1 & l2 & Hsplit & Hl2).
  rewrite Hsplit in Hrun. revert Hrun.
  apply (forEachM_last_writer _ obs).
  - intros s0 s1. rewrite Hprev. simpl. intros Hbody. by eapply Hset.
  - intros s0 x s1 Hx Hbody.
    destruct (usage !! x) as [prev' |] eqn:Hx'; simpl in Hbody; [| done].
    destruct (Hl2 x Hx) as [Hin Hlt].
    eapply Hkeep; [| done]. by eapply Hfar.
Qed.

(** C4, as the code has it.  Of the producers in the window of [i], the
    farthest one whose pair writes the hazard record decides the record
    finally stored for [i], and the farthest one whose pair writes the
    stall entry decides the stall entry: each is what that pair alone
    writes, starting from the initial tables.  A pair that writes nothing
    (a load matched at distance 2 or 3) or that writes only the record (a
    WAW match, a forwarded RAW match) leaves what a nearer pair stored. *)
Theorem farthest_recording_producer (instrs : list string)
    (usage : gmap nat RegisterUsage) (fwd : bool) (T : Analysis)
    (i j : nat) (cur prev : RegisterUsage) :
  detectHazards instrs usage fwd true = Some T ->
  (1 <= i < length instrs)%nat ->
  usage !! i = Some cur ->
  type cur <> J ->
  j ∈ producers i ->
  usage !! j = Some prev ->
  let T0 := initialAnalysis (length instrs) in
  (recordsHazard i j cur prev = true ->
   (forall j' prev', j' ∈ producers i -> (j' < j)%nat ->
      usage !! j' = Some prev' -> recordsHazard i j' cur prev' = false) ->
   exists Tj, scanPair fwd i j cur prev T0 = Some Tj
              /\ aHazards T !! i = aHazards Tj !! i)
  /\ (recordsStall fwd i j cur prev = true ->
      (forall j' prev', j' ∈ producers i -> (j' < j)%nat ->
         usage !! j' = Some prev' -> recordsStall fwd i j' cur prev' = false) ->
      exists Tj, scanPair fwd i j cur prev T0 = Some Tj
                 /\ aStalls T !! i = aStalls Tj !! i).
Proof.
  intros Hrun Hi Hcur Htype Hj Hprev T0.
  destruct (detectHazards_at _ _ _ _ _ Hrun Hi) as (T1 & T2 & Hpre & Hat & Hpost).
  unfold scanInstruction in Hat. rewrite Hcur in Hat. simpl in Hat.
  rewrite bool_decide_eq_false_2 in Hat by done.
  assert (HT0 : is_Some (aForwardings T0 !! i)).
  { unfold T0.
    destruct (initialAnalysis_lookup (length instrs) i) as (_ & -> & _); [lia | eauto]. }
  injection Hpost as Hh _ Hs.
  split; intros Hw Hfar.
  - rewrite Hh.
    apply (inner_loop_farthest fwd usage i cur j prev
             (fun T => aHazards T !! i) (fun j prev => recordsHazard i j cur prev)
             T0 T1 T2); try done.
    + intros. by eapply scanPair_hazard_written.
    + intros ???? Hn Hp. by rewrite (scanPair_hazard_kept _ _ _ _ _ _ _ Hn Hp).
  - rewrite Hs.
    apply (inner_loop_farthest fwd usage i cur j prev
             (fun T => aStalls T !! i) (fun j prev => recordsStall fwd i j cur prev)
             T0 T1 T2); try done.
    + intros. by eapply scanPair_stall_written.
    + intros ???? Hn Hp. by rewrite (scanPair_stall_kept _ _ _ _ _ _ _ Hn Hp).
Qed.

(** ** Hazard analyzer: the tables as a whole *)

Lemma forEachM_invariant {S A : Type} (P : S -> Prop)
    (body : S -> A -> option S) (l : list A) :
  (forall s a s', P s -> body s a = Some s' -> P s') ->
  forall s s', P s -> forEachM body s l = Some s' -> P s'.
Proof.
  intros Hbody. induction l as [| x l IH]; intros s s' Hs Hrun; simpl in Hrun.
  - by injection Hrun as <-.
  - destruct (body s x) as [s1 |] eqn:E; simpl in Hrun; [| done].
    eapply IH; [| done]. by eapply Hbody.
Qed.

(** An invariant of the pairs' bodies that the initial tables have holds
    of the tables the analyzer returns. *)
Lemma detectHazards_invariant (P : Analysis -> Prop) instrs
    (usage : gmap nat RegisterUsage) fwd stallsOn T :
  P (initialAnalysis (length instrs)) ->
  (forall i j cur prev T T', P T -> scanPair fwd i j cur prev T = Some T' -> P T') ->
  detectHazards instrs usage fwd stallsOn = Some T -> P T.
Proof.
  intros Hinit Hpair. unfold detectHazards.
  destruct (negb stallsOn); [by intros [= <-] |].
  apply (forEachM_invariant P); [| done].
  intros T1 i T2 HT1. unfold scanInstruction.
  destruct (usage !! i) as [cur |]; simpl; [| done].
  destruct (bool_decide (type cur = J)); [by intros [= <-] |].
  apply (forEachM_invariant P); [| done].
  intros T3 j T4 HT3.
  destruct (usage !! j) as [prev |]; simpl; [| done].
  by apply Hpair.
Qed.

Lemma initialAnalysis_entries n i :
  (forall v, aStalls (initialAnalysis n) !! i = Some v -> v = 0)
  /\ (forall fs, aForwardings (initialAnalysis n) !! i = Some fs -> fs = []).
Proof.
  induction n as [| n IH].
  { unfold initialAnalysis. simpl. split; intros ?; by rewrite lookup_empty. }
  rewrite initialAnalysis_S. simpl.
  destruct (decide (n = i)) as [-> | Hne].
  - rewrite !lookup_insert_eq. split; congruence.
  - by rewrite !lookup_insert_ne.
Qed.

(** With forwarding enabled the analyzer leaves every stall entry at 0:
    the 0 stall cycles of a forwarded hazard are also those of the stall
    table. *)
Lemma forwarding_leaves_no_stall instrs (usage : gmap nat RegisterUsage)
    stallsOn T i v :
  detectHazards instrs usage true stallsOn = Some T ->
  aStalls T !! i = Some v -> v = 0.
Proof.
  intros Hrun. revert i v.
  apply (detectHazards_invariant
           (fun T => forall i v, aStalls T !! i = Some v -> v = 0)
           instrs usage true stallsOn T); [| | done].
  - intros i v. apply initialAnalysis_entries.
  - intros i j cur prev T1 T2 IH Hpair k v.
    destruct (decide (k = i)) as [-> | Hne].
    + revert Hpair.
      unfold scanPair, recordRaw, pushForwarding.
      destruct (JS.numEq (rd prev) (Num 0)), (rawHazard cur prev) as [[] ?],
        (isLoad prev), (i - j =? 1)%nat, (sameDestination cur prev);
        simpl; intros Hpair; simplify_option_eq;
        rewrite ?lookup_insert_eq; try congruence; apply IH.
    + destruct (scanPair_frame _ _ _ _ _ _ _ _ Hpair Hne) as (_ & _ & ->).
      apply IH.
Qed.

(** The nearest producer is visited first, and the others are at distance
    2 or 3. *)
Lemma producers_nearest i :
  (1 <= i)%nat ->
  exists rest, producers i = (i - 1)%nat :: rest
               /\ forall x, x ∈ rest -> (i - x =? 1)%nat = false.
Proof.
  destruct i as [| [| [| i]]]; unfold producers; simpl; rewrite ?Nat.sub_0_r;
    intros Hi; [lia | | |]; eexists; (split; [done |]);
    intros x Hx; set_unfold in Hx; apply Nat.eqb_neq; lia.
Qed.

(** The stall entry of a load-use hazard at distance 1 is final: without
    forwarding every farther pair that writes the entry writes 1 again,
    and with forwarding none writes it. *)
Lemma load_use_final_stall instrs (usage : gmap nat RegisterUsage) fwd T
    i cur prev :
  detectHazards instrs usage fwd true = Some T ->
  (1 <= i < length instrs)%nat ->
  usage !! i = Some cur -> type cur <> J ->
  usage !! (i - 1)%nat = Some prev ->
  isLoad prev = true ->
  fst (rawHazard cur prev) = true ->
  aStalls T !! i = Some (if fwd then 0 else 1).
Proof.
  intros Hrun Hi Hcur Htype Hprev Hload Hraw.
  destruct (detectHazards_at _ _ _ _ _ Hrun Hi) as (T1 & T2 & Hpre & Hat & Hpost).
  injection Hpost as _ _ ->. injection Hpre as _ Hfw _.
  unfold scanInstruction in Hat. rewrite Hcur in Hat. simpl in Hat.
  rewrite bool_decide_eq_false_2 in Hat by done.
  destruct (producers_nearest i) as (rest & Hprod & Hrest); [lia |].
  rewrite Hprod in Hat. simpl in Hat. rewrite Hprev in Hat. simpl in Hat.
  destruct (initialAnalysis_lookup (length instrs) i) as (_ & Hedges & _); [lia |].
  rewrite Hedges in Hfw.
  assert (Hfirst : scanPair fwd i (i - 1) cur prev T1
                   = recordRaw fwd i (i - 1) prev (snd (rawHazard cur prev)) T1)
    by by apply scanPair_raw.
  rewrite Hfirst in Hat. unfold recordRaw, pushForwarding in Hat.
  rewrite Hload, Hfw in Hat.
  replace (i - (i - 1) =? 1)%nat with true in Hat by (symmetry; apply Nat.eqb_eq; lia).
  assert (Hkeep : forall s x s',
            x ∈ rest ->
            aStalls s !! i = Some (if fwd then 0 else 1) ->
            (prevInst ← usage !! x; scanPair fwd i x cur prevInst s) = Some s' ->
            aStalls s' !! i = Some (if fwd then 0 else 1)).
  { intros s x s' Hx Hs Hbody.
    destruct (usage !! x) as [p |]; simpl in Hbody; [| done].
    specialize (Hrest x Hx). revert Hbody.
    unfold scanPair, recordRaw, pushForwarding. rewrite Hrest.
    destruct (JS.numEq (rd p) (Num 0)), (rawHazard cur p) as [[] ?],
      (isLoad p), fwd, (sameDestination cur p);
      simpl; intros Hbody; simplify_option_eq;
      rewrite ?lookup_insert_eq; done. }
  assert (Hloop : forall l s s',
            (forall x, x ∈ l -> x ∈ rest) ->
            aStalls s !! i = Some (if fwd then 0 else 1) ->
            forEachM (fun T j => prevInst ← usage !! j;
                                 scanPair fwd i j cur prevInst T) s l = Some s' ->
            aStalls s' !! i = Some (if fwd then 0 else 1)).
  { induction l as [| x l IH]; intros s s' Hl Hs Hl'; simpl in Hl'.
    - by injection Hl' as <-.
    - apply bind_Some in Hl' as (s1 & Hx & Hl').
      apply (IH s1 s'); [| | done].
      + intros y Hy. apply Hl. by apply list_elem_of_further.
      + apply (Hkeep s x s1); [apply Hl; apply list_elem_of_here | done | done]. }
  destruct fwd; simpl in Hat; revert Hat; apply Hloop; try done;
    simpl; by rewrite lookup_insert_eq.
Qed.

(** Every edge of the analyzer ends in EX and is tagged with the name
    [regMapName] gives to a register number. *)
Lemma analyzer_edges instrs (usage : gmap nat RegisterUsage) fwd stallsOn T
    i fs f :
  detectHazards instrs usage fwd stallsOn = Some T ->
  aForwardings T !! i = Some fs -> f ∈ fs ->
  toStage f = sEX /\ exists n, register f = regMapName n.
Proof.
  intros Hrun. revert i fs f.
  apply (detectHazards_invariant
           (fun T => forall i fs f, aForwardings T !! i = Some fs -> f ∈ fs ->
                       toStage f = sEX /\ exists n, register f = regMapName n)
           instrs usage fwd stallsOn T); [| | done].
  - intros i fs f Hfs Hf.
    apply initialAnalysis_entries in Hfs as ->. by apply elem_of_nil in Hf.
  - intros i j cur prev T1 T2 IH Hpair k fs f Hfs Hf.
    destruct (decide (k = i)) as [-> | Hne].
    + revert Hpair Hfs.
      unfold scanPair, recordRaw, pushForwarding.
      destruct (JS.numEq (rd prev) (Num 0)), (rawHazard cur prev) as [[] ?],
        (isLoad prev), fwd, (i - j =? 1)%nat, (sameDestination cur prev);
        simpl; intros Hpair Hfs; simplify_option_eq;
        rewrite ?lookup_insert_eq in Hfs; simplify_eq;
        try (apply elem_of_app in Hf as [Hf | Hf];
             [| apply list_elem_of_singleton in Hf as ->; simpl; eauto]);
        eapply IH; eauto.
    + destruct (scanPair_frame _ _ _ _ _ _ _ _ Hpair Hne) as (_ & Hfw & _).
      rewrite Hfw in Hfs. by eapply IH.
Qed.

(** ** Hazard analyzer: the pairs in the run *)

(** The producers visited before [j] are nearer to [i] than [j], those
    visited after it are farther. *)
Lemma producers_cut i j :
  j ∈ producers i ->
  exists l1 l2, producers i = l1 ++ j :: l2
                /\ (forall x, x ∈ l1 -> (j < x)%nat)
                /\ (forall x, x ∈ l2 -> x ∈ producers i /\ (x < j)%nat).
Proof.
  destruct i as [| [| [| i]]]; unfold producers; simpl; rewrite ?Nat.sub_0_r;
    intros Hj; set_unfold in Hj.
  - done.
  - destruct Hj as [-> | []]. exists [], []. split_and!; [done | |];
      intros x Hx; set_unfold in Hx; done.
  - destruct Hj as [-> | [-> | []]].
    + exists [], [0%nat]. split_and!; [done | |]; intros x Hx; set_unfold; lia.
    + exists [1%nat], []. split_and!; [done | |]; intros x Hx; set_unfold; lia.
  - destruct Hj as [-> | [-> | [-> | []]]].
    + exists [], [S i; i]. split_and!; [done | |]; intros x Hx; set_unfold; lia.
    + exists [S (S i)], [i]. split_and!; [done | |]; intros x Hx; set_unfold; lia.
    + exists [S (S i); S i], []. split_and!; [done | |];
        intros x Hx; set_unfold; lia.
Qed.

(** The run of the analyzer, cut before and after the body of the pair
    ([i], [j]). *)
Lemma detectHazards_visits instrs (usage : gmap nat RegisterUsage) fwd T
    i j cur prev :
  detectHazards instrs usage fwd true = Some T ->
  (1 <= i < length instrs)%nat ->
  usage !! i = Some cur -> type cur <> J ->
  j ∈ producers i -> usage !! j = Some prev ->
  exists nearer farther T1 Tb Ta T2,
    producers i = nearer ++ j :: farther
    /\ (forall x, x ∈ nearer -> (j < x)%nat)
    /\ (forall x, x ∈ farther -> x ∈ producers i /\ (x < j)%nat)
    /\ entriesAt i T1 = (Some noHazard, Some [], Some 0)
    /\ forEachM (scanInstruction fwd usage)
         (initialAnalysis (length instrs)) (seq 1 (i - 1)) = Some T1
    /\ forEachM (pairBody fwd usage i cur) T1 nearer = Some Tb
    /\ scanPair fwd i j cur prev Tb = Some Ta
    /\ forEachM (pairBody fwd usage i cur) Ta farther = Some T2
    /\ forEachM (scanInstruction fwd usage)
         T2 (seq (S i) (length instrs - 1 - i)) = Some T
    /\ entriesAt i T = entriesAt i T2.
Proof.
  unfold detectHazards. simpl. intros Hrun Hi Hcur Htype Hj Hprev.
  replace (seq 1 (length instrs - 1))
    with (seq 1 (i - 1) ++ i :: seq (S i) (length instrs - 1 - i)) in Hrun.
  2:{ replace (length instrs - 1)%nat with ((i - 1) + S (length instrs - 1 - i))%nat
        at 2 by lia.
      rewrite seq_app. simpl. do 3 f_equal; lia. }
  rewrite forEachM_app in Hrun.
  destruct (forEachM _ _ (seq 1 (i - 1))) as [T1 |] eqn:Hpre; simpl in Hrun; [| done].
  destruct (scanInstruction fwd usage T1 i) as [T2 |] eqn:Hat; simpl in Hrun; [| done].
  destruct (producers_cut i j Hj) as (nearer & farther & Hsplit & Hnear & Hfar).
  unfold scanInstruction in Hat. rewrite Hcur in Hat. simpl in Hat.
  rewrite bool_decide_eq_false_2 in Hat by done.
  rewrite Hsplit, forEachM_app in Hat.
  change (fun T j => prevInst ← usage !! j; scanPair fwd i j cur prevInst T)
    with (pairBody fwd usage i cur) in Hat.
  destruct (forEachM (pairBody fwd usage i cur) T1 nearer) as [Tb |] eqn:Hnearer;
    simpl in Hat; [| done].
  apply bind_Some in Hat as (Ta & Hpair & Hat).
  unfold pairBody in Hpair. rewrite Hprev in Hpair. simpl in Hpair.
  exists nearer, farther, T1, Tb, Ta, T2. split_and!; try done.
  - transitivity (entriesAt i (initialAnalysis (length instrs))).
    + revert Hpre. apply (forEachM_preserves _ (entriesAt i)).
      intros s k s' Hk Hbody. eapply scanInstruction_frame; [done |].
      apply elem_of_seq in Hk. lia.
    + unfold entriesAt.
      destruct (initialAnalysis_lookup (length instrs) i) as (-> & -> & ->);
        [lia | done].
  - revert Hrun. apply (forEachM_preserves _ (entriesAt i)).
    intros s k s' Hk Hbody. eapply scanInstruction_frame; [done |].
    apply elem_of_seq in Hk. lia.
Qed.

(** The edges that the body of a pair adds for [i] come from its
    producer, and there is none without forwarding. *)
Lemma scanPair_new_edges fwd i j cur prev T T' old :
  scanPair fwd i j cur prev T = Some T' ->
  aForwardings T !! i = Some old ->
  exists new, aForwardings T' !! i = Some (old ++ new)
              /\ (forall f, f ∈ new -> from f = j)
              /\ (fwd = false -> new = []).
Proof.
  intros Hpair Hold. revert Hpair.
  unfold scanPair, recordRaw, pushForwarding. rewrite Hold.
  destruct (JS.numEq (rd prev) (Num 0)), (rawHazard cur prev) as [[] ?],
    (isLoad prev), fwd, (i - j =? 1)%nat, (sameDestination cur prev);
    simpl; intros [= <-]; simpl; rewrite ?lookup_insert_eq;
    first [ exists []; rewrite app_nil_r; split_and!; [done | | done];
            intros f Hf; by apply elem_of_nil in Hf
          | eexists [_]; split_and!; [done | | done];
            intros f Hf; apply list_elem_of_singleton in Hf as ->; done ].
Qed.

(** The edges that a part of the inner loop adds for [i] come from the
    producers it visits. *)
Lemma inner_loop_new_edges fwd (usage : gmap nat RegisterUsage) i cur l :
  forall T T' old,
    forEachM (pairBody fwd usage i cur) T l = Some T' ->
    aForwardings T !! i = Some old ->
    exists new, aForwardings T' !! i = Some (old ++ new)
                /\ (forall f, f ∈ new -> from f ∈ l)
                /\ (fwd = false -> new = []).
Proof.
  induction l as [| x l IH]; intros T T' old Hrun Hold; simpl in Hrun.
  - injection Hrun as <-. exists []. rewrite app_nil_r.
    split_and!; [done | | done]. intros f Hf. by apply elem_of_nil in Hf.
  - apply bind_Some in Hrun as (T1 & Hx & Hrun).
    unfold pairBody in Hx. apply bind_Some in Hx as (prev & _ & Hx).
    destruct (scanPair_new_edges _ _ _ _ _ _ _ _ Hx Hold) as (n1 & H1 & Hn1 & Hf1).
    destruct (IH _ _ _ Hrun H1) as (n2 & H2 & Hn2 & Hf2).
    exists (n1 ++ n2). rewrite app_assoc. split_and!; [done | |].
    + intros f Hf. apply elem_of_app in Hf as [Hf | Hf].
      * rewrite (Hn1 f Hf). apply list_elem_of_here.
      * apply list_elem_of_further. by apply Hn2.
    + intros Hfwd. by rewrite (Hf1 Hfwd), (Hf2 Hfwd).
Qed.

(** With forwarding the inner loop leaves the stall entry at 0. *)
Lemma inner_loop_forwarded_stall (usage : gmap nat RegisterUsage) i cur l :
  forall T T',
    forEachM (pairBody true usage i cur) T l = Some T' ->
    aStalls T !! i = Some 0 -> aStalls T' !! i = Some 0.
Proof.
  intros T T' Hrun H0.
  eapply (forEachM_invariant (fun T => aStalls T !! i = Some 0)
            (pairBody true usage i cur) l); [| exact H0 | exact Hrun].
  intros s x s' Hs Hx.
  unfold pairBody in Hx. apply bind_Some in Hx as (prev & _ & Hx).
  revert Hx. unfold scanPair, recordRaw, pushForwarding.
  destruct (JS.numEq (rd prev) (Num 0)), (rawHazard cur prev) as [[] ?],
    (isLoad prev), (i - x =? 1)%nat, (sameDestination cur prev);
    simpl; intros Hx; simplify_option_eq; rewrite ?lookup_insert_eq; done.
Qed.

(** The producers after the pair that write neither the record nor the
    stall entry leave them as the pair's body left them. *)
Lemma inner_loop_kept {V : Type} fwd (usage : gmap nat RegisterUsage) i cur l
    (obs : Analysis -> V) (writes : nat -> RegisterUsage -> bool) :
  (forall j prev T T', writes j prev = false ->
     scanPair fwd i j cur prev T = Some T' -> obs T' = obs T) ->
  (forall x prev, x ∈ l -> usage !! x = Some prev -> writes x prev = false) ->
  forall T T', forEachM (pairBody fwd usage i cur) T l = Some T' -> obs T' = obs T.
Proof.
  intros Hkeep Hl. apply (forEachM_preserves _ obs).
  intros s x s' Hx Hbody. unfold pairBody in Hbody.
  apply bind_Some in Hbody as (prev & Hprev & Hbody).
  eapply Hkeep; [| done]. by eapply Hl.
Qed.

(** C3. A pair that the scan finds, of an instruction [i] and the load
    [j] right before it on which it has a RAW dependence.  The run of
    the analyzer passes through the body of the pair with the entries of
    [i] still the initial ones, and the body writes the record of a
    load-use hazard, the stall entry (0 with forwarding, 1 without) and,
    with forwarding only, the one edge MEM->EX tagged with the load's
    destination.  In the tables the analyzer returns, the stall entry of
    [i] is that one; the edges of [i] are, with forwarding, that edge
    followed by edges from other producers and, without forwarding,
    none; and the record of [i] is the one of the load-use hazard unless
    a farther producer writes a record. *)
Theorem load_use_distance_one (instrs : list string)
    (usage : gmap nat RegisterUsage) (fwd : bool) (T : Analysis)
    (i j : nat) (cur prev : RegisterUsage) :
  detectHazards instrs usage fwd true = Some T ->
  (i < length instrs)%nat ->
  i = S j ->
  usage !! i = Some cur ->
  type cur <> J ->
  usage !! j = Some prev ->
  isLoad prev = true ->
  fst (rawHazard cur prev) = true ->
  let edge := mkForwardingInfo j i sMEM sEX (regMapName (rd prev)) in
  let cycles := if fwd then 0 else 1 in
  let record :=
    mkHazardInfo RAW
      ("Load-use hazard: " +:+ snd (rawHazard cur prev)
       +:+ " depends on lw in instruction " +:+ indexText j)
      fwd cycles in
  (exists Tb Ta,
     visitsPair instrs usage fwd T i j Tb Ta
     /\ entriesAt i Tb = (Some noHazard, Some [], Some 0)
     /\ Ta = mkAnalysis (<[i := record]> (aHazards Tb))
               (if fwd then <[i := [edge]]> (aForwardings Tb)
                else aForwardings Tb)
               (<[i := cycles]> (aStalls Tb)))
  /\ aStalls T !! i = Some cycles
  /\ (exists others,
        aForwardings T !! i = Some (if fwd then edge :: others else [])
        /\ forall f, f ∈ others -> from f <> j)
  /\ ((forall j' prev', j' ∈ producers i -> (j' < j)%nat ->
         usage !! j' = Some prev' -> recordsHazard i j' cur prev' = false) ->
      aHazards T !! i = Some record).
Proof.
  intros Hrun Hi Hij Hcur Htype Hprev Hload Hraw edge cycles record.
  assert (Hj : j ∈ producers i).
  { destruct (producers_nearest i) as (rest & Hp & _); [lia |].
    rewrite Hp. replace (i - 1)%nat with j by lia. apply list_elem_of_here. }
  assert (Hi' : (1 <= i < length instrs)%nat) by lia.
  destruct (detectHazards_visits _ _ _ _ _ _ _ _ Hrun Hi' Hcur Htype Hj Hprev)
    as (nearer & farther & T1 & Tb & Ta & T2 & Hsplit & Hnear & Hfar & HT1
        & Hpre & Hnearer & Hpair & Hfarther & Hpost & Hfinal).
  assert (Hnil : nearer = []).
  { destruct (producers_nearest i) as (rest & Hp & _); [lia |].
    rewrite Hp in Hsplit. destruct nearer as [| x nearer]; [done |].
    injection Hsplit as Hx _. specialize (Hnear x (list_elem_of_here _ _)). lia. }
  subst nearer. simpl in Hnearer. injection Hnearer as <-.
  injection HT1 as Hh1 Hf1 Hs1.
  assert (HTa : Ta = mkAnalysis (<[i := record]> (aHazards T1))
                       (if fwd then <[i := [edge]]> (aForwardings T1)
                        else aForwardings T1)
                       (<[i := cycles]> (aStalls T1))).
  { pose proof (scanPair_load_use fwd i j cur prev T1 [] Hload Hraw Hij Hf1) as H.
    simpl in H. rewrite Hpair in H. injection H as ->.
    unfold record, cycles, edge. by destruct fwd. }
  injection Hfinal as Hh Hf Hs.
  split_and!.
  - exists T1, Ta. split_and!; [| unfold entriesAt; by rewrite Hh1, Hf1, Hs1 | done].
    exists cur, prev, [], farther, T1, T2. by split_and!.
  - apply (load_use_final_stall instrs usage fwd T i cur prev); try done.
    by replace (i - 1)%nat with j by lia.
  - assert (Hedges : aForwardings Ta !! i = Some (if fwd then [edge] else [])).
    { rewrite HTa. simpl. destruct fwd; [by rewrite lookup_insert_eq | done]. }
    destruct (inner_loop_new_edges _ _ _ _ _ _ _ _ Hfarther Hedges)
      as (new & Hnew & Hfrom & Hnone).
    rewrite Hf, Hnew. destruct fwd.
    + exists new. split; [done |].
      intros f Hin Hj'. specialize (Hfrom f Hin). rewrite Hj' in Hfrom.
      destruct (Hfar j Hfrom) as [_ ?]. lia.
    + exists []. rewrite (Hnone eq_refl). split; [done |].
      intros f Hin. by apply elem_of_nil in Hin.
  - intros Hnone. rewrite Hh.
    rewrite (inner_loop_kept fwd usage i cur farther (fun T => aHazards T !! i)
               (fun j prev => recordsHazard i j cur prev)) with (T := Ta) (T' := T2);
      [| | | done].
    + rewrite HTa. simpl. by rewrite lookup_insert_eq.
    + intros ???? Hn Hp. by rewrite (scanPair_hazard_kept _ _ _ _ _ _ _ Hn Hp).
    + intros x p Hx Hp. destruct (Hfar x Hx) as [Hin Hlt]. by eapply Hnone.
Qed.

(** C2. A pair that the scan finds, of an instruction [i] and a producer
    [j] that is not a load, at distance [d] of 1 or 2, on which [i] has a
    RAW dependence.  The run of the analyzer passes through the body of
    the pair, and the body writes the record of the hazard and, with
    forwarding, appends one edge to EX, from EX when [d = 1] and from MEM
    when [d = 2], tagged with the producer's destination, to edges that
    other producers gave, the stall entry staying the 0 it was; without
    forwarding it writes the stall entry, 2 when [d = 1] and 1 when
    [d = 2], and there is no edge.  In the tables the analyzer returns:
    with forwarding the stall entry of [i] is 0 and among the edges of
    [i] exactly that one comes from [j]; without forwarding [i] has no
    edge, and its stall entry is the pair's unless a farther producer
    writes the entry; the record of [i] is the pair's unless a farther
    producer writes a record. *)
Theorem general_raw_pair (instrs : list string)
    (usage : gmap nat RegisterUsage) (fwd : bool) (T : Analysis)
    (i j d : nat) (cur prev : RegisterUsage) :
  detectHazards instrs usage fwd true = Some T ->
  (i < length instrs)%nat ->
  (i = j + d)%nat ->
  d = 1%nat \/ d = 2%nat ->
  usage !! i = Some cur ->
  type cur <> J ->
  usage !! j = Some prev ->
  isLoad prev = false ->
  fst (rawHazard cur prev) = true ->
  let edge :=
    mkForwardingInfo j i (if bool_decide (d = 1%nat) then sEX else sMEM) sEX
      (regMapName (rd prev)) in
  let cycles := if fwd then 0 else if bool_decide (d = 1%nat) then 2 else 1 in
  let record :=
    mkHazardInfo RAW
      ("RAW hazard: " +:+ snd (rawHazard cur prev)
       +:+ " depends on instruction " +:+ indexText j
       +:+ (if fwd then " (forwarded)" else " (no forwarding)"))
      fwd cycles in
  (exists Tb Ta edges,
     visitsPair instrs usage fwd T i j Tb Ta
     /\ aForwardings Tb !! i = Some edges
     /\ (forall f, f ∈ edges -> from f <> j)
     /\ (if fwd then aStalls Tb !! i = Some 0 else edges = [])
     /\ Ta = mkAnalysis (<[i := record]> (aHazards Tb))
               (if fwd then <[i := edges ++ [edge]]> (aForwardings Tb)
                else aForwardings Tb)
               (if fwd then aStalls Tb else <[i := cycles]> (aStalls Tb)))
  /\ (exists before after,
        aForwardings T !! i
        = Some (if fwd then before ++ edge :: after else [])
        /\ forall f, f ∈ before ++ after -> from f <> j)
  /\ (if fwd then aStalls T !! i = Some 0
      else (forall j' prev', j' ∈ producers i -> (j' < j)%nat ->
              usage !! j' = Some prev' ->
              recordsStall false i j' cur prev' = false) ->
           aStalls T !! i = Some cycles)
  /\ ((forall j' prev', j' ∈ producers i -> (j' < j)%nat ->
         usage !! j' = Some prev' -> recordsHazard i j' cur prev' = false) ->
      aHazards T !! i = Some record).
Proof.
  intros Hrun Hi Hij Hd Hcur Htype Hprev Hload Hraw edge cycles record.
  assert (Hj : j ∈ producers i).
  { apply list_elem_of_In. unfold producers. apply in_map_iff.
    exists d. split; [lia |]. apply filter_In.
    split; [destruct Hd as [-> | ->]; simpl; tauto | apply Nat.leb_le; lia]. }
  assert (Hi' : (1 <= i < length instrs)%nat) by lia.
  destruct (detectHazards_visits _ _ _ _ _ _ _ _ Hrun Hi' Hcur Htype Hj Hprev)
    as (nearer & farther & T1 & Tb & Ta & T2 & Hsplit & Hnear & Hfar & HT1
        & Hpre & Hnearer & Hpair & Hfarther & Hpost & Hfinal).
  injection HT1 as Hh1 Hf1 Hs1.
  destruct (inner_loop_new_edges _ _ _ _ _ _ _ _ Hnearer Hf1)
    as (edges & Hedges & Hfrom & Hnone).
  simpl in Hedges.
  assert (Hother : forall f, f ∈ edges -> from f <> j).
  { intros f Hin Hj'. specialize (Hfrom f Hin). rewrite Hj' in Hfrom.
    specialize (Hnear j Hfrom). lia. }
  assert (HTa : Ta = mkAnalysis (<[i := record]> (aHazards Tb))
                       (if fwd then <[i := edges ++ [edge]]> (aForwardings Tb)
                        else aForwardings Tb)
                       (if fwd then aStalls Tb else <[i := cycles]> (aStalls Tb))).
  { pose proof (scanPair_general_raw fwd i j d cur prev Tb edges
                  Hload Hraw Hij Hd Hedges) as H.
    simpl in H. rewrite Hpair in H. injection H as ->.
    unfold record, cycles, edge. rewrite !string_app_assoc. by destruct fwd. }
  injection Hfinal as Hh Hf Hs.
  split_and!.
  - exists Tb, Ta, edges. split_and!; try done.
    + exists cur, prev, nearer, farther, T1, T2. by split_and!.
    + destruct fwd; [| by apply Hnone].
      by apply (inner_loop_forwarded_stall usage i cur nearer T1 Tb).
  - assert (Hedges' : aForwardings Ta !! i
                      = Some (if fwd then edges ++ [edge] else edges)).
    { rewrite HTa. simpl. destruct fwd; [by rewrite lookup_insert_eq | done]. }
    destruct (inner_loop_new_edges _ _ _ _ _ _ _ _ Hfarther Hedges')
      as (new & Hnew & Hfrom' & Hnone').
    rewrite Hf, Hnew. destruct fwd.
    + exists edges, new. split; [by rewrite <- app_assoc |].
      intros f Hin. apply elem_of_app in Hin as [Hin | Hin]; [by apply Hother |].
      intros Hj'. specialize (Hfrom' f Hin). rewrite Hj' in Hfrom'.
      destruct (Hfar j Hfrom') as [_ ?]. lia.
    + exists [], []. rewrite (Hnone eq_refl), (Hnone' eq_refl). split; [done |].
      intros f Hin. by apply elem_of_nil in Hin.
  - destruct fwd.
    + rewrite Hs.
      apply (inner_loop_forwarded_stall usage i cur farther Ta T2); [done |].
      rewrite HTa. simpl.
      by apply (inner_loop_forwarded_stall usage i cur nearer T1 Tb).
    + intros Hnostall. rewrite Hs.
      rewrite (inner_loop_kept false usage i cur farther (fun T => aStalls T !! i)
                 (fun j prev => recordsStall false i j cur prev))
        with (T := Ta) (T' := T2); [| | | done].
      * rewrite HTa. simpl. by rewrite lookup_insert_eq.
      * intros ???? Hn Hp. by rewrite (scanPair_stall_kept _ _ _ _ _ _ _ Hn Hp).
      * intros x p Hx Hp. destruct (Hfar x Hx) as [Hin Hlt]. by eapply Hnostall.
  - intros Hnorec. rewrite Hh.
    rewrite (inner_loop_kept fwd usage i cur farther (fun T => aHazards T !! i)
               (fun j prev => recordsHazard i j cur prev)) with (T := Ta) (T' := T2);
      [| | | done].
    + rewrite HTa. simpl. by rewrite lookup_insert_eq.
    + intros ???? Hn Hp. by rewrite (scanPair_hazard_kept _ _ _ _ _ _ _ Hn Hp).
    + intros x p Hx Hp. destruct (Hfar x Hx) as [Hin Hlt]. by eapply Hnorec.
Qed.

(** ** Execution unit *)

(** The last statement of the call: [registers["$zero"] = 0]. *)
Lemma executeMIPSInstruction_zero decoder hex regs mem pc stage fs cycle
    regs' mem' newPC :
  executeMIPSInstruction decoder hex regs mem pc stage fs cycle
  = Some (regs', mem', newPC) ->
  regs' !! "$zero" = Some (Num 0).
Proof.
  unfold executeMIPSInstruction, executeText.
  destruct (Str.splitOn _ _) as [op operands].
  intros H. apply bind_Some in H as ([[r m] n] & _ & H).
  injection H as <- <- <-. by rewrite lookup_insert_eq.
Qed.

(** C8. A load or store at the memory stage whose operand reads
    [offset($base)] and whose address [(base + offset) >>> 0], the
    unsigned 32 bits of the double that the sum is, is outside the 32
    words returns without a fault, with the memory as it was, no
    program counter, and a register file that differs from the old one at
    most by the 0 put back in [$zero]. *)
Theorem out_of_range_access_skipped (decoder : string -> string)
    (hex : string) (regs : gmap string jsnum) (mem : gmap Z jsval)
    (pc : jsnum) (fs : list ForwardingInfo) (cycle : Z)
    (op rt operand offsetStr baseReg : string) (rest : list string) (o : Op.t) :
  Str.splitOn " " (Str.removeAll "," (decoder hex)) = (op, rt :: operand :: rest) ->
  Op.ofString op = Some o ->
  o ∈ [Op.lw; Op.sw; Op.lbu; Op.lhu; Op.ll; Op.sb; Op.sh; Op.sc] ->
  Str.matchOffsetBase operand = Some (offsetStr, baseReg) ->
  32 <= effectiveAddress regs sMEM fs offsetStr baseReg ->
  executeMIPSInstruction decoder hex regs mem pc sMEM fs cycle
  = Some (<["$zero" := Num 0]> regs, mem, None)
  /\ (regs !! "$zero" = Some (Num 0) -> <["$zero" := Num 0]> regs = regs).
Proof.
  intros Hsplit Hop Ho Hmatch Haddr.
  split; [| apply insert_id].
  unfold executeMIPSInstruction, executeText. rewrite Hsplit, Hop.
  assert (Hrej : addressRejected o (effectiveAddress regs sMEM fs offsetStr baseReg) = true).
  { unfold addressRejected.
    destruct o; apply orb_true_iff; right;
      first [apply Z.leb_le | apply Z.ltb_lt]; lia. }
  assert (Hacc : memoryAccess regs mem sMEM fs o (rt :: operand :: rest)
                 = Some (regs, mem, None)).
  { unfold memoryAccess. simpl. rewrite Hmatch. by rewrite Hrej. }
  set_unfold in Ho.
  destruct Ho as [-> | [-> | [-> | [-> | [-> | [-> | [-> | [-> | []]]]]]]]];
    simpl; by rewrite Hacc.
Qed.

(** Without a matching edge the operand is the value the caller read. *)
Lemma operandValue_unmatched regs stage (fs : list ForwardingInfo) text key :
  (forall f, f ∈ fs -> toStage f = stage ->
     register f <> getRegName (Str.parseInt (stripDollar text))) ->
  operandValue regs stage fs text key = readRegister regs key.
Proof.
  unfold operandValue, getForwardedValue. intros H.
  induction fs as [| f fs IH]; simpl; [done |].
  destruct (bool_decide (register f = _)) eqn:E1;
    destruct (bool_decide (toStage f = stage)) eqn:E2; simpl;
    try (apply IH; intros g Hg; apply H; by apply list_elem_of_further).
  apply bool_decide_eq_true in E1, E2.
  exfalso. eapply H; [apply list_elem_of_here | done | done].
Qed.

(** A call whose operands meet no edge is the call without edges. *)
Lemma executeText_unmatched regs mem pc stage (fs : list ForwardingInfo) text :
  (forall x f, x ∈ forwardedOperands stage text -> f ∈ fs ->
     toStage f = stage ->
     register f <> getRegName (Str.parseInt (stripDollar x))) ->
  executeText regs mem pc stage fs text = executeText regs mem pc stage [] text.
Proof.
  unfold executeText, forwardedOperands.
  destruct (Str.splitOn _ _) as [op operands]. intros H.
  assert (Hfetch : forall x key,
            x ∈ forwardedOperandsOf stage (Op.ofString op) operands ->
            operandValue regs stage fs x key = readRegister regs key).
  { intros x key Hx. apply operandValue_unmatched. intros f Hf Hs. by eapply H. }
  clear H. f_equal. unfold forwardedOperandsOf in Hfetch.
  destruct stage; try done.
  - destruct (Op.ofString op) as [[] |]; try done; simpl in *;
      unfold threeRegisters, registerImmediate, branch;
      destruct operands as [| a [| b [| c rest]]]; simpl in *; try done;
      rewrite ?Hfetch by set_solver; done.
  - destruct (Op.ofString op) as [[] |]; try done; simpl in *;
      unfold memoryAccess, effectiveAddress;
      destruct operands as [| a [| b rest]]; simpl in *; try done;
      destruct (Str.matchOffsetBase b) as [[off base] |]; try done;
      rewrite ?Hfetch by set_solver; done.
Qed.

(** The edges that change nothing.  The call gives the same registers,
    memory and program counter with an edge list as with none when no
    edge that ends in the current stage is tagged with the name under
    which [getForwardedValue] looks up one of the call's operands, which
    is [getRegName] of the number [parseInt] reads in the operand's
    text. *)
Lemma forwarding_without_matching_edge (decoder : string -> string)
    (hex : string) (regs : gmap string jsnum) (mem : gmap Z jsval)
    (pc : jsnum) (stage : StageName) (fs : list ForwardingInfo) (cycle : Z) :
  (forall x f, x ∈ forwardedOperands stage (decoder hex) -> f ∈ fs ->
     toStage f = stage ->
     register f <> getRegName (Str.parseInt (stripDollar x))) ->
  executeMIPSInstruction decoder hex regs mem pc stage fs cycle
  = executeMIPSInstruction decoder hex regs mem pc stage [] cycle.
Proof. apply executeText_unmatched. Qed.

(** No register has the name [rNaN]: an edge tagged by [regMapName], as
    the analyzer tags them, is never the one looked for on behalf of an
    operand in which [parseInt] reads no number. *)
Lemma regMapName_not_rNaN n : regMapName n <> getRegName NaN.
Proof.
  assert (Hnames : map_Forall (fun _ v => v <> "rNaN") regMap).
  { apply map_Forall_to_list. vm_compute.
    repeat (constructor; [discriminate |]). constructor. }
  unfold regMapName. change (getRegName NaN) with ("$" +:+ "rNaN").
  intros H. apply (inj (String.append "$")) in H.
  destruct (regMap !! JS.numToString n) as [v |] eqn:E; simpl in H.
  - by apply (Hnames _ _ E).
  - discriminate.
Qed.

(** In the simulator's own use, with the operands written by name and
    the edges of the analyzer, forwarding changes nothing. *)
Lemma forwarding_inert_for_named_operands decoder hex regs mem pc stage
    (fs : list ForwardingInfo) cycle :
  (forall x, x ∈ forwardedOperands stage (decoder hex) ->
     Str.parseInt (stripDollar x) = NaN) ->
  (forall f, f ∈ fs -> exists n, register f = regMapName n) ->
  executeMIPSInstruction decoder hex regs mem pc stage fs cycle
  = executeMIPSInstruction decoder hex regs mem pc stage [] cycle.
Proof.
  intros Hnamed Hedges. apply executeText_unmatched.
  intros x f Hx Hf _. rewrite (Hnamed x Hx).
  destruct (Hedges f Hf) as [n ->]. apply regMapName_not_rNaN.
Qed.

(** ** Stage scheduler *)

Lemma pending_stall_tick_aux decoder st :
  isRunning st = true -> isFinished st = false -> 0 < currentStallCycles st ->
  calculateNextState decoder st = Some (stalledState st)
  /\ isFinished (stalledState st) = isFinished st.
Proof.
  intros Hrun Hfin Hstall. unfold calculateNextState. rewrite Hrun, Hfin. simpl.
  apply Z.ltb_lt in Hstall. by rewrite Hstall.
Qed.

(** C5. A tick of a running, unfinished state with a pending stall takes
    one from the stall counter, adds one to the cycle and changes nothing
    else: not the stage of any instruction, nor the instructions, the
    registers, the memory, the program counter, the tables or the
    toggles. *)
Theorem pending_stall_tick (decoder : string -> string) (st : SimulationState) :
  isRunning st = true ->
  isFinished st = false ->
  0 < currentStallCycles st ->
  exists st',
    calculateNextState decoder st = Some st'
    /\ currentStallCycles st' = currentStallCycles st - 1
    /\ currentCycle st' = currentCycle st + 1
    /\ instructionStages st' = instructionStages st
    /\ instructions st' = instructions st
    /\ registers st' = registers st
    /\ memory st' = memory st
    /\ PC st' = PC st
    /\ registerUsage st' = registerUsage st
    /\ hazards st' = hazards st
    /\ forwardings st' = forwardings st
    /\ stalls st' = stalls st
    /\ forwardingEnabled st' = forwardingEnabled st
    /\ stallsEnabled st' = stallsEnabled st
    /\ isRunning st' = true
    /\ isFinished st' = false
    /\ maxCycles st' = maxCycles st
    /\ stageCount st' = stageCount st.
Proof.
  intros Hrun Hfin Hstall. exists (stalledState st).
  destruct (pending_stall_tick_aux decoder st Hrun Hfin Hstall) as [-> _].
  by split_and!.
Qed.

Lemma performAll_reachable decoder actions st st' :
  reachable decoder st -> performAll decoder actions st = Some st' ->
  reachable decoder st'.
Proof.
  revert st. induction actions as [| a rest IH]; intros st Hst Hrun; simpl in Hrun.
  - by injection Hrun as <-.
  - destruct (perform decoder a st) as [st1 |] eqn:E; simpl in Hrun; [| done].
    eapply IH; [| done]. by eapply reachable_perform.
Qed.

(** A tick without pending stall: the three ways it ends. *)
Lemma calculateNextState_cases decoder st st' :
  isRunning st = true -> isFinished st = false ->
  ~ 0 < currentStallCycles st ->
  calculateNextState decoder st = Some st' ->
  exists t,
    forEachM (visitInstruction decoder st (currentCycle st + 1))
      (mkTick ∅ (currentStallCycles st) (registers st) (memory st) (PC st))
      (indexed (instructions st)) = Some t
    /\ isFinished st' = (completionCycle st <? currentCycle st + 1)
    /\ isRunning st' = negb (isFinished st')
    /\ stageCount st' = stageCount st
    /\ stalls st' = stalls st
    /\ (isFinished st' = true ->
        instructions st' = instructions st
        /\ currentCycle st' = completionCycle st).
Proof.
  intros Hrun Hfin Hstall. unfold calculateNextState.
  rewrite Hrun, Hfin. simpl.
  destruct (0 <? currentStallCycles st) eqn:E; [apply Z.ltb_lt in E; lia |].
  intros H. apply bind_Some in H as (t & Ht & H). exists t. split; [done |].
  destruct (completionCycle st <? currentCycle st + 1) eqn:Ec; simpl in H.
  - injection H as <-. simpl. by split_and!.
  - destruct (numNe (newPC t) (PC st)); injection H as <-; simpl; by split_and!.
Qed.

Lemma completionCycle_ext st st' :
  instructions st' = instructions st -> stageCount st' = stageCount st ->
  stalls st' = stalls st -> completionCycle st' = completionCycle st.
Proof. unfold completionCycle. by intros -> -> ->. Qed.

Lemma perform_finishedAtCompletion decoder a st st' :
  finishedAtCompletion st -> perform decoder a st = Some st' ->
  finishedAtCompletion st'.
Proof.
  intros IH Hp. destruct a; simpl in Hp.
  - (* Start *)
    unfold startSimulation in Hp.
    destruct submittedInstructions; [by injection Hp as <- |].
    apply bind_Some in Hp as (T & _ & Hp). by injection Hp as <-.
  - (* Clock *)
    destruct (isRunning st) eqn:Hrun; cycle 1.
    { unfold calculateNextState in Hp. rewrite Hrun in Hp. by injection Hp as <-. }
    destruct (isFinished st) eqn:Hfin.
    { unfold calculateNextState in Hp. rewrite Hrun, Hfin in Hp. by injection Hp as <-. }
    destruct (decide (0 < currentStallCycles st)) as [Hs | Hs].
    + destruct (pending_stall_tick_aux decoder st Hrun Hfin Hs) as [E F].
      rewrite E in Hp. injection Hp as <-. intros Hf. simpl in Hf. congruence.
    + destruct (calculateNextState_cases _ _ _ Hrun Hfin Hs Hp)
        as (t & _ & Hf & Hr & Hsc & Hst & Hfinal).
      intros Hfin'. destruct (Hfinal Hfin') as [Hi Hc]. split.
      * rewrite Hc. symmetry. by apply completionCycle_ext.
      * by rewrite Hr, Hfin'.
  - (* Pause *)
    unfold pauseSimulation in Hp. injection Hp as <-.
    destruct (isRunning st) eqn:Hrun; [| done].
    intros Hf. simpl in *. destruct (IH Hf). congruence.
  - (* Resume *)
    unfold resumeSimulation in Hp. injection Hp as <-.
    unfold finishedAtCompletion in *.
    destruct (isRunning st) eqn:Hrun, (0 <? currentCycle st), (isFinished st) eqn:Hfin;
      simpl; rewrite ?Hrun, ?Hfin; auto; congruence.
  - (* SetForwarding *) injection Hp as <-. done.
  - (* SetStalls *) injection Hp as <-. done.
  - (* Reset *) injection Hp as <-. done.
Qed.

(** The registers of a tick keep 0 in [$zero]: the calls put it there and
    nothing else writes the registers. *)
Lemma visitInstruction_zero decoder st nextCycle t entry t' :
  newRegisters t !! "$zero" = Some (Num 0) ->
  visitInstruction decoder st nextCycle t entry = Some t' ->
  newRegisters t' !! "$zero" = Some (Num 0).
Proof.
  intros Hz. unfold visitInstruction. destruct entry as [index inst].
  destruct ((0 <=? _) && (_ <? stageCount st)); [| by intros [= <-]].
  repeat match goal with
         | |- context [if ?b then _ else _] => destruct b
         end;
    intros H; try (by injection H as <-);
    apply bind_Some in H as ([[r m] pc'] & Hcall & H); injection H as <-; simpl;
    by eapply executeMIPSInstruction_zero.
Qed.

Lemma perform_zero decoder a st st' :
  registers st !! "$zero" = Some (Num 0) ->
  perform decoder a st = Some st' ->
  registers st' !! "$zero" = Some (Num 0).
Proof.
  intros Hz Hp. destruct a; simpl in Hp; try (by injection Hp as <-).
  - unfold startSimulation in Hp.
    destruct submittedInstructions; [by injection Hp as <- |].
    apply bind_Some in Hp as (T & _ & Hp). by injection Hp as <-.
  - unfold calculateNextState in Hp.
    destruct (negb (isRunning st) || isFinished st); [by injection Hp as <- |].
    destruct (0 <? currentStallCycles st); [by injection Hp as <- |].
    apply bind_Some in Hp as (t & Ht & Hp).
    assert (newRegisters t !! "$zero" = Some (Num 0)).
    { revert Ht. apply (forEachM_invariant
                          (fun t => newRegisters t !! "$zero" = Some (Num 0))); [| done].
      intros s e s'. apply visitInstruction_zero. }
    destruct (negb _ && numNe _ _); by injection Hp as <-.
  - unfold pauseSimulation in Hp. destruct (isRunning st); by injection Hp as <-.
  - unfold resumeSimulation in Hp.
    destruct (negb (isRunning st) && _ && _); by injection Hp as <-.
Qed.

(** C7. Whatever the stage, the register file, the memory and the edges,
    a call that returns leaves 0 in [$zero]; and in every state the
    simulation reaches, at every tick, [$zero] reads 0. *)
Theorem zero_register_after_call (decoder : string -> string)
    (hex : string) (regs : gmap string jsnum) (mem : gmap Z jsval)
    (pc : jsnum) (stage : StageName) (fs : list ForwardingInfo) (cycle : Z)
    (regs' : gmap string jsnum) (mem' : gmap Z jsval) (newPC : option jsnum)
    (st : SimulationState) :
  (executeMIPSInstruction decoder hex regs mem pc stage fs cycle
   = Some (regs', mem', newPC) ->
   readRegister regs' "$zero" = Number (Num 0))
  /\ (reachable decoder st ->
      readRegister (registers st) "$zero" = Number (Num 0)).
Proof.
  unfold readRegister. split.
  - intros H. by rewrite (executeMIPSInstruction_zero _ _ _ _ _ _ _ _ _ _ _ H).
  - intros Hreach.
    enough (registers st !! "$zero" = Some (Num 0)) as -> by done.
    induction Hreach as [| a st st' _ IH Hp]; [by vm_compute |].
    by eapply perform_zero.
Qed.

(** C1, as the code has it.  In every reachable state the finished flag
    implies that the cycle equals [completionCycle] (the tick that
    finishes stores [completionCycle], not the next cycle) and that the
    state is not running; and a tick of a running, unfinished state
    without pending stall sets finished exactly when the next cycle
    exceeds [completionCycle], and running to its negation. *)
Theorem finished_at_completion_cycle (decoder : string -> string)
    (st : SimulationState) :
  reachable decoder st ->
  (isFinished st = true ->
   currentCycle st = completionCycle st /\ isRunning st = false)
  /\ (forall st',
        isRunning st = true -> isFinished st = false ->
        ~ 0 < currentStallCycles st ->
        calculateNextState decoder st = Some st' ->
        (isFinished st' = true <-> completionCycle st < currentCycle st + 1)
        /\ isRunning st' = negb (isFinished st')
        /\ (isFinished st' = true -> currentCycle st' = completionCycle st)).
Proof.
  intros Hreach. split.
  - induction Hreach as [| a st st' _ IH Hp]; [done |].
    by apply (perform_finishedAtCompletion decoder a st st').
  - intros st' Hrun Hfin Hstall Hstep.
    destruct (calculateNextState_cases _ _ _ Hrun Hfin Hstall Hstep)
      as (t & _ & Hf & Hr & _ & _ & Hfinal).
    split_and!; [| done | by intros H; apply Hfinal].
    rewrite Hf. apply Z.ltb_lt.
Qed.

(** The stage map of a redirection, one instruction more. *)
Lemma redirectedStages_S st nextCycle newPC n :
  redirectedStages st nextCycle newPC (S n)
  = <[JS.add (Num (Z.of_nat n)) newPC :=
        stageOrNull (stageCount st)
          (nextCycle - Z.of_nat n - 1
           - calculatePrecedingStalls (stalls st) (JS.add (Num (Z.of_nat n)) newPC))]>
      (redirectedStages st nextCycle newPC n).
Proof. unfold redirectedStages. by rewrite seq_S, fold_left_app. Qed.

Lemma window_spec (p z n : Z) :
  (p <=? z) && (z <? p + n) = true <-> p <= z < p + n.
Proof. rewrite andb_true_iff, Z.leb_le, Z.ltb_lt. done. Qed.

(** With a program counter [p] that is a position, and an array of
    fewer than 2^53 instructions, the sums [k + p] are exact: the
    entries of a redirection are those of the keys [k + p], one per
    remaining instruction. *)
Lemma redirectedStages_lookup st nextCycle p n key :
  0 <= p -> ((0 < n)%nat -> p + Z.of_nat n <= 2 ^ 53) ->
  redirectedStages st nextCycle (Num p) n !! key
  = match key with
    | Num z =>
        if (p <=? z) && (z <? p + Z.of_nat n)
        then Some (stageOrNull (stageCount st)
                     (nextCycle - (z - p) - 1
                      - calculatePrecedingStalls (stalls st) (Num z)))
        else None
    | NaN => None
    end.
Proof.
  intros Hp. induction n as [| n IH]; intros Hn.
  - unfold redirectedStages. simpl. rewrite lookup_empty.
    destruct key as [| z]; [done |].
    destruct ((p <=? z) && (z <? p + Z.of_nat 0)) eqn:E; [| done].
    apply window_spec in E. lia.
  - rewrite redirectedStages_S.
    assert (Hkey : JS.add (Num (Z.of_nat n)) (Num p) = Num (Z.of_nat n + p)).
    { unfold JS.add. f_equal. apply toDouble_exact. lia. }
    rewrite Hkey.
    destruct (decide (key = Num (Z.of_nat n + p))) as [-> | Hne].
    + rewrite lookup_insert_eq.
      rewrite (proj2 (window_spec p (Z.of_nat n + p) (Z.of_nat (S n)))) by lia.
      do 3 f_equal. lia.
    + rewrite lookup_insert_ne by done. rewrite IH by lia.
      destruct key as [| z]; [done |].
      assert (z <> Z.of_nat n + p) by congruence.
      destruct ((p <=? z) && (z <? p + Z.of_nat n)) eqn:E1,
               ((p <=? z) && (z <? p + Z.of_nat (S n))) eqn:E2; try done.
      * apply window_spec in E1. apply not_true_iff_false in E2.
        exfalso. apply E2. apply window_spec. lia.
      * apply window_spec in E2. apply not_true_iff_false in E1.
        exfalso. apply E1. apply window_spec. lia.
Qed.

(** C6, as the code has it.  A tick whose loop ends with a program counter [p]
    different from the state's, [p] being a position (a number that is
    not negative), in a state that does not finish at this tick: the
    instructions are the old ones truncated to start at [p], and the
    stage map has one entry per remaining instruction [k], under the key
    [k + p], computed from the new position [k] and the stalls that the
    table, which stays as it is, has before [k + p].  (An array of
    JavaScript has fewer than 2^32 elements.) *)
Theorem branch_redirection (decoder : string -> string)
    (st : SimulationState) (t : Tick) (p : Z) :
  Z.of_nat (length (instructions st)) < 2 ^ 32 ->
  isRunning st = true ->
  isFinished st = false ->
  ~ 0 < currentStallCycles st ->
  forEachM (visitInstruction decoder st (currentCycle st + 1))
    (mkTick ∅ (currentStallCycles st) (registers st) (memory st) (PC st))
    (indexed (instructions st)) = Some t ->
  newPC t = Num p ->
  0 <= p ->
  numNe (Num p) (PC st) = true ->
  ~ completionCycle st < currentCycle st + 1 ->
  exists st',
    calculateNextState decoder st = Some st'
    /\ truncatedAt (PC st') (instructions st) (instructions st')
    /\ instructions st' = drop (Z.to_nat p) (instructions st)
    /\ PC st' = Num p
    /\ currentCycle st' = currentCycle st + 1
    /\ stalls st' = stalls st
    /\ (forall k : nat, (k < length (instructions st'))%nat ->
          instructionStages st' !! Num (Z.of_nat k + p)
          = Some (stageOrNull (stageCount st)
                    (currentCycle st + 1 - Z.of_nat k - 1
                     - calculatePrecedingStalls (stalls st) (Num (Z.of_nat k + p)))))
    /\ (forall key, is_Some (instructionStages st' !! key) ->
          exists k : nat, (k < length (instructions st'))%nat
                          /\ key = Num (Z.of_nat k + p)).
Proof.
  intros Hlen Hrun Hfin Hstall Ht Hpc Hp Hne Hnotfin.
  unfold calculateNextState. rewrite Hrun, Hfin. simpl.
  destruct (0 <? currentStallCycles st) eqn:E; [apply Z.ltb_lt in E; lia |].
  rewrite Ht. simpl. rewrite Hpc, Hne.
  destruct (completionCycle st <? currentCycle st + 1) eqn:Ec;
    [apply Z.ltb_lt in Ec; lia |].
  simpl. eexists. split; [done |]. simpl.
  assert (En : (p <? 0) = false) by (apply Z.ltb_ge; lia).
  rewrite !En.
  assert (Hwindow : (0 < length (drop (Z.to_nat p) (instructions st)))%nat ->
                    p + Z.of_nat (length (drop (Z.to_nat p) (instructions st)))
                    <= 2 ^ 53).
  { rewrite length_drop. lia. }
  split_and!; try done.
  - exists (Z.to_nat p). split; [f_equal; lia | done].
  - intros k Hk. rewrite redirectedStages_lookup by done.
    rewrite (proj2 (window_spec _ _ _)) by lia.
    do 3 f_equal. lia.
  - intros key [v Hv]. rewrite redirectedStages_lookup in Hv by done.
    destruct key as [| z]; [done |].
    destruct ((p <=? z) && (z <? p + _)) eqn:Er; [| done].
    apply window_spec in Er.
    exists (Z.to_nat (z - p)). split; [lia | f_equal; lia].
Qed.

(** ** Examples *)

Lemma stateAfter_reachable actions :
  is_Some (performAll sampleDecoder actions initialState) ->
  reachable sampleDecoder (stateAfter actions).
Proof.
  intros [st Hst]. unfold stateAfter. rewrite Hst. simpl.
  eapply performAll_reachable; [apply reachable_initial | done].
Qed.

(** [add $t2, $t0, $t1] right after [lw $t1, 4($t0)], analysed with
    forwarding and without. *)
Lemma load_use_distance_one_witness :
  let edge := mkForwardingInfo 0 1 sMEM sEX (regMapName (rd lwT1)) in
  let text :=
    "Load-use hazard: " +:+ snd (rawHazard addT2 lwT1)
    +:+ " depends on lw in instruction " +:+ indexText 0 in
  ((exists Tb Ta,
      visitsPair loadUseProgram loadUseUsage true loadUseForwarded 1 0 Tb Ta
      /\ entriesAt 1 Tb = (Some noHazard, Some [], Some 0)
      /\ Ta = mkAnalysis (<[1%nat := mkHazardInfo RAW text true 0]> (aHazards Tb))
                (<[1%nat := [edge]]> (aForwardings Tb))
                (<[1%nat := 0]> (aStalls Tb)))
   /\ aStalls loadUseForwarded !! 1%nat = Some 0
   /\ (exists others,
         aForwardings loadUseForwarded !! 1%nat = Some (edge :: others)
         /\ forall f, f ∈ others -> from f <> 0%nat)
   /\ ((forall j' prev', j' ∈ producers 1 -> (j' < 0)%nat ->
          loadUseUsage !! j' = Some prev' ->
          recordsHazard 1 j' addT2 prev' = false) ->
       aHazards loadUseForwarded !! 1%nat = Some (mkHazardInfo RAW text true 0)))
  /\ ((exists Tb Ta,
         visitsPair loadUseProgram loadUseUsage false loadUseAnalysis 1 0 Tb Ta
         /\ entriesAt 1 Tb = (Some noHazard, Some [], Some 0)
         /\ Ta = mkAnalysis (<[1%nat := mkHazardInfo RAW text false 1]> (aHazards Tb))
                   (aForwardings Tb)
                   (<[1%nat := 1]> (aStalls Tb)))
      /\ aStalls loadUseAnalysis !! 1%nat = Some 1
      /\ (exists others : list ForwardingInfo,
            aForwardings loadUseAnalysis !! 1%nat = Some []
            /\ forall f, f ∈ others -> from f <> 0%nat)
      /\ ((forall j' prev', j' ∈ producers 1 -> (j' < 0)%nat ->
             loadUseUsage !! j' = Some prev' ->
             recordsHazard 1 j' addT2 prev' = false) ->
          aHazards loadUseAnalysis !! 1%nat
          = Some (mkHazardInfo RAW text false 1))).
Proof.
  split.
  - apply (load_use_distance_one loadUseProgram loadUseUsage true
             loadUseForwarded 1 0 addT2 lwT1);
      first [ reflexivity | vm_compute; reflexivity | vm_compute; lia
            | vm_compute; discriminate ].
  - apply (load_use_distance_one loadUseProgram loadUseUsage false
             loadUseAnalysis 1 0 addT2 lwT1);
      first [ reflexivity | vm_compute; reflexivity | vm_compute; lia
            | vm_compute; discriminate ].
Defined.

(** The entries of the [add] in the two analyses. *)
Example load_use_tables :
  entriesAt 1 loadUseForwarded
  = (Some (mkHazardInfo RAW
             "Load-use hazard: rt($t1) depends on lw in instruction 0" true 0),
     Some [mkForwardingInfo 0 1 sMEM sEX "$t1"], Some 0)
  /\ entriesAt 1 loadUseAnalysis
     = (Some (mkHazardInfo RAW
                "Load-use hazard: rt($t1) depends on lw in instruction 0" false 1),
        Some [], Some 1).
Proof. split; vm_compute; reflexivity. Qed.

(** [add $t2, $t0, $t1] right after [addi $t0, $zero, 5] in
    [exampleProgram], analysed with forwarding, and two places after it
    in [distantProgram], analysed without. *)
Lemma general_raw_pair_witness :
  let text j :=
    "RAW hazard: " +:+ snd (rawHazard addT2 addiT0)
    +:+ " depends on instruction " +:+ indexText j in
  (let edge := mkForwardingInfo 1 2 sEX sEX (regMapName (rd addiT0)) in
   let record := mkHazardInfo RAW (text 1%nat +:+ " (forwarded)") true 0 in
   (exists Tb Ta edges,
      visitsPair exampleProgram exampleUsage true forwardedAnalysis 2 1 Tb Ta
      /\ aForwardings Tb !! 2%nat = Some edges
      /\ (forall f, f ∈ edges -> from f <> 1%nat)
      /\ aStalls Tb !! 2%nat = Some 0
      /\ Ta = mkAnalysis (<[2%nat := record]> (aHazards Tb))
                (<[2%nat := edges ++ [edge]]> (aForwardings Tb))
                (aStalls Tb))
   /\ (exists before after,
         aForwardings forwardedAnalysis !! 2%nat
         = Some (before ++ edge :: after)
         /\ forall f, f ∈ before ++ after -> from f <> 1%nat)
   /\ aStalls forwardedAnalysis !! 2%nat = Some 0
   /\ ((forall j' prev', j' ∈ producers 2 -> (j' < 1)%nat ->
          exampleUsage !! j' = Some prev' ->
          recordsHazard 2 j' addT2 prev' = false) ->
       aHazards forwardedAnalysis !! 2%nat = Some record))
  /\ (let record := mkHazardInfo RAW (text 0%nat +:+ " (no forwarding)") false 1 in
      (exists Tb Ta edges,
         visitsPair distantProgram distantUsage false distantAnalysis 2 0 Tb Ta
         /\ aForwardings Tb !! 2%nat = Some edges
         /\ (forall f, f ∈ edges -> from f <> 0%nat)
         /\ edges = []
         /\ Ta = mkAnalysis (<[2%nat := record]> (aHazards Tb))
                   (aForwardings Tb)
                   (<[2%nat := 1]> (aStalls Tb)))
      /\ (exists before after : list ForwardingInfo,
            aForwardings distantAnalysis !! 2%nat = Some []
            /\ forall f, f ∈ before ++ after -> from f <> 0%nat)
      /\ ((forall j' prev', j' ∈ producers 2 -> (j' < 0)%nat ->
             distantUsage !! j' = Some prev' ->
             recordsStall false 2 j' addT2 prev' = false) ->
          aStalls distantAnalysis !! 2%nat = Some 1)
      /\ ((forall j' prev', j' ∈ producers 2 -> (j' < 0)%nat ->
             distantUsage !! j' = Some prev' ->
             recordsHazard 2 j' addT2 prev' = false) ->
          aHazards distantAnalysis !! 2%nat = Some record)).
Proof.
  split.
  - apply (general_raw_pair exampleProgram exampleUsage true forwardedAnalysis
             2 1 1 addT2 addiT0);
      first [ reflexivity | by left | vm_compute; reflexivity | vm_compute; lia
            | vm_compute; discriminate ].
  - apply (general_raw_pair distantProgram distantUsage false distantAnalysis
             2 0 2 addT2 addiT0);
      first [ reflexivity | by right | vm_compute; reflexivity | vm_compute; lia
            | vm_compute; discriminate ].
Defined.

(** The entries of the [add] in those analyses, and in [exampleProgram]
    without forwarding. *)
Example general_raw_tables :
  entriesAt 2 forwardedAnalysis
  = (Some (mkHazardInfo RAW
             "RAW hazard: rs($t0) depends on instruction 1 (forwarded)" true 0),
     Some [mkForwardingInfo 1 2 sEX sEX "$t0"], Some 0)
  /\ entriesAt 2 exampleAnalysis
     = (Some (mkHazardInfo RAW
                "RAW hazard: rs($t0) depends on instruction 1 (no forwarding)"
                false 2),
        Some [], Some 2)
  /\ entriesAt 2 distantAnalysis
     = (Some (mkHazardInfo RAW
                "RAW hazard: rs($t0) depends on instruction 0 (no forwarding)"
                false 1),
        Some [], Some 1).
Proof. split_and!; vm_compute; reflexivity. Qed.

(** [add $t2, $t0, $t1] two places after [lw $t1, 4($t0)]. *)
Lemma load_beyond_distance_one_witness :
  scanPair true 2 0 addT2 lwT1 (initialAnalysis 3) = Some (initialAnalysis 3)
  /\ scanPair false 2 0 addT2 lwT1 (initialAnalysis 3) = Some (initialAnalysis 3).
Proof.
  split.
  - exact (load_beyond_distance_one true 2 0 addT2 lwT1 (initialAnalysis 3)
             eq_refl eq_refl (or_introl eq_refl)).
  - exact (load_beyond_distance_one false 2 0 addT2 lwT1 (initialAnalysis 3)
             eq_refl eq_refl (or_introl eq_refl)).
Defined.

(** C4 fails as stated.  In [exampleProgram] without forwarding both
    earlier instructions are RAW matches of the [add]; the record and the
    stall entry stored for it are those of the nearest one, the [addi],
    and differ from what the pair with the farthest one, the load, leaves
    (nothing: no hazard, no stall).  In [rewriteProgram] the farthest
    match of the third instruction is a WAW match, whose record (0 stall
    cycles) is the one stored, while the stall entry stored is the 2 of
    the nearer RAW match. *)
Lemma farthest_match_counterexample :
  (fst (rawHazard addT2 addiT0) = true
   /\ fst (rawHazard addT2 lwT1) = true
   /\ producers 2 = [1; 0]%nat
   /\ detectHazards exampleProgram exampleUsage false true = Some exampleAnalysis
   /\ (exists Tnear,
         scanPair false 2 1 addT2 addiT0 (initialAnalysis 3) = Some Tnear
         /\ aHazards exampleAnalysis !! 2%nat = aHazards Tnear !! 2%nat
         /\ aStalls exampleAnalysis !! 2%nat = aStalls Tnear !! 2%nat)
   /\ (exists Tfar,
         scanPair false 2 0 addT2 lwT1 (initialAnalysis 3) = Some Tfar
         /\ aHazards exampleAnalysis !! 2%nat <> aHazards Tfar !! 2%nat
         /\ aStalls exampleAnalysis !! 2%nat <> aStalls Tfar !! 2%nat)
   /\ aStalls exampleAnalysis !! 2%nat = Some 2)
  /\ (detectHazards rewriteProgram rewriteUsage false true = Some rewriteAnalysis
      /\ aHazards rewriteAnalysis !! 2%nat
         = Some (mkHazardInfo WAW "WAW hazard: Both instructions write to $t0" true 0)
      /\ aStalls rewriteAnalysis !! 2%nat = Some 2
      /\ (exists Tfar,
            scanPair false 2 0 (parseInstruction "21280001")
              (parseInstruction "20080005") (initialAnalysis 3) = Some Tfar
            /\ aHazards rewriteAnalysis !! 2%nat = aHazards Tfar !! 2%nat
            /\ aStalls rewriteAnalysis !! 2%nat <> aStalls Tfar !! 2%nat)).
Proof.
  split; split_and!; try (vm_compute; reflexivity).
  - eexists. split_and!; vm_compute; reflexivity.
  - eexists. split_and!; [vm_compute; reflexivity | |]; vm_compute; discriminate.
  - eexists. split_and!; [vm_compute; reflexivity | vm_compute; reflexivity |].
    vm_compute; discriminate.
Qed.

(** In [exampleProgram] the farthest producer whose pair writes anything
    for the [add] is the [addi] next to it. *)
Lemma farthest_recording_producer_witness :
  (exists Tj, scanPair false 2 1 addT2 addiT0 (initialAnalysis 3) = Some Tj
              /\ aHazards exampleAnalysis !! 2%nat = aHazards Tj !! 2%nat)
  /\ (exists Tj, scanPair false 2 1 addT2 addiT0 (initialAnalysis 3) = Some Tj
                 /\ aStalls exampleAnalysis !! 2%nat = aStalls Tj !! 2%nat).
Proof.
  assert (Hfar : forall (writes : nat -> RegisterUsage -> bool),
             writes 0%nat lwT1 = false ->
             forall j' prev', j' ∈ producers 2 -> (j' < 1)%nat ->
               exampleUsage !! j' = Some prev' -> writes j' prev' = false).
  { intros writes Hw j' prev' _ Hlt Hlook.
    assert (j' = 0%nat) as -> by lia.
    vm_compute in Hlook. injection Hlook as <-. exact Hw. }
  destruct (farthest_recording_producer exampleProgram exampleUsage false
              exampleAnalysis 2 1 addT2 addiT0) as [Hh Hs].
  - vm_compute; reflexivity.
  - simpl; lia.
  - vm_compute; reflexivity.
  - vm_compute; discriminate.
  - vm_compute. set_solver.
  - vm_compute; reflexivity.
  - split.
    + apply Hh; [vm_compute; reflexivity |].
      apply (Hfar (fun j prev => recordsHazard 2 j addT2 prev)).
      vm_compute; reflexivity.
    + apply Hs; [vm_compute; reflexivity |].
      apply (Hfar (fun j prev => recordsStall false 2 j addT2 prev)).
      vm_compute; reflexivity.
Defined.

(** A register file in which something wrote 7 to [$zero]: the call puts 0
    back; and the state after the run of one [addi]. *)
Lemma zero_register_after_call_witness :
  readRegister
    (<["$zero" := Num 0]>
       (<["$t0" := Num 12]> (<["$zero" := Num 7]> initialRegisters))) "$zero"
  = Number (Num 0)
  /\ readRegister (registers singleFinished) "$zero" = Number (Num 0).
Proof.
  split.
  - refine (proj1 (zero_register_after_call sampleDecoder "20080005"
                     (<["$zero" := Num 7]> initialRegisters) initialMemory (Num 0)
                     sEX [] 3 _ initialMemory None initialState) _).
    vm_compute; reflexivity.
  - refine (proj2 (zero_register_after_call sampleDecoder "" ∅ ∅ NaN sIF [] 0
                     ∅ ∅ None singleFinished) _).
    apply stateAfter_reachable. vm_compute. eauto.
Defined.

(** [lw $t1, 64($t0)] with [$t0 = 0]: address 64 is outside the memory. *)
Lemma out_of_range_access_skipped_witness :
  executeMIPSInstruction sampleDecoder "8D090040" initialRegisters
    initialMemory (Num 0) sMEM [] 4
  = Some (<["$zero" := Num 0]> initialRegisters, initialMemory, None)
  /\ (initialRegisters !! "$zero" = Some (Num 0) ->
      <["$zero" := Num 0]> initialRegisters = initialRegisters).
Proof.
  apply (out_of_range_access_skipped sampleDecoder "8D090040" initialRegisters
           initialMemory (Num 0) [] 4 "lw" "$t1" "64($t0)" "64" "t0" [] Op.lw).
  - vm_compute; reflexivity.
  - vm_compute; reflexivity.
  - set_solver.
  - vm_compute; reflexivity.
  - vm_compute; discriminate.
Defined.

(** [sw $t1, 64($t0)] with [$t0 = -68]: the sum -4 is read as the
    unsigned 4294967292, and the store is skipped. *)
Example out_of_range_store :
  executeMIPSInstruction sampleDecoder "AD090040"
    (<["$t0" := Num (-68)]> exampleRegisters) initialMemory (Num 0) sMEM [] 4
  = Some (<["$zero" := Num 0]> (<["$t0" := Num (-68)]> exampleRegisters),
          initialMemory, None)
  /\ effectiveAddress (<["$t0" := Num (-68)]> exampleRegisters) sMEM [] "64" "t0"
     = 4294967292.
Proof. split; vm_compute; reflexivity. Qed.

(** The sum is the one of the doubles.  [lw $t1, 40($t0)] with
    [$t0 = 2^59]: the doubles next to 2^59 are 128 apart, the sum
    2^59 + 40 is 2^59, the address is 0 and the load is done (the
    integer 2^59 + 40 would give the address 40, outside the memory). *)
Example rounded_address_inside_memory :
  let regs := <["$t0" := Num (2 ^ 59)]> initialRegisters in
  let mem := <[0 := Number (Num 77)]> initialMemory in
  JS.add (Num (2 ^ 59)) (Num 40) = Num (2 ^ 59)
  /\ effectiveAddress regs sMEM [] "40" "t0" = 0
  /\ executeMIPSInstruction largeBaseDecoder "8D090028" regs mem (Num 0) sMEM [] 4
     = Some (<["$zero" := Num 0]> (<["$t1" := Num 77]> regs), mem, None).
Proof. cbv zeta. repeat split; vm_compute; reflexivity. Qed.

(** The name looked for on behalf of an operand written by name.
    [add $t2, $t0, $t1] hands the texts [t0] and [t1] to [parseInt],
    which reads no number in them, so the edge looked for is one named
    [$rNaN]: no edge of the analyzer has that name, and with a list that
    held one the operands would be read from a register of that name,
    which does not exist. *)
Lemma forwarding_changes_result :
  let edge := mkForwardingInfo 0 1 sEX sEX "$rNaN" in
  registerAfter "$t2"
    (executeMIPSInstruction sampleDecoder "01095020" exampleRegisters
       initialMemory (Num 0) sEX [edge] 4)
  = Some NaN
  /\ registerAfter "$t2"
       (executeMIPSInstruction sampleDecoder "01095020" exampleRegisters
          initialMemory (Num 0) sEX [] 4)
     = Some (Num 12)
  /\ executeMIPSInstruction sampleDecoder "01095020" exampleRegisters
       initialMemory (Num 0) sEX [edge] 4
     <> executeMIPSInstruction sampleDecoder "01095020" exampleRegisters
          initialMemory (Num 0) sEX [] 4.
Proof.
  split_and!; [vm_compute; reflexivity | vm_compute; reflexivity |].
  intros H.
  apply (f_equal (registerAfter "$t2")) in H.
  vm_compute in H. discriminate.
Qed.

(** The same call with the edge the analyzer makes for [$t0]: no operand
    is looked up under that name, and the result is that of the call
    without edges. *)
Lemma forwarding_without_matching_edge_witness :
  executeMIPSInstruction sampleDecoder "01095020" exampleRegisters
    initialMemory (Num 0) sEX [mkForwardingInfo 1 2 sEX sEX "$t0"] 4
  = executeMIPSInstruction sampleDecoder "01095020" exampleRegisters
      initialMemory (Num 0) sEX [] 4.
Proof.
  apply forwarding_without_matching_edge.
  intros x f Hx Hf _.
  apply list_elem_of_singleton in Hf as ->.
  vm_compute in Hx.
  apply elem_of_cons in Hx as [-> | Hx];
    [| apply list_elem_of_singleton in Hx as ->]; vm_compute; discriminate.
Defined.


(** C1 fails as stated, in both directions.  One instruction has
    completion cycle 1 + 5 - 1 = 5; the tick from cycle 5 finds the next
    cycle 6 beyond it, sets the finished flag and stores cycle 5: a
    reachable, finished state whose cycle is not greater than its
    completion cycle.  And after the redirection of [afterLateJump] one
    instruction is left, so that the completion cycle is 5 at cycle 6, in
    a state that is not finished. *)
Lemma finished_not_beyond_completion :
  (reachable sampleDecoder singleFinished
   /\ isFinished singleFinished = true
   /\ currentCycle singleFinished = 5
   /\ completionCycle singleFinished = 5)
  /\ (reachable sampleDecoder afterLateJump
      /\ isFinished afterLateJump = false
      /\ currentCycle afterLateJump = 6
      /\ completionCycle afterLateJump = 5)
  /\ ~ (forall st, reachable sampleDecoder st ->
          (isFinished st = true <-> completionCycle st < currentCycle st)).
Proof.
  assert (H1 : reachable sampleDecoder singleFinished).
  { apply stateAfter_reachable. vm_compute. eauto. }
  assert (H2 : reachable sampleDecoder afterLateJump).
  { apply stateAfter_reachable. vm_compute. eauto. }
  split_and!; try done; try (vm_compute; reflexivity).
  intros H. destruct (H singleFinished H1) as [Hf _].
  specialize (Hf ltac:(vm_compute; reflexivity)).
  vm_compute in Hf. discriminate.
Qed.

(** The run of one [addi]: its last tick, and the state it leaves. *)
Lemma finished_at_completion_cycle_witness :
  (currentCycle singleFinished = completionCycle singleFinished
   /\ isRunning singleFinished = false)
  /\ ((isFinished singleFinished = true
       <-> completionCycle singleRunning < currentCycle singleRunning + 1)
      /\ isRunning singleFinished = negb (isFinished singleFinished)
      /\ (isFinished singleFinished = true ->
          currentCycle singleFinished = completionCycle singleRunning)).
Proof.
  split.
  - refine (proj1 (finished_at_completion_cycle sampleDecoder singleFinished _) _).
    + apply stateAfter_reachable. vm_compute. eauto.
    + vm_compute; reflexivity.
  - refine (proj2 (finished_at_completion_cycle sampleDecoder singleRunning _)
              singleFinished _ _ _ _).
    + apply stateAfter_reachable. vm_compute. eauto.
    + vm_compute; reflexivity.
    + vm_compute; reflexivity.
    + vm_compute. discriminate.
    + vm_compute; reflexivity.
Defined.

(** The tick of [stalledExample], which has two stall cycles pending. *)
Lemma pending_stall_tick_witness :
  currentStallCycles stalledExample = 2
  /\ exists st',
       calculateNextState sampleDecoder stalledExample = Some st'
       /\ currentStallCycles st' = currentStallCycles stalledExample - 1
       /\ currentCycle st' = currentCycle stalledExample + 1
       /\ instructionStages st' = instructionStages stalledExample
       /\ instructions st' = instructions stalledExample
       /\ registers st' = registers stalledExample
       /\ memory st' = memory stalledExample
       /\ PC st' = PC stalledExample
       /\ registerUsage st' = registerUsage stalledExample
       /\ hazards st' = hazards stalledExample
       /\ forwardings st' = forwardings stalledExample
       /\ stalls st' = stalls stalledExample
       /\ forwardingEnabled st' = forwardingEnabled stalledExample
       /\ stallsEnabled st' = stallsEnabled stalledExample
       /\ isRunning st' = true
       /\ isFinished st' = false
       /\ maxCycles st' = maxCycles stalledExample
       /\ stageCount st' = stageCount stalledExample.
Proof.
  split; [vm_compute; reflexivity |].
  apply (pending_stall_tick sampleDecoder stalledExample);
    vm_compute; reflexivity.
Defined.

(** The tick of [beforeJump], in which [j 8] is in EX. *)
Lemma branch_redirection_witness :
  exists st',
    calculateNextState sampleDecoder beforeJump = Some st'
    /\ truncatedAt (PC st') (instructions beforeJump) (instructions st')
    /\ instructions st' = drop (Z.to_nat 2) (instructions beforeJump)
    /\ PC st' = Num 2
    /\ currentCycle st' = currentCycle beforeJump + 1
    /\ stalls st' = stalls beforeJump
    /\ (forall k : nat, (k < length (instructions st'))%nat ->
          instructionStages st' !! Num (Z.of_nat k + 2)
          = Some (stageOrNull (stageCount beforeJump)
                    (currentCycle beforeJump + 1 - Z.of_nat k - 1
                     - calculatePrecedingStalls (stalls beforeJump)
                         (Num (Z.of_nat k + 2)))))
    /\ (forall key, is_Some (instructionStages st' !! key) ->
          exists k : nat, (k < length (instructions st'))%nat
                          /\ key = Num (Z.of_nat k + 2)).
Proof.
  apply (branch_redirection sampleDecoder beforeJump jumpTick 2).
  - vm_compute; reflexivity.
  - vm_compute; reflexivity.
  - vm_compute; reflexivity.
  - vm_compute; discriminate.
  - vm_compute; reflexivity.
  - vm_compute; reflexivity.
  - vm_compute; discriminate.
  - vm_compute; reflexivity.
  - vm_compute; discriminate.
Defined.

(** What that tick leaves: the two instructions from position 2 on, in EX
    and ID under the keys 2 and 3. *)
Example branch_redirection_result :
  (fun st => (instructions st, currentCycle st, PC st,
              map_to_list (instructionStages st)))
    <$> calculateNextState sampleDecoder beforeJump
  = Some (["20080005"; "20080005"], 3, Num 2,
          [(Num 3, Some 1); (Num 2, Some 2)]).
Proof. vm_compute. reflexivity. Qed.

(** C6 fails as stated when the program counter is not a position.  The
    backward branch of [beforeBranch] gives the program counter -2:
    [slice] counts it from the end and keeps the last two of the five
    instructions, under the keys -2 and -1, which is not a truncation
    that starts at the program counter.  The branch to a label of
    [beforeLabel] gives [NaN]: [slice] keeps the five instructions, and
    the five stage entries are written under the one key [NaN]. *)
Lemma redirection_outside_the_program :
  let program := ["1000FFFD"; "20080001"; "20080002"; "20080003"; "20080004"] in
  let labelled := ["10000000"; "20080001"; "20080002"; "20080003"; "20080004"] in
  let before st := (isRunning st, isFinished st, PC st, instructions st) in
  let after st :=
    (isFinished st, PC st, instructions st, map_to_list (instructionStages st)) in
  (before beforeBranch = (true, false, Num 0, program)
   /\ after <$> calculateNextState branchDecoder beforeBranch
      = Some (false, Num (-2), ["20080003"; "20080004"],
              [(Num (-2), Some 2); (Num (-1), Some 1)])
   /\ ~ truncatedAt (Num (-2)) program ["20080003"; "20080004"])
  /\ (before beforeLabel = (true, false, Num 0, labelled)
      /\ after <$> calculateNextState branchDecoder beforeLabel
         = Some (false, NaN, labelled, [(NaN, None)])
      /\ ~ truncatedAt NaN labelled labelled).
Proof.
  split; (split_and!; [vm_compute; reflexivity | vm_compute; reflexivity |]).
  - intros (p & Hp & _). injection Hp as Hp. lia.
  - intros (p & Hp & _). discriminate.
Qed.

(** * Further properties *)

(** ** Hazard analyzer *)

Lemma forEachM_invariant_in {S A : Type} (P : S -> Prop)
    (body : S -> A -> option S) (l : list A) :
  (forall s a s', a ∈ l -> P s -> body s a = Some s' -> P s') ->
  forall s s', P s -> forEachM body s l = Some s' -> P s'.
Proof.
  induction l as [| x l IH]; intros Hbody s s' Hs Hrun; simpl in Hrun.
  - by injection Hrun as <-.
  - destruct (body s x) as [s1 |] eqn:E; simpl in Hrun; [| done].
    eapply (IH (fun s a s' Ha => Hbody s a s' (list_elem_of_further _ _ _ Ha)));
      [| done].
    eapply Hbody; [apply list_elem_of_here | done | done].
Qed.

(** A loop whose bodies return under an invariant returns. *)
Lemma forEachM_returns {S A : Type} (P : S -> Prop)
    (body : S -> A -> option S) (l : list A) :
  (forall s a, a ∈ l -> P s -> exists s', body s a = Some s' /\ P s') ->
  forall s, P s -> exists s', forEachM body s l = Some s' /\ P s'.
Proof.
  induction l as [| x l IH]; intros Hbody s Hs; simpl; [eauto |].
  destruct (Hbody s x) as (s1 & -> & Hs1); [apply list_elem_of_here | done |].
  simpl. apply IH; [| done].
  intros s2 a Ha. apply Hbody. by apply list_elem_of_further.
Qed.

(** The loop seen with the elements already visited. *)
Lemma forEachM_visited {S A : Type} (P : list A -> S -> Prop)
    (body : S -> A -> option S) (l : list A) s s' :
  P [] s ->
  (forall visited a s1 s2, P visited s1 -> body s1 a = Some s2 ->
     P (visited ++ [a]) s2) ->
  forEachM body s l = Some s' -> P l s'.
Proof.
  intros Hinit Hstep.
  enough (forall rest visited s1, P visited s1 ->
            forEachM body s1 rest = Some s' -> P (visited ++ rest) s') as H
    by exact (H l [] s Hinit).
  induction rest as [| a rest IH]; intros visited s1 Hs1 Hrun; simpl in Hrun.
  - injection Hrun as <-. by rewrite app_nil_r.
  - destruct (body s1 a) as [s2 |] eqn:E; simpl in Hrun; [| done].
    replace (visited ++ a :: rest) with ((visited ++ [a]) ++ rest)
      by by rewrite <- app_assoc.
    eapply IH; [| done]. by eapply Hstep.
Qed.

Lemma producers_lt i j : j ∈ producers i -> (j < i <= j + 3)%nat.
Proof.
  destruct i as [| [| [| i]]]; unfold producers; simpl; rewrite ?Nat.sub_0_r;
    intros Hj; set_unfold in Hj; lia.
Qed.

Lemma scanPair_hasEntries fwd i j cur prev T T' k :
  scanPair fwd i j cur prev T = Some T' ->
  hasEntries T i -> (hasEntries T' k <-> hasEntries T k).
Proof.
  intros Hpair Hi. destruct (decide (k = i)) as [-> | Hne].
  - split; [done | intros _]. destruct Hi as ([h Hh] & [e He] & [v Hv]).
    revert Hpair. unfold scanPair, recordRaw, pushForwarding, hasEntries.
    rewrite He.
    destruct (JS.numEq (rd prev) (Num 0)), (rawHazard cur prev) as [[] ?],
      (isLoad prev), fwd, (i - j =? 1)%nat, (sameDestination cur prev);
      simpl; intros [= <-]; simpl; rewrite ?lookup_insert_eq; eauto.
  - destruct (scanPair_frame _ _ _ _ _ _ _ _ Hpair Hne) as (H1 & H2 & H3).
    unfold hasEntries. by rewrite H1, H2, H3.
Qed.

Lemma initialAnalysis_tablesOver n : tablesOver n (initialAnalysis n).
Proof.
  induction n as [| n IH]; intros k.
  - unfold initialAnalysis. simpl. rewrite !lookup_empty.
    split_and!; (split; [intros [? ?]; done | lia]).
  - rewrite initialAnalysis_S. simpl. destruct (IH k) as (H1 & H2 & H3).
    destruct (decide (n = k)) as [-> | Hne].
    + rewrite !lookup_insert_eq. split_and!; (split; [lia | eauto]).
    + rewrite !lookup_insert_ne by done. rewrite H1, H2, H3.
      split_and!; lia.
Qed.

Lemma scanPair_tablesOver n fwd i j cur prev T T' :
  (i < n)%nat -> tablesOver n T ->
  scanPair fwd i j cur prev T = Some T' -> tablesOver n T'.
Proof.
  intros Hi HT Hpair k.
  assert (Hent : hasEntries T i).
  { destruct (HT i) as (H1 & H2 & H3). unfold hasEntries. by rewrite H1, H2, H3. }
  destruct (decide (k = i)) as [-> | Hne].
  - destruct (proj2 (scanPair_hasEntries _ _ _ _ _ _ _ i Hpair Hent) Hent)
      as (H1 & H2 & H3).
    split_and!; (split; [done | by intros _]).
  - destruct (scanPair_frame _ _ _ _ _ _ _ _ Hpair Hne) as (-> & -> & ->).
    apply HT.
Qed.

(** When [registerUsage] has an entry for every instruction the
    analyzer returns, and each of its three tables has an entry for
    exactly the positions of the instructions. *)
Lemma detectHazards_total (instrs : list string)
    (usage : gmap nat RegisterUsage) (fwd stallsOn : bool) :
  (forall i, (i < length instrs)%nat -> is_Some (usage !! i)) ->
  exists T,
    detectHazards instrs usage fwd stallsOn = Some T
    /\ forall k,
         (is_Some (aHazards T !! k) <-> (k < length instrs)%nat)
         /\ (is_Some (aForwardings T !! k) <-> (k < length instrs)%nat)
         /\ (is_Some (aStalls T !! k) <-> (k < length instrs)%nat).
Proof.
  intros Husage. unfold detectHazards.
  destruct (negb stallsOn);
    [eexists; split; [done | apply initialAnalysis_tablesOver] |].
  apply (forEachM_returns (tablesOver (length instrs)));
    [| apply initialAnalysis_tablesOver].
  intros T i Hi HT. apply elem_of_seq in Hi.
  unfold scanInstruction.
  destruct (Husage i) as [cur ->]; [lia |]. simpl.
  destruct (bool_decide (type cur = J)); [eauto |].
  apply (forEachM_returns (tablesOver (length instrs))); [| done].
  intros T1 j Hj HT1. apply producers_lt in Hj.
  destruct (Husage j) as [prev ->]; [lia |]. simpl.
  destruct (scanPair_returns fwd i j cur prev T1) as [T2 HT2].
  { apply HT1. lia. }
  exists T2. split; [done |].
  eapply scanPair_tablesOver; [| done | done]. lia.
Qed.

(** X1. When [registerUsage] has an entry for every instruction,
    [detectHazards] returns, and each of its three tables has an entry
    for exactly the positions of the instructions. *)
Theorem analyzer_tables_total (instrs : list string)
    (usage : gmap nat RegisterUsage) (fwd stallsOn : bool) :
  (forall i, (i < length instrs)%nat -> is_Some (usage !! i)) ->
  exists T,
    detectHazards instrs usage fwd stallsOn = Some T
    /\ forall k,
         (is_Some (aHazards T !! k) <-> (k < length instrs)%nat)
         /\ (is_Some (aForwardings T !! k) <-> (k < length instrs)%nat)
         /\ (is_Some (aStalls T !! k) <-> (k < length instrs)%nat).
Proof. apply detectHazards_total. Qed.

(** A pair that writes no hazard record writes nothing at all. *)
Lemma scanPair_quiet fwd i j cur prev T :
  recordsHazard i j cur prev = false -> scanPair fwd i j cur prev T = Some T.
Proof.
  unfold recordsHazard, scanPair, recordRaw.
  destruct (JS.numEq (rd prev) (Num 0)), (rawHazard cur prev) as [[] ?],
    (isLoad prev), fwd, (i - j =? 1)%nat, (sameDestination cur prev);
    simpl; done.
Qed.

(** The entries of a position that the outer loop does not visit are the
    initial ones. *)
Lemma detectHazards_unvisited instrs (usage : gmap nat RegisterUsage) fwd T i :
  detectHazards instrs usage fwd true = Some T ->
  ~ (1 <= i < length instrs)%nat ->
  entriesAt i T = entriesAt i (initialAnalysis (length instrs)).
Proof.
  unfold detectHazards. simpl. intros Hrun Hi. revert Hrun.
  apply (forEachM_preserves _ (entriesAt i)).
  intros s k s' Hk Hbody. eapply scanInstruction_frame; [done |].
  apply elem_of_seq in Hk. lia.
Qed.

(** X2. An instruction keeps the record NONE, no edge and no stall when
    hazard detection is disabled, when it is the first instruction, when
    it is of type J, or when no producer in its window is a match that
    writes a record. *)
Theorem quiet_instruction (instrs : list string)
    (usage : gmap nat RegisterUsage) (fwd stallsOn : bool) (T : Analysis)
    (i : nat) :
  detectHazards instrs usage fwd stallsOn = Some T ->
  (i < length instrs)%nat ->
  stallsOn = false
  \/ i = 0%nat
  \/ (exists cur, usage !! i = Some cur
                  /\ (type cur = J
                      \/ forall j prev, j ∈ producers i -> usage !! j = Some prev ->
                           recordsHazard i j cur prev = false)) ->
  aHazards T !! i = Some noHazard
  /\ aForwardings T !! i = Some []
  /\ aStalls T !! i = Some 0.
Proof.
  intros Hrun Hi Hquiet.
  enough (entriesAt i T = entriesAt i (initialAnalysis (length instrs))) as Heq.
  { destruct (initialAnalysis_lookup _ _ Hi) as (H1 & H2 & H3).
    unfold entriesAt in Heq. rewrite H1, H2, H3 in Heq. by injection Heq. }
  destruct stallsOn; cycle 1.
  { unfold detectHazards in Hrun. simpl in Hrun. by injection Hrun as <-. }
  destruct Hquiet as [? | [-> | (cur & Hcur & Hq)]]; [done | |].
  { apply (detectHazards_unvisited _ _ _ _ _ Hrun). lia. }
  destruct (decide (i = 0%nat)) as [-> | Hne].
  { apply (detectHazards_unvisited _ _ _ _ _ Hrun). lia. }
  destruct (detectHazards_at _ _ _ _ i Hrun) as (T1 & T2 & Hpre & Hat & Hpost);
    [lia |].
  rewrite Hpost, <- Hpre. f_equal.
  unfold scanInstruction in Hat. rewrite Hcur in Hat. simpl in Hat.
  destruct Hq as [HJ | Hq].
  { rewrite bool_decide_eq_true_2 in Hat by done. by injection Hat. }
  destruct (bool_decide (type cur = J)); [by injection Hat |].
  revert Hat. apply (forEachM_invariant_in (fun T => T = T1)); [| done].
  intros s j s' Hj -> Hbody.
  destruct (usage !! j) as [prev |] eqn:Hprev; simpl in Hbody; [| done].
  rewrite (scanPair_quiet fwd i j cur prev T1) in Hbody by by eapply Hq.
  by injection Hbody.
Qed.

(** The analyzer only ever records 0, 1 or 2 stall cycles, in a hazard
    record as in the stall table, and with forwarding enabled every entry
    of the stall table is 0. *)
Lemma detectHazards_stall_values (instrs : list string)
    (usage : gmap nat RegisterUsage) (fwd stallsOn : bool) (T : Analysis) :
  detectHazards instrs usage fwd stallsOn = Some T ->
  (forall i v, aStalls T !! i = Some v ->
     0 <= v <= 2 /\ (fwd = true -> v = 0))
  /\ (forall i h, aHazards T !! i = Some h -> 0 <= stallCycles h <= 2).
Proof.
  apply (detectHazards_invariant
           (fun T =>
              (forall i v, aStalls T !! i = Some v ->
                 0 <= v <= 2 /\ (fwd = true -> v = 0))
              /\ (forall i h, aHazards T !! i = Some h -> 0 <= stallCycles h <= 2))).
  - split.
    + intros i v Hv. apply initialAnalysis_entries in Hv as ->. split; [lia | done].
    + intros i h. induction (length instrs) as [| n IH].
      * unfold initialAnalysis. simpl. by rewrite lookup_empty.
      * rewrite initialAnalysis_S. simpl.
        destruct (decide (n = i)) as [-> | Hne].
        -- rewrite lookup_insert_eq. intros [= <-]. simpl. lia.
        -- by rewrite lookup_insert_ne.
  - intros i j cur prev T1 T2 [IHs IHh] Hpair. split.
    + intros k v. destruct (decide (k = i)) as [-> | Hne].
      * revert Hpair. unfold scanPair, recordRaw, pushForwarding.
        destruct (JS.numEq (rd prev) (Num 0)), (rawHazard cur prev) as [[] ?],
          (isLoad prev), fwd, (i - j =? 1)%nat, (sameDestination cur prev);
          simpl; intros Hpair Hv; simplify_option_eq;
          rewrite ?lookup_insert_eq in Hv; simplify_eq;
          try (split; [lia | done]); by eapply IHs.
      * destruct (scanPair_frame _ _ _ _ _ _ _ _ Hpair Hne) as (_ & _ & ->).
        apply IHs.
    + intros k h. destruct (decide (k = i)) as [-> | Hne].
      * revert Hpair. unfold scanPair, recordRaw, pushForwarding.
        destruct (JS.numEq (rd prev) (Num 0)), (rawHazard cur prev) as [[] ?],
          (isLoad prev), fwd, (i - j =? 1)%nat, (sameDestination cur prev);
          simpl; intros Hpair Hh; simplify_option_eq;
          rewrite ?lookup_insert_eq in Hh; simplify_eq; simpl;
          try lia; by eapply IHh.
      * destruct (scanPair_frame _ _ _ _ _ _ _ _ Hpair Hne) as (-> & _ & _).
        apply IHh.
Qed.

(** X3. The analyzer only ever records 0, 1 or 2 stall cycles, in a hazard
    record as in the stall table, and with forwarding enabled every entry
    of the stall table is 0. *)
Theorem analyzer_stall_values (instrs : list string)
    (usage : gmap nat RegisterUsage) (fwd stallsOn : bool) (T : Analysis) :
  detectHazards instrs usage fwd stallsOn = Some T ->
  (forall i v, aStalls T !! i = Some v ->
     0 <= v <= 2 /\ (fwd = true -> v = 0))
  /\ (forall i h, aHazards T !! i = Some h -> 0 <= stallCycles h <= 2).
Proof. apply detectHazards_stall_values. Qed.

(** What the body of a pair does to the edges of [i]: nothing, or, for a
    RAW match under forwarding, one edge more. *)
Lemma scanPair_edges fwd i j cur prev T T' fs :
  scanPair fwd i j cur prev T = Some T' ->
  aForwardings T !! i = Some fs ->
  aForwardings T' !! i = Some fs
  \/ (fwd = true
      /\ aForwardings T' !! i
         = Some (fs ++ [mkForwardingInfo j i
                          (if (i - j =? 1)%nat && negb (isLoad prev)
                           then sEX else sMEM)
                          sEX (regMapName (rd prev))])).
Proof.
  unfold scanPair, recordRaw, pushForwarding. intros Hpair Hfs. rewrite Hfs in Hpair.
  revert Hpair.
  destruct (JS.numEq (rd prev) (Num 0)), (rawHazard cur prev) as [[] ?],
    (isLoad prev), fwd, (i - j =? 1)%nat, (sameDestination cur prev);
    simpl; intros [= <-]; simpl; rewrite ?lookup_insert_eq; auto.
Qed.

(** X4. The edges that the analyzer stores for instruction [i] come from
    producers in its window, at most one from each and in the order of
    the scan; each ends in EX at [i], starts in EX only from a producer
    next to [i] that is not a load and in MEM otherwise, and is tagged
    with the name of the producer's destination.  Without forwarding
    there is none. *)
Theorem analyzer_edge_shape (instrs : list string)
    (usage : gmap nat RegisterUsage) (fwd stallsOn : bool) (T : Analysis)
    (i : nat) (fs : list ForwardingInfo) :
  detectHazards instrs usage fwd stallsOn = Some T ->
  aForwardings T !! i = Some fs ->
  map from fs `sublist_of` producers i
  /\ (forall f, f ∈ fs -> edgeOf usage i f)
  /\ (fwd = false \/ stallsOn = false -> fs = []).
Proof.
  intros Hrun Hfs.
  set (Q := fun (visited : list nat) (T : Analysis) =>
              exists fs, aForwardings T !! i = Some fs
                         /\ map from fs `sublist_of` visited
                         /\ (forall f, f ∈ fs -> edgeOf usage i f)
                         /\ (fwd = false -> fs = [])).
  assert (Hnil : forall visited T0,
            aForwardings T0 !! i = Some [] -> Q visited T0).
  { intros visited T0 H0. exists []. split_and!; [done | | | done].
    - apply sublist_nil_l.
    - intros f Hf. by apply elem_of_nil in Hf. }
  assert (Hfinal : forall T0, Q (producers i) T0 -> aForwardings T0 !! i = Some fs ->
            stallsOn = true ->
            map from fs `sublist_of` producers i
            /\ (forall f, f ∈ fs -> edgeOf usage i f)
            /\ (fwd = false \/ stallsOn = false -> fs = [])).
  { intros T0 (fs0 & H0 & Hsub & Hedge & Hoff) H1 Hon.
    rewrite H0 in H1. injection H1 as ->. split_and!; [done | done |].
    intros [-> | ->]; [by apply Hoff | done]. }
  destruct stallsOn; cycle 1.
  { unfold detectHazards in Hrun. simpl in Hrun. injection Hrun as <-.
    apply initialAnalysis_entries in Hfs as ->.
    split_and!; [apply sublist_nil_l | | done].
    intros f Hf. by apply elem_of_nil in Hf. }
  destruct (decide (1 <= i < length instrs)%nat) as [Hi | Hi]; cycle 1.
  { pose proof (detectHazards_unvisited _ _ _ _ _ Hrun Hi) as Heq.
    injection Heq as _ Heq _. rewrite Hfs in Heq. symmetry in Heq.
    apply initialAnalysis_entries in Heq as ->.
    split_and!; [apply sublist_nil_l | | done].
    intros f Hf. by apply elem_of_nil in Hf. }
  destruct (detectHazards_at _ _ _ _ i Hrun Hi) as (T1 & T2 & Hpre & Hat & Hpost).
  injection Hpost as _ Hpost _. injection Hpre as _ Hpre _.
  destruct (initialAnalysis_lookup (length instrs) i) as (_ & Hinit & _); [lia |].
  rewrite Hinit in Hpre. rewrite Hpost in Hfs.
  apply (Hfinal T2); [| done | done].
  unfold scanInstruction in Hat.
  destruct (usage !! i) as [cur |]; simpl in Hat; [| done].
  destruct (bool_decide (type cur = J)); [injection Hat as <-; by apply Hnil |].
  revert Hat. apply (forEachM_visited Q); [by apply Hnil |].
  intros visited j s1 s2 (fs0 & H0 & Hsub & Hedge & Hoff) Hbody.
  destruct (usage !! j) as [prev |] eqn:Hprev; simpl in Hbody; [| done].
  destruct (scanPair_edges _ _ _ _ _ _ _ _ Hbody H0) as [H1 | [Hfwd H1]].
  - exists fs0. split_and!; try done. by apply sublist_inserts_r.
  - eexists. split; [exact H1 |]. split_and!.
    + rewrite map_app. simpl. by apply sublist_app.
    + intros f Hf. apply elem_of_app in Hf as [Hf | Hf]; [by apply Hedge |].
      apply list_elem_of_singleton in Hf as ->.
      unfold edgeOf. simpl. split_and!; [done | done |].
      exists prev. by split_and!.
    + intros ->. done.
Qed.

Lemma exampleUsage_total i :
  (i < length exampleProgram)%nat -> is_Some (exampleUsage !! i).
Proof.
  intros Hi. destruct i as [| [| [| i]]]; [by eexists; vm_compute .. |].
  simpl in Hi. lia.
Qed.

Lemma analyzer_tables_total_witness :
  exists T,
    detectHazards exampleProgram exampleUsage false true = Some T
    /\ forall k,
         (is_Some (aHazards T !! k) <-> (k < length exampleProgram)%nat)
         /\ (is_Some (aForwardings T !! k) <-> (k < length exampleProgram)%nat)
         /\ (is_Some (aStalls T !! k) <-> (k < length exampleProgram)%nat).
Proof.
  apply analyzer_tables_total, exampleUsage_total.
Defined.

(** In [exampleProgram] the [addi] reads nothing that the load before it
    writes. *)
Lemma quiet_instruction_witness :
  aHazards exampleAnalysis !! 1%nat = Some noHazard
  /\ aForwardings exampleAnalysis !! 1%nat = Some []
  /\ aStalls exampleAnalysis !! 1%nat = Some 0.
Proof.
  apply (quiet_instruction exampleProgram exampleUsage false true).
  - vm_compute; reflexivity.
  - simpl; lia.
  - right; right. exists addiT0. split; [vm_compute; reflexivity |].
    right. intros j prev Hj Hprev.
    change (j ∈ [0%nat]) in Hj. apply list_elem_of_singleton in Hj as ->.
    vm_compute in Hprev. injection Hprev as <-. vm_compute; reflexivity.
Defined.

Lemma analyzer_stall_values_witness :
  (forall i v, aStalls exampleAnalysis !! i = Some v ->
     0 <= v <= 2 /\ (false = true -> v = 0))
  /\ (forall i h, aHazards exampleAnalysis !! i = Some h ->
        0 <= stallCycles h <= 2).
Proof.
  apply (analyzer_stall_values exampleProgram exampleUsage false true).
  vm_compute; reflexivity.
Defined.

(** With forwarding the [add] of [exampleProgram] gets one edge, from the
    [addi] next to it; the load two places before it gives none. *)
Lemma analyzer_edge_shape_witness :
  map from [mkForwardingInfo 1 2 sEX sEX "$t0"] `sublist_of` producers 2
  /\ (forall f, f ∈ [mkForwardingInfo 1 2 sEX sEX "$t0"] ->
        edgeOf exampleUsage 2 f)
  /\ (true = false \/ true = false -> [mkForwardingInfo 1 2 sEX sEX "$t0"] = []).
Proof.
  apply (analyzer_edge_shape exampleProgram exampleUsage true true forwardedAnalysis).
  - vm_compute; reflexivity.
  - vm_compute; reflexivity.
Defined.

(** ** Instruction parser *)

Lemma string_app_nil_r (s : string) : s +:+ "" = s.
Proof.
  induction s as [| c s IH]; [done |].
  change (String c (s +:+ "") = String c s). by rewrite IH.
Qed.

Lemma string_app_cons (c : ascii) (s t : string) :
  String c s +:+ t = String c (s +:+ t).
Proof. done. Qed.

Lemma length_bitString n z : String.length (bitString n z) = n.
Proof. induction n as [| n IH]; simpl; [done | by rewrite IH]. Qed.

(** One bit more at the low end. *)
Lemma bitString_snoc n z :
  bitString (S n) z
  = bitString n (z / 2) +:+ String (if Z.testbit z 0 then "1" else "0")%char "".
Proof.
  induction n as [| n IH]; [done |].
  change (bitString (S (S n)) z)
    with (String (if Z.testbit z (Z.of_nat (S n)) then "1" else "0")%char
            (bitString (S n) z)).
  rewrite IH. simpl bitString. rewrite string_app_cons.
  rewrite Z.div2_bits by lia.
  by replace (Z.succ (Z.of_nat n)) with (Z.of_nat (S n)) by lia.
Qed.

Lemma posToBinary_bits p acc :
  posToBinary p acc = bitString (Pos.size_nat p) (Zpos p) +:+ acc.
Proof.
  revert acc. induction p as [p IH | p IH |]; intros acc; simpl posToBinary.
  - rewrite IH. change (Pos.size_nat p~1) with (S (Pos.size_nat p)).
    rewrite bitString_snoc.
    replace (Z.pos p~1 / 2) with (Z.pos p)
      by (apply (Z.div_unique _ 2 _ 1); lia).
    rewrite string_app_assoc. done.
  - rewrite IH. change (Pos.size_nat p~0) with (S (Pos.size_nat p)).
    rewrite bitString_snoc.
    replace (Z.pos p~0 / 2) with (Z.pos p)
      by (apply (Z.div_unique _ 2 _ 0); lia).
    rewrite string_app_assoc. done.
  - done.
Qed.

Lemma size_nat_bound p n : Zpos p < 2 ^ Z.of_nat n -> (Pos.size_nat p <= n)%nat.
Proof.
  revert n. induction p as [p IH | p IH |]; intros n Hp; simpl.
  - destruct n as [| n]; [simpl in Hp; lia |].
    apply le_n_S, IH. rewrite Nat2Z.inj_succ, Z.pow_succ_r in Hp by lia. lia.
  - destruct n as [| n]; [simpl in Hp; lia |].
    apply le_n_S, IH. rewrite Nat2Z.inj_succ, Z.pow_succ_r in Hp by lia. lia.
  - destruct n as [| n]; [simpl in Hp; lia | lia].
Qed.

Lemma size_nat_gt p : Zpos p < 2 ^ Z.of_nat (Pos.size_nat p).
Proof.
  induction p as [p IH | p IH |]; [| | done].
  - change (Pos.size_nat p~1) with (S (Pos.size_nat p)).
    rewrite Nat2Z.inj_succ, Z.pow_succ_r, Pos2Z.inj_xI by lia. lia.
  - change (Pos.size_nat p~0) with (S (Pos.size_nat p)).
    rewrite Nat2Z.inj_succ, Z.pow_succ_r, Pos2Z.inj_xO by lia. lia.
Qed.

(** The bits above the size of the number are zeros. *)
Lemma bitString_pad k n z :
  0 <= z < 2 ^ Z.of_nat k ->
  bitString (n + k) z = repeatChar "0" n +:+ bitString k z.
Proof.
  intros Hz. induction n as [| n IH]; [done |].
  simpl. rewrite IH. rewrite string_app_cons. f_equal.
  destruct (Z.testbit z (Z.of_nat (n + k))) eqn:E; [| done].
  exfalso. destruct (decide (z = 0)) as [-> | Hne].
  { by rewrite Z.bits_0 in E. }
  rewrite Z.bits_above_log2 in E; [done | lia |].
  apply Z.log2_lt_pow2; [lia |].
  apply Z.lt_le_trans with (2 ^ Z.of_nat k); [lia |].
  apply Z.pow_le_mono_r; lia.
Qed.

(** [z.toString(2).padStart(32, "0")] for a number of 32 bits. *)
Lemma binary_of_word z :
  0 <= z < 2 ^ 32 ->
  padStart 32 "0" (toBinaryString (Num z)) = bitString 32 z.
Proof.
  intros Hz. destruct z as [| p | p]; [by vm_compute | | lia].
  unfold toBinaryString, padStart.
  rewrite posToBinary_bits, string_app_nil_r, length_bitString.
  pose proof (size_nat_bound p 32 ltac:(simpl; lia)) as Hsize.
  replace 32%nat with ((32 - Pos.size_nat p) + Pos.size_nat p)%nat at 2 by lia.
  rewrite (bitString_pad (Pos.size_nat p)); [done |].
  split; [lia | apply size_nat_gt].
Qed.

Lemma substring_0_0 (s : string) : String.substring 0 0 s = "".
Proof. by destruct s. Qed.

(** [substring(a, b)] of the text of [n] bits is the text of the bits
    from [n - b] up to [n - a]. *)
Lemma substring_bitString n a b z :
  (a <= b <= n)%nat ->
  substring a b (bitString n z) = bitString (b - a) (z / 2 ^ Z.of_nat (n - b)).
Proof.
  unfold substring. revert n b. induction a as [| a IH]; intros n b Hab.
  - rewrite Nat.sub_0_r. revert n Hab. induction b as [| b IHb]; intros n Hab.
    + apply substring_0_0.
    + destruct n as [| n]; [lia |].
      replace (S n - S b)%nat with (n - b)%nat by lia.
      change (String.substring 0 (S b) (bitString (S n) z))
        with (String (if Z.testbit z (Z.of_nat n) then "1" else "0")%char
                (String.substring 0 b (bitString n z))).
      rewrite IHb by lia.
      change (bitString (S b) (z / 2 ^ Z.of_nat (n - b)))
        with (String (if Z.testbit (z / 2 ^ Z.of_nat (n - b)) (Z.of_nat b)
                      then "1" else "0")%char
                (bitString b (z / 2 ^ Z.of_nat (n - b)))).
      rewrite Z.div_pow2_bits by lia.
      by replace (Z.of_nat b + Z.of_nat (n - b)) with (Z.of_nat n) by lia.
  - destruct n as [| n]; [lia |]. destruct b as [| b]; [lia |].
    replace (S b - S a)%nat with (b - a)%nat by lia.
    replace (S n - S b)%nat with (n - b)%nat by lia.
    change (String.substring (S a) (b - a) (bitString (S n) z))
      with (String.substring a (b - a) (bitString n z)).
    apply IH. lia.
Qed.

Lemma digits_bitString k z acc count :
  Str.digits 2 acc count (bitString k z)
  = (acc * 2 ^ Z.of_nat k + z mod 2 ^ Z.of_nat k, (count + k)%nat).
Proof.
  revert acc count. induction k as [| k IH]; intros acc count.
  - simpl. rewrite Z.mod_1_r. f_equal; lia.
  - simpl bitString.
    assert (Hstep : Str.digits 2 acc count
                      (String (if Z.testbit z (Z.of_nat k) then "1" else "0")%char
                              (bitString k z))
                    = Str.digits 2 (acc * 2 + Z.b2z (Z.testbit z (Z.of_nat k)))
                                 (S count) (bitString k z)).
    { by destruct (Z.testbit z (Z.of_nat k)). }
    rewrite Hstep, IH. f_equal; [| lia].
    rewrite Nat2Z.inj_succ, Z.pow_succ_r by lia.
    rewrite (Z.mul_comm 2), Z.rem_mul_r by lia.
    rewrite Z.testbit_spec' by lia. lia.
Qed.

(** [parseInt(text, 2)] of the text of at least one bit. *)
Lemma parseInt_bitString k z :
  (1 <= k)%nat ->
  Str.parseIntRadix (Some 2) (bitString k z) = Num (z mod 2 ^ Z.of_nat k).
Proof.
  intros Hk. destruct k as [| k]; [lia |].
  assert (Hhead : Str.parseIntRadix (Some 2) (bitString (S k) z)
                  = let '(v, n) := Str.digits 2 0 0 (bitString (S k) z) in
                    match n with O => NaN | S _ => Num v end).
  { simpl bitString. by destruct (Z.testbit z (Z.of_nat k)). }
  rewrite Hhead, digits_bitString. simpl. f_equal.
Qed.

(** For an encoding that [parseInt(hex, 16)] reads as a word of 32
    bits, the fields that [parseInstruction] cuts out of the binary text
    are the bit fields of the word: opcode (bits 31-26), rs (25-21), rt
    (20-16) and, for opcode 0, rd (15-11) and funct (5-0); the type, the
    destination and the load and store marks follow from the opcode. *)
Lemma parseInstruction_of_word (hex : string) (z : Z) :
  Str.parseIntRadix (Some 16) hex = Num z ->
  0 <= z < 2 ^ 32 ->
  let u := parseInstruction hex in
  let op := z / 2 ^ 26 in
  opcode u = Num op
  /\ rs u = Num (z / 2 ^ 21 mod 32)
  /\ rt u = Num (z / 2 ^ 16 mod 32)
  /\ type u = (if op =? 0 then R else if (op =? 2) || (op =? 3) then J else I)
  /\ funct u = Num (if op =? 0 then z mod 64 else 0)
  /\ rd u = (if op =? 0 then Num (z / 2 ^ 11 mod 32)
             else if op =? 3 then Num 31
             else if existsb (Z.eqb op) [32; 33; 35; 36; 37; 48; 8; 9; 12; 13; 14; 15]
                  then Num (z / 2 ^ 16 mod 32)
                  else Num 0)
  /\ isLoad u = existsb (Z.eqb op) [32; 33; 35; 36; 37; 48]
  /\ isStore u = existsb (Z.eqb op) [40; 41; 43; 56].
Proof.
  intros Hparse Hz u op. subst u. unfold parseInstruction.
  rewrite Hparse, binary_of_word by done.
  rewrite !substring_bitString by lia.
  rewrite !parseInt_bitString by lia.
  change (Z.of_nat (32 - 6)) with 26. change (Z.of_nat (32 - 11)) with 21.
  change (Z.of_nat (32 - 16)) with 16. change (Z.of_nat (32 - 21)) with 11.
  change (Z.of_nat (32 - 32)) with 0.
  change (2 ^ Z.of_nat (6 - 0)) with 64. change (2 ^ Z.of_nat (11 - 6)) with 32.
  change (2 ^ Z.of_nat (16 - 11)) with 32. change (2 ^ Z.of_nat (21 - 16)) with 32.
  change (2 ^ Z.of_nat (32 - 26)) with 64.
  change (2 ^ 0) with 1. rewrite Z.div_1_r.
  assert (Hop : 0 <= op < 64).
  { unfold op. split; [apply Z.div_pos; lia |].
    apply Z.div_lt_upper_bound; lia. }
  rewrite (Z.mod_small (z / 2 ^ 26)) by done. fold op.
  clearbody op.
  assert (Hcases : In op (map Z.of_nat (seq 0 64))).
  { apply in_map_iff. exists (Z.to_nat op). split; [lia |].
    apply in_seq. lia. }
  simpl in Hcases.
  repeat (destruct Hcases as [<- | Hcases]; [by split_and! |]).
  done.
Qed.

(** X5. For an encoding that [parseInt(hex, 16)] reads as a word of 32
    bits, the fields that [parseInstruction] cuts out of the binary text
    are the bit fields of the word: opcode (bits 31-26), rs (25-21), rt
    (20-16) and, for opcode 0, rd (15-11) and funct (5-0); the type, the
    destination and the load and store marks follow from the opcode. *)
Theorem parseInstruction_fields (hex : string) (z : Z) :
  Str.parseIntRadix (Some 16) hex = Num z ->
  0 <= z < 2 ^ 32 ->
  let u := parseInstruction hex in
  let op := z / 2 ^ 26 in
  opcode u = Num op
  /\ rs u = Num (z / 2 ^ 21 mod 32)
  /\ rt u = Num (z / 2 ^ 16 mod 32)
  /\ type u = (if op =? 0 then R else if (op =? 2) || (op =? 3) then J else I)
  /\ funct u = Num (if op =? 0 then z mod 64 else 0)
  /\ rd u = (if op =? 0 then Num (z / 2 ^ 11 mod 32)
             else if op =? 3 then Num 31
             else if existsb (Z.eqb op) [32; 33; 35; 36; 37; 48; 8; 9; 12; 13; 14; 15]
                  then Num (z / 2 ^ 16 mod 32)
                  else Num 0)
  /\ isLoad u = existsb (Z.eqb op) [32; 33; 35; 36; 37; 48]
  /\ isStore u = existsb (Z.eqb op) [40; 41; 43; 56].
Proof. apply parseInstruction_of_word. Qed.

(** [add $t2, $t0, $t1] is the word 0x01095020. *)
Lemma parseInstruction_fields_witness :
  let u := parseInstruction "01095020" in
  let op := 17387552 / 2 ^ 26 in
  opcode u = Num op
  /\ rs u = Num (17387552 / 2 ^ 21 mod 32)
  /\ rt u = Num (17387552 / 2 ^ 16 mod 32)
  /\ type u = (if op =? 0 then R else if (op =? 2) || (op =? 3) then J else I)
  /\ funct u = Num (if op =? 0 then 17387552 mod 64 else 0)
  /\ rd u = (if op =? 0 then Num (17387552 / 2 ^ 11 mod 32)
             else if op =? 3 then Num 31
             else if existsb (Z.eqb op) [32; 33; 35; 36; 37; 48; 8; 9; 12; 13; 14; 15]
                  then Num (17387552 / 2 ^ 16 mod 32)
                  else Num 0)
  /\ isLoad u = existsb (Z.eqb op) [32; 33; 35; 36; 37; 48]
  /\ isStore u = existsb (Z.eqb op) [40; 41; 43; 56].
Proof.
  apply (parseInstruction_fields "01095020" 17387552).
  - vm_compute; reflexivity.
  - split; [discriminate | reflexivity].
Defined.

(** X6. A text in which [parseInt(hex, 16)] reads no number is not
    refused: it is parsed as the word 0, an instruction of type R with
    all fields 0, which depends on nothing and writes nothing. *)
Theorem parseInstruction_not_a_number (hex : string) :
  Str.parseIntRadix (Some 16) hex = NaN ->
  parseInstruction hex
  = mkRegisterUsage (Num 0) (Num 0) (Num 0) (Num 0) (Num 0) R false false.
Proof. intros H. unfold parseInstruction. rewrite H. by vm_compute. Qed.

Lemma parseInstruction_not_a_number_witness :
  parseInstruction "zz"
  = mkRegisterUsage (Num 0) (Num 0) (Num 0) (Num 0) (Num 0) R false false.
Proof. apply parseInstruction_not_a_number. vm_compute; reflexivity. Defined.

Lemma digitValue_16 c d : Str.digitValue 16 c = Some d -> 0 <= d < 16.
Proof.
  destruct c as [[] [] [] [] [] [] [] []]; vm_compute;
    intros [= <-] || discriminate; by split.
Qed.

Lemma digits_hex s acc count :
  (forall c, c ∈ characters s -> is_Some (Str.digitValue 16 c)) ->
  exists v, Str.digits 16 acc count s
            = (acc * 16 ^ Z.of_nat (String.length s) + v,
               (count + String.length s)%nat)
            /\ 0 <= v < 16 ^ Z.of_nat (String.length s).
Proof.
  revert acc count. induction s as [| c s IH]; intros acc count Hs.
  - exists 0. simpl. split; [f_equal; lia | lia].
  - destruct (Hs c) as [d Hd]; [simpl; apply list_elem_of_here |].
    simpl Str.digits. rewrite Hd.
    destruct (IH (acc * 16 + d) (S count)) as (v & -> & Hv).
    { intros c' Hc'. apply Hs. simpl. by apply list_elem_of_further. }
    apply digitValue_16 in Hd.
    exists (d * 16 ^ Z.of_nat (String.length s) + v).
    simpl String.length. rewrite Nat2Z.inj_succ, Z.pow_succ_r by lia.
    split; [f_equal; lia | nia].
Qed.

(** A text of hexadecimal digits has no white space, sign or [0x] in
    front: [parseInt] reads all of it. *)
Lemma parseInt_hex_digits hex :
  (forall c, c ∈ characters hex -> is_Some (Str.digitValue 16 c)) ->
  Str.parseIntRadix (Some 16) hex
  = (let '(v, n) := Str.digits 16 0 0%nat hex in
     match n with O => NaN | S _ => Num v end).
Proof.
  intros Hhex. destruct hex as [| c rest]; [reflexivity |].
  assert (Hc : is_Some (Str.digitValue 16 c))
    by (apply Hhex; simpl; apply list_elem_of_here).
  assert (Hrest : match rest with
                  | String c' _ => is_Some (Str.digitValue 16 c')
                  | EmptyString => True
                  end).
  { destruct rest as [| c' rest']; [done |].
    apply Hhex. simpl. apply list_elem_of_further, list_elem_of_here. }
  clear Hhex. revert Hc.
  destruct c as [[] [] [] [] [] [] [] []];
    try (intros [d Hd]; vm_compute in Hd; discriminate Hd);
    intros _; try reflexivity.
  destruct rest as [| c' rest']; [reflexivity |]. revert Hrest.
  destruct c' as [[] [] [] [] [] [] [] []];
    try (intros [d Hd]; vm_compute in Hd; discriminate Hd);
    intros _; reflexivity.
Qed.

(** [parseInt(hex, 16)] of one to eight hexadecimal digits is a word of
    32 bits. *)
Lemma parseInt_hex_word hex :
  (1 <= String.length hex <= 8)%nat ->
  (forall c, c ∈ characters hex -> is_Some (Str.digitValue 16 c)) ->
  exists z, Str.parseIntRadix (Some 16) hex = Num z /\ 0 <= z < 2 ^ 32.
Proof.
  intros Hlen Hhex.
  destruct (digits_hex hex 0 0 Hhex) as (v & Hdigits & Hv).
  exists v. split.
  - rewrite parseInt_hex_digits, Hdigits by done.
    destruct (String.length hex) eqn:E; [lia |]. simpl. f_equal; lia.
  - split; [lia |].
    apply Z.lt_le_trans with (16 ^ Z.of_nat (String.length hex)); [lia |].
    change (2 ^ 32) with (16 ^ 8). apply Z.pow_le_mono_r; lia.
Qed.

(** X7. An encoding of one to eight hexadecimal digits always parses to
    register numbers between 0 and 31, an opcode between 0 and 63 and a
    function code between 0 and 63. *)
Theorem parseInstruction_in_range (hex : string) :
  (1 <= String.length hex <= 8)%nat ->
  (forall c, c ∈ characters hex -> is_Some (Str.digitValue 16 c)) ->
  let u := parseInstruction hex in
  exists a b c o f,
    rs u = Num a /\ rt u = Num b /\ rd u = Num c
    /\ opcode u = Num o /\ funct u = Num f
    /\ 0 <= a < 32 /\ 0 <= b < 32 /\ 0 <= c < 32
    /\ 0 <= o < 64 /\ 0 <= f < 64.
Proof.
  intros Hlen Hhex u.
  destruct (parseInt_hex_word hex Hlen Hhex) as (z & Hz & Hword).
  destruct (parseInstruction_of_word hex z Hz Hword)
    as (Ho & Hrs & Hrt & _ & Hf & Hrd & _).
  fold u in Ho, Hrs, Hrt, Hf, Hrd.
  assert (0 <= z / 2 ^ 26 < 64).
  { split; [apply Z.div_pos; lia |]. apply Z.div_lt_upper_bound; lia. }
  pose proof (Z.mod_pos_bound (z / 2 ^ 21) 32 eq_refl).
  pose proof (Z.mod_pos_bound (z / 2 ^ 16) 32 eq_refl).
  pose proof (Z.mod_pos_bound (z / 2 ^ 11) 32 eq_refl).
  pose proof (Z.mod_pos_bound z 64 eq_refl).
  eexists _, _, _, _, _. split_and!; try eassumption; try lia.
  - rewrite Hrd.
    instantiate (1 := if z / 2 ^ 26 =? 0 then z / 2 ^ 11 mod 32
                      else if z / 2 ^ 26 =? 3 then 31
                      else if existsb (Z.eqb (z / 2 ^ 26))
                                [32; 33; 35; 36; 37; 48; 8; 9; 12; 13; 14; 15]
                           then z / 2 ^ 16 mod 32 else 0).
    repeat case_match; reflexivity.
  - repeat case_match; lia.
  - repeat case_match; lia.
  - repeat case_match; lia.
  - repeat case_match; lia.
Qed.

Lemma parseInstruction_in_range_witness :
  let u := parseInstruction "8d090004" in
  exists a b c o f,
    rs u = Num a /\ rt u = Num b /\ rd u = Num c
    /\ opcode u = Num o /\ funct u = Num f
    /\ 0 <= a < 32 /\ 0 <= b < 32 /\ 0 <= c < 32
    /\ 0 <= o < 64 /\ 0 <= f < 64.
Proof.
  apply parseInstruction_in_range.
  - simpl. lia.
  - intros c Hc. simpl in Hc. repeat (apply elem_of_cons in Hc as [-> | Hc]; [by eexists; vm_compute |]).
    by apply elem_of_nil in Hc.
Defined.

(** ** Execution unit *)

Ltac call_cases stage op operands :=
  unfold executeMIPSInstruction, executeText;
  destruct (Str.splitOn _ _) as [op operands];
  destruct stage; [| | destruct (Op.ofString op) as [[] |]
                   | destruct (Op.ofString op) as [[] |] |];
  simpl;
  unfold threeRegisters, registerImmediate, branch, memoryAccess;
  destruct operands as [| a [| b [| c rest]]]; simpl;
  repeat match goal with
         | |- context [Str.matchOffsetBase ?x] =>
             destruct (Str.matchOffsetBase x) as [[? ?] |]; simpl
         | |- context [if ?b then _ else _] => destruct b eqn:?; simpl
         end.

(** X8. A call throws exactly when an operand that it reads without a
    guard is missing: in EX the three-register instructions need three
    operands, the immediate instructions, the shifts and the branches
    two, [jr] and [lui] one; in MEM the loads and stores need one.  Every
    other call returns, whatever the texts of the operands are. *)
Theorem call_throws_on_missing_operand (decoder : string -> string)
    (hex : string) (regs : gmap string jsnum) (mem : gmap Z jsval)
    (pc : jsnum) (stage : StageName) (fs : list ForwardingInfo) (cycle : Z) :
  let '(op, operands) := Str.splitOn " " (Str.removeAll "," (decoder hex)) in
  is_Some (executeMIPSInstruction decoder hex regs mem pc stage fs cycle)
  <-> (requiredOperands stage (Op.ofString op) <= length operands)%nat.
Proof.
  call_cases stage op operands;
    (split; [intros [x Hx]; first [discriminate Hx | lia] | intros H; first [lia | eauto]]).
Qed.

(** What a call does to the memory: nothing, or one word among the 32. *)
Lemma executeMIPSInstruction_memory decoder hex regs mem pc stage fs cycle
    regs' mem' newPC :
  executeMIPSInstruction decoder hex regs mem pc stage fs cycle
  = Some (regs', mem', newPC) ->
  mem' = mem \/ exists a v, 0 <= a < 32 /\ mem' = <[a := v]> mem.
Proof.
  call_cases stage op operands; intros H; simplify_eq; auto;
    right; eexists _, _; (split; [| reflexivity]);
    repeat match goal with
           | H : _ || _ = false |- _ => apply orb_false_iff in H as [? ?]
           | H : (_ <? _) = false |- _ => apply Z.ltb_ge in H
           | H : (_ <=? _) = false |- _ => apply Z.leb_gt in H
           end;
    lia.
Qed.

(** X9. A call that returns leaves the memory as it was or writes one
    word of it, at an address between 0 and 31. *)
Theorem call_writes_one_word (decoder : string -> string)
    (hex : string) (regs : gmap string jsnum) (mem : gmap Z jsval)
    (pc : jsnum) (stage : StageName) (fs : list ForwardingInfo) (cycle : Z)
    (regs' : gmap string jsnum) (mem' : gmap Z jsval) (newPC : option jsnum) :
  executeMIPSInstruction decoder hex regs mem pc stage fs cycle
  = Some (regs', mem', newPC) ->
  mem' = mem \/ exists a v, 0 <= a < 32 /\ mem' = <[a := v]> mem.
Proof. apply executeMIPSInstruction_memory. Qed.

(** X10. A call that returns changes no register other than [$zero], the
    register named by its first operand and, for [jal], [$ra]. *)
Theorem call_register_frame (decoder : string -> string)
    (hex : string) (regs : gmap string jsnum) (mem : gmap Z jsval)
    (pc : jsnum) (stage : StageName) (fs : list ForwardingInfo) (cycle : Z)
    (regs' : gmap string jsnum) (mem' : gmap Z jsval) (newPC : option jsnum)
    (op : string) (operands : list string) (name : string) :
  executeMIPSInstruction decoder hex regs mem pc stage fs cycle
  = Some (regs', mem', newPC) ->
  Str.splitOn " " (Str.removeAll "," (decoder hex)) = (op, operands) ->
  name <> "$zero" ->
  (forall first, operands !! 0%nat = Some first ->
     name <> normalizeRegister (stripDollar first)) ->
  (Op.ofString op = Some Op.jal -> name <> "$ra") ->
  regs' !! name = regs !! name.
Proof.
  intros Hcall Hsplit Hzero Hfirst Hra. revert Hcall.
  unfold executeMIPSInstruction, executeText. rewrite Hsplit.
  intros H. apply bind_Some in H as ([[r m] n] & Hcase & H).
  injection H as <- <- <-. rewrite lookup_insert_ne by done.
  revert Hcase.
  destruct stage; try (by intros [= <- <- <-]);
    destruct (Op.ofString op) as [[] |]; simpl;
    unfold threeRegisters, registerImmediate, branch, memoryAccess;
    destruct operands as [| a [| b [| c rest]]]; simpl;
    repeat match goal with
           | |- context [Str.matchOffsetBase ?x] =>
               destruct (Str.matchOffsetBase x) as [[? ?] |]; simpl
           | |- context [if ?b then _ else _] => destruct b eqn:?; simpl
           end;
    intros H; simplify_eq; try done;
    rewrite lookup_insert_ne; first [done | by apply not_eq_sym, Hfirst | by apply not_eq_sym, Hra].
Qed.

(** X11. A call in EX leaves the memory as it was, a call in MEM returns
    no program counter, and a call in IF, ID or WB does nothing but put 0
    in [$zero]: the write-back stage writes no register. *)
Theorem call_stage_frame (decoder : string -> string)
    (hex : string) (regs : gmap string jsnum) (mem : gmap Z jsval)
    (pc : jsnum) (stage : StageName) (fs : list ForwardingInfo) (cycle : Z)
    (regs' : gmap string jsnum) (mem' : gmap Z jsval) (newPC : option jsnum) :
  executeMIPSInstruction decoder hex regs mem pc stage fs cycle
  = Some (regs', mem', newPC) ->
  match stage with
  | sEX => mem' = mem
  | sMEM => newPC = None
  | _ => regs' = <["$zero" := Num 0]> regs /\ mem' = mem /\ newPC = None
  end.
Proof.
  call_cases stage op operands; intros H; by simplify_eq.
Qed.

(** X12. A text whose mnemonic is none of those the switches know is not
    refused: in every stage the call returns, with 0 put in [$zero] and
    nothing else done. *)
Theorem unknown_mnemonic_ignored (decoder : string -> string)
    (hex : string) (regs : gmap string jsnum) (mem : gmap Z jsval)
    (pc : jsnum) (stage : StageName) (fs : list ForwardingInfo) (cycle : Z) :
  Op.ofString (fst (Str.splitOn " " (Str.removeAll "," (decoder hex)))) = None ->
  executeMIPSInstruction decoder hex regs mem pc stage fs cycle
  = Some (<["$zero" := Num 0]> regs, mem, None).
Proof.
  unfold executeMIPSInstruction, executeText.
  destruct (Str.splitOn _ _) as [op operands]. simpl. intros ->.
  by destruct stage.
Qed.

(** X13. [sw] and then [lw] with the same operand [offset($base)], at an
    address below 32 (the unsigned 32 bits of the double that
    [base + offset] is) and without edges: the store changes no register,
    and the load puts in its register what [getRegisterValue] reads in
    the stored register, that is, the number stored, with [NaN] or a
    missing register read back as 0. *)
Theorem store_then_load (decoder : string -> string)
    (hexS hexL : string) (regs : gmap string jsnum) (mem : gmap Z jsval)
    (pc pc' : jsnum) (cycle cycle' : Z)
    (rt rt' operand offsetStr baseReg : string) :
  Str.splitOn " " (Str.removeAll "," (decoder hexS)) = ("sw", [rt; operand]) ->
  Str.splitOn " " (Str.removeAll "," (decoder hexL)) = ("lw", [rt'; operand]) ->
  Str.matchOffsetBase operand = Some (offsetStr, baseReg) ->
  effectiveAddress regs sMEM [] offsetStr baseReg < 32 ->
  regs !! "$zero" = Some (Num 0) ->
  exists mem1,
    executeMIPSInstruction decoder hexS regs mem pc sMEM [] cycle
    = Some (regs, mem1, None)
    /\ executeMIPSInstruction decoder hexL regs mem1 pc' sMEM [] cycle'
       = Some (<["$zero" := Num 0]>
                 (<[normalizeRegister (stripDollar rt') :=
                      getRegisterValue regs (stripDollar rt)]> regs),
               mem1, None).
Proof.
  intros HS HL Hmatch Haddr Hzero.
  assert (Hacc : (effectiveAddress regs sMEM [] offsetStr baseReg <? 0)
                 || (32 <=? effectiveAddress regs sMEM [] offsetStr baseReg)
                 = false).
  { apply orb_false_iff. split.
    - apply Z.ltb_ge. unfold effectiveAddress, JS.toUint32.
      destruct (JS.add _ _); [done |]. by apply Z.mod_pos_bound.
    - apply Z.leb_gt. lia. }
  eexists. unfold executeMIPSInstruction, executeText. rewrite HS, HL.
  change (Op.ofString "sw") with (Some Op.sw).
  change (Op.ofString "lw") with (Some Op.lw).
  simpl. unfold memoryAccess. simpl. rewrite Hmatch.
  rewrite Hacc. simpl. rewrite (insert_id regs "$zero") by done.
  split; [reflexivity |].
  unfold readMemory. rewrite lookup_insert_eq. simpl.
  reflexivity.
Qed.

(** ** Execution unit: the values of logic, shifts and comparisons *)

Lemma int32_iff x : - 2 ^ 31 <= x < 2 ^ 31 <-> Z.shiftr x 31 = 0 \/ Z.shiftr x 31 = -1.
Proof.
  rewrite Z.shiftr_div_pow2 by lia.
  pose proof (Z.div_mod x (2 ^ 31) ltac:(lia)).
  pose proof (Z.mod_pos_bound x (2 ^ 31) ltac:(lia)). lia.
Qed.

Lemma toInt32_range n : - 2 ^ 31 <= JS.toInt32 n < 2 ^ 31.
Proof.
  destruct n as [| z]; simpl; [lia |].
  pose proof (Z.mod_pos_bound (z + 2 ^ 31) (2 ^ 32) ltac:(lia)). lia.
Qed.

Lemma land_int32 a b :
  - 2 ^ 31 <= a < 2 ^ 31 -> - 2 ^ 31 <= b < 2 ^ 31 ->
  - 2 ^ 31 <= Z.land a b < 2 ^ 31.
Proof.
  rewrite !int32_iff, Z.shiftr_land. by intros [-> | ->] [-> | ->]; auto.
Qed.

Lemma lor_int32 a b :
  - 2 ^ 31 <= a < 2 ^ 31 -> - 2 ^ 31 <= b < 2 ^ 31 ->
  - 2 ^ 31 <= Z.lor a b < 2 ^ 31.
Proof.
  rewrite !int32_iff, Z.shiftr_lor. by intros [-> | ->] [-> | ->]; auto.
Qed.

Lemma band_range a b : exists v, JS.band a b = Num v /\ - 2 ^ 31 <= v < 2 ^ 31.
Proof. eexists. split; [done |]. apply land_int32; apply toInt32_range. Qed.

Lemma bor_range a b : exists v, JS.bor a b = Num v /\ - 2 ^ 31 <= v < 2 ^ 31.
Proof. eexists. split; [done |]. apply lor_int32; apply toInt32_range. Qed.

Lemma bnot_bor_range a b :
  exists v, JS.bnot (JS.bor a b) = Num v /\ - 2 ^ 31 <= v < 2 ^ 31.
Proof.
  eexists. split; [done |]. unfold Z.lnot.
  pose proof (toInt32_range (JS.bor a b)). lia.
Qed.

Lemma shl_range a b : exists v, JS.shl a b = Num v /\ - 2 ^ 31 <= v < 2 ^ 31.
Proof. eexists. split; [done |]. apply toInt32_range. Qed.

Lemma shr_range a b : exists v, JS.shr a b = Num v /\ 0 <= v < 2 ^ 32.
Proof.
  eexists. split; [done |].
  assert (Hk : 0 <= Z.land (JS.toUint32 b) 31) by (apply Z.land_nonneg; lia).
  assert (Ha : 0 <= JS.toUint32 a < 2 ^ 32).
  { destruct a as [| z]; simpl; [lia |]. apply Z.mod_pos_bound. lia. }
  rewrite Z.shiftr_div_pow2 by done.
  assert (0 < 2 ^ Z.land (JS.toUint32 b) 31) by (apply Z.pow_pos_nonneg; lia).
  split; [apply Z.div_pos; lia |].
  apply Z.le_lt_trans with (JS.toUint32 a); [| lia].
  apply Z.div_le_upper_bound; [done | nia].
Qed.

Lemma ofBool_range c : exists v, JS.ofBool c = Num v /\ (v = 0 \/ v = 1).
Proof. destruct c; eexists; split; try done; auto. Qed.

(** X14. The instructions of logic, the shifts, the comparisons and [lui]
    never leave [NaN] in their destination, whatever their operands are
    (a missing register or an unreadable immediate counts as 0): [and],
    [andi], [or], [ori], [nor], [sll] and [lui] leave a signed word of 32
    bits, [srl] an unsigned one, [slt], [slti], [sltu] and [sltiu] 0 or
    1. *)
Theorem logic_results_are_words (decoder : string -> string)
    (hex : string) (regs : gmap string jsnum) (mem : gmap Z jsval)
    (pc : jsnum) (fs : list ForwardingInfo) (cycle : Z)
    (regs' : gmap string jsnum) (mem' : gmap Z jsval) (newPC : option jsnum)
    (op first : string) (rest : list string) (o : Op.t) :
  executeMIPSInstruction decoder hex regs mem pc sEX fs cycle
  = Some (regs', mem', newPC) ->
  Str.splitOn " " (Str.removeAll "," (decoder hex)) = (op, first :: rest) ->
  Op.ofString op = Some o ->
  o ∈ [Op.and; Op.andi; Op.or; Op.ori; Op.nor; Op.sll; Op.srl;
       Op.slt; Op.slti; Op.sltu; Op.sltiu; Op.lui] ->
  normalizeRegister (stripDollar first) <> "$zero" ->
  exists v, regs' !! normalizeRegister (stripDollar first) = Some (Num v)
            /\ resultRange o v.
Proof.
  intros Hcall Hsplit Hop Ho Hzero. revert Hcall.
  unfold executeMIPSInstruction, executeText. rewrite Hsplit, Hop.
  intros H. apply bind_Some in H as ([[r m] n] & Hcase & H).
  injection H as <- <- <-. rewrite lookup_insert_ne by done.
  revert Hcase. set_unfold in Ho.
  destruct Ho as [-> | [-> | [-> | [-> | [-> | [-> | [-> | [-> | [-> | [-> | [-> | [-> | []]]]]]]]]]]]];
    simpl; unfold threeRegisters, registerImmediate;
    destruct rest as [| b [| c rest]]; simpl; intros Hcase; simplify_eq;
    rewrite lookup_insert_eq;
    match goal with
    | |- context [JS.bnot (JS.bor ?x ?y)] =>
        destruct (bnot_bor_range x y) as (v & Hv & ?)
    | |- context [JS.band ?x ?y] => destruct (band_range x y) as (v & Hv & ?)
    | |- context [JS.bor ?x ?y] => destruct (bor_range x y) as (v & Hv & ?)
    | |- context [JS.shl ?x ?y] => destruct (shl_range x y) as (v & Hv & ?)
    | |- context [JS.shr ?x ?y] => destruct (shr_range x y) as (v & Hv & ?)
    | |- context [JS.ofBool ?x] => destruct (ofBool_range x) as (v & Hv & ?)
    end;
    exists v; (split; [by f_equal | done]).
Qed.

(** ** Stage scheduler: the stage of every instruction *)

Lemma calculatePrecedingStalls_S (stalls : gmap nat Z) (k : nat) :
  calculatePrecedingStalls stalls (Num (Z.of_nat (S k)))
  = calculatePrecedingStalls stalls (Num (Z.of_nat k)) + default 0 (stalls !! k).
Proof.
  unfold calculatePrecedingStalls. rewrite !Nat2Z.id.
  by rewrite seq_S, fold_left_app.
Qed.

Lemma calculatePrecedingStalls_nat_mono (stalls : gmap nat Z) (a b : nat) :
  (forall i v, stalls !! i = Some v -> 0 <= v) ->
  (a <= b)%nat ->
  calculatePrecedingStalls stalls (Num (Z.of_nat a))
  <= calculatePrecedingStalls stalls (Num (Z.of_nat b)).
Proof.
  intros Hpos Hab. induction Hab as [| b Hab IH]; [reflexivity |].
  rewrite calculatePrecedingStalls_S.
  assert (0 <= default 0 (stalls !! b)).
  { destruct (stalls !! b) as [v |] eqn:E; simpl; [by eapply Hpos | done]. }
  etrans; [exact IH |]. apply Z.le_sub_le_add_l. by rewrite Z.sub_diag.
Qed.

Lemma calculatePrecedingStalls_neg (stalls : gmap nat Z) (z : Z) :
  z <= 0 -> calculatePrecedingStalls stalls (Num z) = 0.
Proof.
  intros Hz. unfold calculatePrecedingStalls.
  replace (Z.to_nat z) with 0%nat by lia. done.
Qed.

(** With no negative stall the stalls before a position grow with it. *)
Lemma calculatePrecedingStalls_mono (stalls : gmap nat Z) (a b : Z) :
  (forall i v, stalls !! i = Some v -> 0 <= v) ->
  a <= b ->
  calculatePrecedingStalls stalls (Num a) <= calculatePrecedingStalls stalls (Num b).
Proof.
  intros Hpos Hab.
  destruct (Z.le_gt_cases a 0) as [Ha | Ha].
  - rewrite (calculatePrecedingStalls_neg _ a Ha).
    destruct (Z.le_gt_cases b 0) as [Hb | Hb].
    + by rewrite (calculatePrecedingStalls_neg _ b Hb).
    + rewrite <- (Z2Nat.id b) by lia.
      rewrite <- (calculatePrecedingStalls_neg stalls (Z.of_nat 0)) by done.
      apply calculatePrecedingStalls_nat_mono; [done | lia].
  - rewrite <- (Z2Nat.id a), <- (Z2Nat.id b) by lia.
    apply calculatePrecedingStalls_nat_mono; [done | lia].
Qed.

(** With no negative stall two positions never compute the same stage. *)
Lemma stageAt_lt st cycle a b :
  (forall i v, stalls st !! i = Some v -> 0 <= v) ->
  a < b -> stageAt st cycle b < stageAt st cycle a.
Proof.
  intros Hpos Hab. unfold stageAt.
  pose proof (calculatePrecedingStalls_mono (stalls st) a b Hpos). lia.
Qed.

Lemma stageOrNull_Some sc si s : stageOrNull sc si = Some s -> s = si /\ 0 <= s < sc.
Proof.
  unfold stageOrNull. destruct ((0 <=? si) && (si <? sc)) eqn:E; [| done].
  intros [= <-]. apply andb_true_iff in E as [?%Z.leb_le ?%Z.ltb_lt]. lia.
Qed.

(** What the body of the loop does to the stage map and the stall
    counter. *)
Lemma visitInstruction_stages decoder st cycle t index inst t' :
  visitInstruction decoder st cycle t (index, inst) = Some t' ->
  newInstructionStages t'
  = <[Num (Z.of_nat index) :=
        stageOrNull (stageCount st) (stageAt st cycle (Z.of_nat index))]>
      (newInstructionStages t)
  /\ (newStallCycles t' = newStallCycles t
      \/ newStallCycles t = 0
         /\ stageAt st cycle (Z.of_nat index) = 1
         /\ stalls st !! index = Some (newStallCycles t')
         /\ 0 < newStallCycles t').
Proof.
  unfold visitInstruction, stageOrNull, stageAt.
  destruct ((0 <=? _) && (_ <? stageCount st)); [| intros [= <-]; auto].
  set (si := cycle - Z.of_nat index - 1 - _).
  assert (Hstall :
            let s := if (si =? 1)
                        && match stalls st !! index with
                           | Some v => 0 <? v | None => false end
                        && (newStallCycles t =? 0)
                     then default 0 (stalls st !! index)
                     else newStallCycles t in
            s = newStallCycles t
            \/ newStallCycles t = 0 /\ si = 1
               /\ stalls st !! index = Some s /\ 0 < s).
  { simpl. destruct (si =? 1) eqn:E1; [| auto].
    destruct (stalls st !! index) as [v |]; [| auto].
    destruct (0 <? v) eqn:E2; [| auto].
    destruct (newStallCycles t =? 0) eqn:E3; [| auto].
    simpl. right. apply Z.eqb_eq in E1, E3. apply Z.ltb_lt in E2. done. }
  simpl in Hstall.
  repeat match goal with
         | |- context [if ?b =? ?n then _ else _] => destruct (b =? n)
         end;
    intros H; try (apply bind_Some in H as ([[r m] pc'] & _ & H));
    injection H as <-; simpl; auto.
Qed.

(** The stage map after the loop of a tick over [l], from position
    [first] on. *)
Lemma visit_loop_stages decoder st cycle (l : list string) :
  forall (first : nat) (t t' : Tick),
    forEachM (visitInstruction decoder st cycle) t
      (zip (seq first (length l)) l) = Some t' ->
    forall key,
      newInstructionStages t' !! key
      = match key with
        | Num z =>
            if (Z.of_nat first <=? z) && (z <? Z.of_nat first + Z.of_nat (length l))
            then Some (stageOrNull (stageCount st) (stageAt st cycle z))
            else newInstructionStages t !! key
        | NaN => newInstructionStages t !! key
        end.
Proof.
  induction l as [| inst l IH]; intros first t t' Hrun key.
  - simpl in Hrun. injection Hrun as <-. destruct key as [| z]; [done |].
    destruct ((_ <=? z) && _) eqn:E; [| done]. apply window_spec in E.
    simpl in E. lia.
  - simpl in Hrun. apply bind_Some in Hrun as (t1 & Hvisit & Hrun).
    apply visitInstruction_stages in Hvisit as [Hstages _].
    rewrite (IH _ _ _ Hrun key). rewrite Hstages.
    destruct key as [| z]; [by rewrite lookup_insert_ne |].
    destruct (decide (z = Z.of_nat first)) as [-> | Hne].
    + rewrite lookup_insert_eq.
      rewrite (proj2 (window_spec (Z.of_nat first) (Z.of_nat first)
                        (Z.of_nat (length (inst :: l)))))
        by (simpl length; lia).
      destruct ((Z.of_nat (S first) <=? _) && _) eqn:E; [| done].
      apply window_spec in E. lia.
    + rewrite lookup_insert_ne by congruence.
      destruct ((Z.of_nat (S first) <=? z) && _) eqn:E1,
               ((Z.of_nat first <=? z) && (z <? _ + Z.of_nat (length (inst :: l)))) eqn:E2;
        try done.
      * apply window_spec in E1. apply not_true_iff_false in E2.
        exfalso. apply E2, window_spec. simpl length. lia.
      * apply window_spec in E2. apply not_true_iff_false in E1.
        exfalso. apply E1, window_spec. simpl length in E2. lia.
Qed.

(** The stage map of a tick that neither finishes nor redirects holds,
    for each position of the sequence, the stage computed for it. *)
Lemma tick_stages decoder st t key :
  forEachM (visitInstruction decoder st (currentCycle st + 1))
    (mkTick ∅ (currentStallCycles st) (registers st) (memory st) (PC st))
    (indexed (instructions st)) = Some t ->
  newInstructionStages t !! key
  = match key with
    | Num z =>
        if (0 <=? z) && (z <? Z.of_nat (length (instructions st)))
        then Some (stageOrNull (stageCount st) (stageAt st (currentCycle st + 1) z))
        else None
    | NaN => None
    end.
Proof.
  intros Hrun. rewrite (visit_loop_stages _ _ _ _ 0 _ _ Hrun key). simpl.
  destruct key as [| z]; [done |]. by destruct (_ && _).
Qed.

(** ** Stage scheduler: the states the provider reaches *)

Lemma initialMemory_words a : is_Some (initialMemory !! a) <-> 0 <= a < 32.
Proof.
  split.
  - intros [v Hv]. apply elem_of_list_to_map_2 in Hv.
    apply list_elem_of_In, in_map_iff in Hv as (i & [= <- _] & Hi%in_seq). lia.
  - intros Ha. replace a with (Z.of_nat (Z.to_nat a)) by lia.
    assert (Hn : (Z.to_nat a < 32)%nat) by lia.
    revert Hn. generalize (Z.to_nat a). intros n Hn.
    do 32 (destruct n as [| n]; [by eexists; vm_compute |]). lia.
Qed.

Lemma totalStalls_nonneg (stalls : gmap nat Z) :
  (forall i v, stalls !! i = Some v -> 0 <= v) -> 0 <= totalStalls stalls.
Proof.
  unfold totalStalls.
  apply (map_fold_weak_ind
           (fun r (m : gmap nat Z) => (forall i v, m !! i = Some v -> 0 <= v) -> 0 <= r)).
  - done.
  - intros i x m r Hi IH Hpos.
    assert (0 <= x) by (apply (Hpos i); by rewrite lookup_insert_eq).
    assert (0 <= r); [| lia].
    apply IH. intros j v Hj. apply (Hpos j).
    rewrite lookup_insert_ne; [done |]. intros ->. congruence.
Qed.

(** Every entry of the stage map of a redirection was written for one of
    the remaining instructions. *)
Lemma redirectedStages_written st nextCycle newPC n key v :
  redirectedStages st nextCycle newPC n !! key = Some v ->
  exists index : nat,
    (index < n)%nat
    /\ key = JS.add (Num (Z.of_nat index)) newPC
    /\ v = stageOrNull (stageCount st)
             (nextCycle - Z.of_nat index - 1
              - calculatePrecedingStalls (stalls st) key).
Proof.
  induction n as [| n IH].
  - unfold redirectedStages. simpl. by rewrite lookup_empty.
  - rewrite redirectedStages_S.
    destruct (decide (key = JS.add (Num (Z.of_nat n)) newPC)) as [-> | Hne].
    + rewrite lookup_insert_eq. intros [= <-]. exists n. split; [lia | done].
    + rewrite lookup_insert_ne by done. intros H.
      destruct (IH H) as (index & ? & ? & ?). exists index. split; [lia | done].
Qed.

(** The stage map [startSimulation] builds: the first instruction in
    stage 0, the others in none. *)
Lemma initialStages_lookup n key :
  fold_left (fun stages index =>
               <[Num (Z.of_nat index) :=
                   stageOrNull DEFAULT_STAGE_COUNT (1 - Z.of_nat index - 1)]>
                 stages)
            (seq 0 n) (∅ : gmap jsnum (option Z)) !! key
  = match key with
    | Num z =>
        if (0 <=? z) && (z <? 0 + Z.of_nat n)
        then Some (if z =? 0 then Some 0 else None)
        else None
    | NaN => None
    end.
Proof.
  induction n as [| n IH].
  - simpl. rewrite lookup_empty. destruct key as [| z]; [done |].
    destruct ((0 <=? z) && _) eqn:E; [| done]. apply window_spec in E. lia.
  - rewrite seq_S, fold_left_app. simpl.
    destruct (decide (key = Num (Z.of_nat n))) as [-> | Hne].
    + rewrite lookup_insert_eq.
      rewrite (proj2 (window_spec 0 (Z.of_nat n) (Z.of_nat (S n)))) by lia.
      f_equal. unfold stageOrNull.
      destruct n as [| n]; [done |].
      destruct (Z.of_nat (S n) =? 0) eqn:E0; [apply Z.eqb_eq in E0; lia |].
      assert ((0 <=? 1 - Z.of_nat (S n) - 1) = false) as ->
        by (apply Z.leb_gt; lia).
      done.
    + rewrite lookup_insert_ne by done. rewrite IH.
      destruct key as [| z]; [done |].
      assert (z <> Z.of_nat n) by congruence.
      destruct ((0 <=? z) && (z <? 0 + Z.of_nat n)) eqn:E1,
               ((0 <=? z) && (z <? 0 + Z.of_nat (S n))) eqn:E2; try done.
      * apply window_spec in E1. apply not_true_iff_false in E2.
        exfalso. apply E2, window_spec. lia.
      * apply window_spec in E2. apply not_true_iff_false in E1.
        exfalso. apply E1, window_spec. lia.
Qed.

(** What the body of the loop does to the memory. *)
Lemma visitInstruction_memory decoder st cycle t entry t' :
  visitInstruction decoder st cycle t entry = Some t' ->
  newMemory t' = newMemory t
  \/ exists a v, 0 <= a < 32 /\ newMemory t' = <[a := v]> (newMemory t).
Proof.
  unfold visitInstruction. destruct entry as [index inst].
  destruct ((0 <=? _) && (_ <? stageCount st)); [| intros [= <-]; auto].
  repeat match goal with
         | |- context [if ?b =? ?n then _ else _] => destruct (b =? n)
         end;
    intros H; try (injection H as <-; by left);
    apply bind_Some in H as ([[r m] pc'] & Hcall & H); injection H as <-; simpl;
    by eapply executeMIPSInstruction_memory.
Qed.

Lemma memory_words_insert (mem : gmap Z jsval) a v :
  0 <= a < 32 ->
  (forall b, is_Some (mem !! b) <-> 0 <= b < 32) ->
  forall b, is_Some (<[a := v]> mem !! b) <-> 0 <= b < 32.
Proof.
  intros Ha Hmem b. rewrite lookup_insert_is_Some.
  specialize (Hmem b). destruct (decide (a = b)) as [-> | Hne]; [tauto |].
  split; [intros [? | [_ ?]]; [done | tauto] | intros ?; right; tauto].
Qed.

(** The loop of a tick keeps the stall counter between 0 and 2 and the
    memory at its 32 words. *)
Lemma visit_loop_bounds decoder st cycle t t' (l : list (nat * string)) :
  (forall i v, stalls st !! i = Some v -> 0 <= v <= 2) ->
  0 <= newStallCycles t <= 2 ->
  (forall a, is_Some (newMemory t !! a) <-> 0 <= a < 32) ->
  forEachM (visitInstruction decoder st cycle) t l = Some t' ->
  0 <= newStallCycles t' <= 2
  /\ (forall a, is_Some (newMemory t' !! a) <-> 0 <= a < 32).
Proof.
  intros Hstalls Hs Hm.
  apply (forEachM_invariant
           (fun t => 0 <= newStallCycles t <= 2
                     /\ (forall a, is_Some (newMemory t !! a) <-> 0 <= a < 32)));
    [| done].
  intros t1 [index inst] t2 [Hs1 Hm1] Hvisit. split.
  - apply visitInstruction_stages in Hvisit as [_ [-> | (_ & _ & Hown & _)]];
      [done | by eapply Hstalls].
  - apply visitInstruction_memory in Hvisit as [-> | (a & v & Ha & ->)]; [done |].
    by apply memory_words_insert.
Qed.

Lemma wellFormed_reset st : wellFormed (resetSimulation st).
Proof.
  split; simpl; try done.
  - intros a. apply initialMemory_words.
Qed.

Lemma wellFormed_start l st st' :
  startSimulation l st = Some st' -> wellFormed st'.
Proof.
  unfold startSimulation. destruct l as [| x l].
  { intros [= <-]. apply wellFormed_reset. }
  intros H. apply bind_Some in H as (T & HT & H).
  remember (length (x :: l)) as n eqn:Hn in H. injection H as <-.
  apply detectHazards_stall_values in HT as [HT _].
  split; simpl; try done.
  - intros i v Hv. by apply HT in Hv as [? _].
  - intros key s. rewrite initialStages_lookup.
    destruct key as [| z]; [done |]. destruct (_ && _); [| done].
    destruct (z =? 0); [| done]. intros [= <-]. done.
  - intros k1 k2 s. rewrite !initialStages_lookup.
    destruct k1 as [| z1]; [done |]. destruct k2 as [| z2]; [done |].
    destruct (_ && _); [| done]. destruct (_ && _); [| done].
    destruct (z1 =? 0) eqn:E1; [| done]. destruct (z2 =? 0) eqn:E2; [| done].
    apply Z.eqb_eq in E1, E2. by subst.
  - intros a. apply initialMemory_words.
Qed.

(** In the stage map of a tick every stage is one of the [stageCount]
    stages, and with no negative stall no two instructions have the same
    one. *)
Lemma tick_stage_bounds decoder st t key s :
  forEachM (visitInstruction decoder st (currentCycle st + 1))
    (mkTick ∅ (currentStallCycles st) (registers st) (memory st) (PC st))
    (indexed (instructions st)) = Some t ->
  newInstructionStages t !! key = Some (Some s) ->
  exists z, key = Num z /\ 0 <= z < Z.of_nat (length (instructions st))
            /\ s = stageAt st (currentCycle st + 1) z
            /\ 0 <= s < stageCount st.
Proof.
  intros Ht. rewrite (tick_stages _ _ _ key Ht).
  destruct key as [| z]; [done |].
  destruct ((0 <=? z) && _) eqn:E; [| done].
  apply (window_spec 0) in E. intros [= H%stageOrNull_Some].
  exists z. split_and!; try done; lia.
Qed.

Lemma tick_stage_distinct decoder st t k1 k2 s :
  (forall i v, stalls st !! i = Some v -> 0 <= v) ->
  forEachM (visitInstruction decoder st (currentCycle st + 1))
    (mkTick ∅ (currentStallCycles st) (registers st) (memory st) (PC st))
    (indexed (instructions st)) = Some t ->
  newInstructionStages t !! k1 = Some (Some s) ->
  newInstructionStages t !! k2 = Some (Some s) ->
  k1 = k2.
Proof.
  intros Hpos Ht H1 H2.
  destruct (tick_stage_bounds _ _ _ _ _ Ht H1) as (z1 & -> & _ & Hs1 & _).
  destruct (tick_stage_bounds _ _ _ _ _ Ht H2) as (z2 & -> & _ & Hs2 & _).
  f_equal. destruct (Z.lt_trichotomy z1 z2) as [Hlt | [-> | Hlt]]; [| done |].
  - pose proof (stageAt_lt st (currentCycle st + 1) z1 z2 Hpos Hlt). lia.
  - pose proof (stageAt_lt st (currentCycle st + 1) z2 z1 Hpos Hlt). lia.
Qed.

Lemma redirected_stage_bounds st nextCycle newPC n key s :
  redirectedStages st nextCycle newPC n !! key = Some (Some s) ->
  0 <= s < stageCount st.
Proof.
  intros H. apply redirectedStages_written in H as (index & _ & _ & H).
  symmetry in H. by apply stageOrNull_Some in H as [_ ?].
Qed.

Lemma redirected_stage_distinct st nextCycle newPC n k1 k2 s :
  (forall i v, stalls st !! i = Some v -> 0 <= v) ->
  redirectedStages st nextCycle newPC n !! k1 = Some (Some s) ->
  redirectedStages st nextCycle newPC n !! k2 = Some (Some s) ->
  k1 = k2.
Proof.
  intros Hpos H1 H2.
  apply redirectedStages_written in H1 as (i1 & _ & -> & H1).
  apply redirectedStages_written in H2 as (i2 & _ & -> & H2).
  symmetry in H1, H2.
  apply stageOrNull_Some in H1 as [H1 _], H2 as [H2 _].
  destruct newPC as [| p]; [done |]. cbn [JS.add] in *.
  assert (Hmono : forall a b : nat, (a < b)%nat ->
            calculatePrecedingStalls (stalls st)
              (Num (JS.toDouble (Z.of_nat a + p)))
            <= calculatePrecedingStalls (stalls st)
                 (Num (JS.toDouble (Z.of_nat b + p)))).
  { intros a b Hab. apply calculatePrecedingStalls_mono; [done |].
    apply toDouble_mono. lia. }
  assert (i1 = i2) as ->; [| done].
  destruct (Nat.lt_trichotomy i1 i2) as [Hlt | [-> | Hlt]]; [| done |];
    pose proof (Hmono _ _ Hlt); lia.
Qed.

Lemma wellFormed_tick decoder st st' :
  wellFormed st -> calculateNextState decoder st = Some st' -> wellFormed st'.
Proof.
  intros Hwf. unfold calculateNextState.
  destruct (isRunning st) eqn:Hrun; simpl; [| by intros [= <-]].
  destruct (isFinished st) eqn:Hfin; simpl; [by intros [= <-] |].
  destruct Hwf as [Hsc Hcyc _ Hst Hsts Hstage Hdist Hmem].
  assert (Hpos : forall i v, stalls st !! i = Some v -> 0 <= v).
  { intros i v Hv. apply Hsts in Hv. lia. }
  destruct (0 <? currentStallCycles st) eqn:Hs.
  { intros [= <-]. apply Z.ltb_lt in Hs.
    split; simpl; try done; try lia. intros _. split; [lia | done]. }
  apply Z.ltb_ge in Hs.
  intros H. apply bind_Some in H as (t & Ht & H).
  destruct (visit_loop_bounds decoder st _
              (mkTick ∅ (currentStallCycles st) (registers st) (memory st) (PC st))
              _ _ Hsts Hst Hmem Ht) as [Hs' Hm'].
  assert (Hbounds : forall key s,
            newInstructionStages t !! key = Some (Some s) -> 0 <= s < 5).
  { intros key s Hk.
    destruct (tick_stage_bounds _ _ _ _ _ Ht Hk) as (_ & _ & _ & _ & ?). lia. }
  pose proof (fun k1 k2 s => tick_stage_distinct decoder st t k1 k2 s Hpos Ht)
    as Hdistinct.
  destruct (completionCycle st <? currentCycle st + 1) eqn:Hc; simpl in H.
  - injection H as <-. split; simpl; try done.
    unfold completionCycle. destruct (0 <? _) eqn:El; [| done].
    apply Z.ltb_lt in El. pose proof (totalStalls_nonneg _ Hpos). lia.
  - destruct (numNe (newPC t) (PC st)); injection H as <-;
      split; simpl; try done; try lia;
      try (intros _; split; [lia | done]).
    + intros key s Hk. apply redirected_stage_bounds in Hk. lia.
    + intros k1 k2 s. by apply redirected_stage_distinct.
Qed.

Lemma perform_wellFormed decoder a st st' :
  wellFormed st -> perform decoder a st = Some st' -> wellFormed st'.
Proof.
  intros Hwf Hp. destruct a; simpl in Hp.
  - by eapply wellFormed_start.
  - by eapply wellFormed_tick.
  - injection Hp as <-. unfold pauseSimulation.
    destruct (isRunning st); [| done]. destruct Hwf. by split.
  - injection Hp as <-. unfold resumeSimulation.
    destruct (negb (isRunning st)) eqn:E1; [| done].
    destruct (0 <? currentCycle st) eqn:E2; [| done].
    destruct (negb (isFinished st)) eqn:E3; [| done]. simpl.
    destruct Hwf. split; simpl; try done.
    intros _. apply Z.ltb_lt in E2. apply negb_true_iff in E3. done.
  - injection Hp as <-. destruct Hwf. by split.
  - injection Hp as <-. destruct Hwf. by split.
  - injection Hp as <-. apply wellFormed_reset.
Qed.

Lemma reachable_wellFormed decoder st : reachable decoder st -> wellFormed st.
Proof.
  induction 1 as [| a st st' _ IH Hp].
  - apply (wellFormed_reset initialState).
  - by eapply perform_wellFormed.
Qed.

(** As many stalled ticks as the counter holds. *)
Lemma stalled_ticks decoder (n : nat) st :
  isRunning st = true -> isFinished st = false ->
  currentStallCycles st = Z.of_nat n ->
  performAll decoder (replicate n Clock) st = Some (afterStall st).
Proof.
  revert st. induction n as [| n IH]; intros st Hrun Hfin Hs.
  - simpl. f_equal. destruct st. unfold afterStall. simpl in *. subst.
    f_equal. lia.
  - simpl. destruct (pending_stall_tick_aux decoder st Hrun Hfin) as [-> _]; [lia |].
    simpl. rewrite IH; [| done | done | simpl; lia].
    f_equal. unfold afterStall, stalledState. simpl. f_equal. lia.
Qed.

(** A tick without pending stall that neither finishes nor redirects. *)
Lemma plain_tick decoder st st' :
  isRunning st = true -> isFinished st = false ->
  ~ 0 < currentStallCycles st ->
  calculateNextState decoder st = Some st' ->
  isFinished st' = false ->
  JS.numEq (PC st') (PC st) = true ->
  instructions st' = instructions st
  /\ stalls st' = stalls st
  /\ stageCount st' = stageCount st
  /\ currentCycle st' = currentCycle st + 1
  /\ isRunning st' = true
  /\ forall key,
       instructionStages st' !! key
       = match key with
         | Num z =>
             if (0 <=? z) && (z <? Z.of_nat (length (instructions st)))
             then Some (stageOrNull (stageCount st)
                          (stageAt st (currentCycle st + 1) z))
             else None
         | NaN => None
         end.
Proof.
  intros Hrun Hfin Hs. unfold calculateNextState. rewrite Hrun, Hfin. simpl.
  destruct (0 <? currentStallCycles st) eqn:E; [apply Z.ltb_lt in E; lia |].
  intros H. apply bind_Some in H as (t & Ht & H).
  destruct (completionCycle st <? currentCycle st + 1); simpl in H.
  { injection H as <-. done. }
  destruct (numNe (newPC t) (PC st)) eqn:Hne; injection H as <-; simpl.
  { intros _ Heq. unfold numNe in Hne. by rewrite Heq in Hne. }
  intros _ _. split_and!; try done.
  intros key. by apply (tick_stages decoder).
Qed.

(** X15. Stalled cycles are not made up for.  After a tick that neither
    finishes nor redirects, the stalled ticks that its counter asks for
    change nothing but the cycle and the counter, and the tick after them
    shows every instruction that was in stage [s] in stage
    [s + stalls + 1] (in none when that is past the last stage): an
    instruction that starts a stall of 1 or 2 cycles in decode is next
    shown in MEM or WB, not in EX. *)
Theorem stalled_cycles_skip_stages (decoder : string -> string)
    (st0 st1 : SimulationState) :
  isRunning st0 = true -> isFinished st0 = false ->
  ~ 0 < currentStallCycles st0 ->
  calculateNextState decoder st0 = Some st1 ->
  isFinished st1 = false ->
  JS.numEq (PC st1) (PC st0) = true ->
  0 <= currentStallCycles st1 ->
  performAll decoder (replicate (Z.to_nat (currentStallCycles st1)) Clock) st1
  = Some (afterStall st1)
  /\ forall st2,
       calculateNextState decoder (afterStall st1) = Some st2 ->
       isFinished st2 = false ->
       JS.numEq (PC st2) (PC st1) = true ->
       forall key s,
         instructionStages st1 !! key = Some (Some s) ->
         instructionStages st2 !! key
         = Some (stageOrNull (stageCount st1) (s + currentStallCycles st1 + 1)).
Proof.
  intros Hrun Hfin Hs Htick Hfin1 Hpc1 Hv.
  destruct (plain_tick _ _ _ Hrun Hfin Hs Htick Hfin1 Hpc1)
    as (Hi & Hst & Hsc & Hc & Hrun1 & Hstages).
  split.
  - apply stalled_ticks; [done | done | lia].
  - intros st2 Htick2 Hfin2 Hpc2 key s Hkey.
    destruct (plain_tick decoder (afterStall st1) st2 Hrun1 Hfin1
                (Z.lt_irrefl 0) Htick2 Hfin2 Hpc2)
      as (_ & _ & _ & _ & _ & Hstages2).
    rewrite Hstages2. rewrite Hstages in Hkey. simpl.
    destruct key as [| z]; [done |]. rewrite Hi.
    destruct ((0 <=? z) && _); [| done].
    injection Hkey as Hkey. apply stageOrNull_Some in Hkey as [-> _].
    rewrite Hsc. do 2 f_equal. unfold stageAt. simpl. rewrite Hst, Hc. lia.
Qed.

(** ** Stage scheduler: every run finishes *)

Lemma length_slice {A : Type} (start : jsnum) (xs : list A) :
  (length (slice start xs) <= length xs)%nat.
Proof.
  unfold slice. destruct start as [| z]; [done |].
  destruct (z <? 0); rewrite length_drop; lia.
Qed.

Lemma slice_suffix {A : Type} (start : jsnum) (xs : list A) :
  exists n, slice start xs = drop n xs.
Proof.
  unfold slice. destruct start as [| z]; [by exists 0%nat |].
  destruct (z <? 0); eauto.
Qed.

(** What a tick keeps: it never analyses again, and the instructions
    only ever lose a prefix. *)
Lemma tick_frame decoder st st' :
  calculateNextState decoder st = Some st' ->
  registerUsage st' = registerUsage st
  /\ hazards st' = hazards st
  /\ forwardings st' = forwardings st
  /\ stalls st' = stalls st
  /\ maxCycles st' = maxCycles st
  /\ stageCount st' = stageCount st
  /\ forwardingEnabled st' = forwardingEnabled st
  /\ stallsEnabled st' = stallsEnabled st
  /\ exists n, instructions st' = drop n (instructions st).
Proof.
  unfold calculateNextState.
  destruct (negb (isRunning st) || isFinished st);
    [intros [= <-]; split_and!; try done; by exists 0%nat |].
  destruct (0 <? currentStallCycles st);
    [intros [= <-]; split_and!; try done; by exists 0%nat |].
  intros H. apply bind_Some in H as (t & _ & H).
  destruct (negb _ && numNe _ _); injection H as <-; simpl;
    split_and!; try done; [apply slice_suffix | by exists 0%nat].
Qed.

Lemma completionCycle_suffix st st' :
  stageCount st' = stageCount st -> stalls st' = stalls st ->
  (length (instructions st') <= length (instructions st))%nat ->
  0 <= completionCycle st ->
  completionCycle st' <= completionCycle st.
Proof.
  unfold completionCycle. intros -> -> Hlen.
  destruct (0 <? Z.of_nat (length (instructions st'))) eqn:E1,
           (0 <? Z.of_nat (length (instructions st))) eqn:E2;
    try apply Z.ltb_lt in E1; try apply Z.ltb_ge in E2; lia.
Qed.

(** A tick of a running state finishes the run or lowers its potential. *)
Lemma tick_progress decoder st st' :
  wellFormed st -> isRunning st = true ->
  calculateNextState decoder st = Some st' ->
  isFinished st' = true /\ isRunning st' = false
  \/ isRunning st' = true /\ ticksLeft st' <= ticksLeft st - 1.
Proof.
  intros Hwf Hrun Htick.
  pose proof (wellFormed_tick _ _ _ Hwf Htick) as Hwf'.
  destruct (wf_running _ Hwf Hrun) as [Hcyc Hfin].
  destruct (decide (0 < currentStallCycles st)) as [Hs | Hs].
  { destruct (pending_stall_tick_aux decoder st Hrun Hfin Hs) as [E _].
    rewrite E in Htick. injection Htick as <-. right. split; [done |].
    unfold ticksLeft.
    rewrite (completionCycle_ext st (stalledState st)) by done. simpl. lia. }
  destruct (calculateNextState_cases _ _ _ Hrun Hfin Hs Htick)
    as (t & _ & Hf & Hr & Hsc & Hst & _).
  destruct (isFinished st') eqn:Hfin'; [left; by rewrite Hr |].
  right. split; [by rewrite Hr |].
  symmetry in Hf. apply Z.ltb_ge in Hf.
  assert (Hc : currentCycle st' = currentCycle st + 1).
  { revert Htick Hfin'. unfold calculateNextState. rewrite Hrun, Hfin. simpl.
    destruct (0 <? currentStallCycles st); [by intros [= <-] |].
    intros H. apply bind_Some in H as (t' & _ & H). revert H.
    destruct (completionCycle st <? currentCycle st + 1); simpl;
      [by intros [= <-] |].
    destruct (numNe _ _); by intros [= <-]. }
  destruct (tick_frame _ _ _ Htick) as (_ & _ & _ & _ & _ & _ & _ & _ & n & Hn).
  assert (completionCycle st' <= completionCycle st).
  { apply completionCycle_suffix; [done | done | | lia].
    rewrite Hn, length_drop. lia. }
  pose proof (wf_stall _ Hwf'). unfold ticksLeft. lia.
Qed.

Lemma finished_ticks decoder n st :
  isFinished st = true -> performAll decoder (replicate n Clock) st = Some st.
Proof.
  intros Hfin. induction n as [| n IH]; [done |].
  simpl. unfold calculateNextState. rewrite Hfin, orb_true_r. simpl. exact IH.
Qed.

Lemma ticks_finish decoder n :
  forall st st',
    wellFormed st -> isRunning st = true ->
    ticksLeft st <= Z.of_nat n ->
    performAll decoder (replicate n Clock) st = Some st' ->
    isFinished st' = true /\ isRunning st' = false.
Proof.
  induction n as [| n IH]; intros st st' Hwf Hrun Hleft Hall.
  - pose proof (wf_stall _ Hwf). unfold ticksLeft in Hleft. lia.
  - simpl in Hall. apply bind_Some in Hall as (st1 & Htick & Hall).
    destruct (tick_progress _ _ _ Hwf Hrun Htick) as [[Hfin Hr] | [Hr Hless]].
    + rewrite finished_ticks in Hall by done. by injection Hall as <-.
    + apply (IH st1); try done; [by eapply wellFormed_tick | lia].
Qed.

(** X16. Every run ends: from a reachable running state,
    [max 0 (completionCycle - currentCycle) + 3] ticks or more, none of
    which throws, leave the finished flag set and the state not running. *)
Theorem run_finishes (decoder : string -> string) (st st' : SimulationState)
    (n : nat) :
  reachable decoder st ->
  isRunning st = true ->
  Z.max 0 (completionCycle st - currentCycle st) + 3 <= Z.of_nat n ->
  performAll decoder (replicate n Clock) st = Some st' ->
  isFinished st' = true /\ isRunning st' = false.
Proof.
  intros Hreach Hrun Hn. apply ticks_finish; [| done |].
  - by eapply reachable_wellFormed.
  - pose proof (wf_stall _ (reachable_wellFormed _ _ Hreach)).
    unfold ticksLeft. lia.
Qed.

(** X17. A tick never analyses again: the usage table, the hazards, the
    edges, the stalls, [maxCycles], the stage count and the toggles are
    those of the old state, also after a redirection, and the
    instructions are a suffix of the old ones: a jump back does not bring
    back instructions that an earlier redirection dropped. *)
Theorem tick_keeps_analysis (decoder : string -> string)
    (st st' : SimulationState) :
  calculateNextState decoder st = Some st' ->
  registerUsage st' = registerUsage st
  /\ hazards st' = hazards st
  /\ forwardings st' = forwardings st
  /\ stalls st' = stalls st
  /\ maxCycles st' = maxCycles st
  /\ stageCount st' = stageCount st
  /\ forwardingEnabled st' = forwardingEnabled st
  /\ stallsEnabled st' = stallsEnabled st
  /\ exists n, instructions st' = drop n (instructions st).
Proof. apply tick_frame. Qed.

(** X18. In every state the provider reaches there are 5 stages, the
    cycle is not negative, the stall counter and every stall entry are 0,
    1 or 2, every stage shown is between 0 and 4, and a running state is
    past cycle 0 and not finished. *)
Theorem reachable_state_bounds (decoder : string -> string)
    (st : SimulationState) :
  reachable decoder st ->
  stageCount st = 5
  /\ 0 <= currentCycle st
  /\ 0 <= currentStallCycles st <= 2
  /\ (forall i v, stalls st !! i = Some v -> 0 <= v <= 2)
  /\ (forall key s, instructionStages st !! key = Some (Some s) -> 0 <= s < 5)
  /\ (isRunning st = true -> 0 < currentCycle st /\ isFinished st = false).
Proof.
  intros Hwf%reachable_wellFormed.
  exact (conj (wf_stageCount _ Hwf) (conj (wf_cycle _ Hwf)
           (conj (wf_stall _ Hwf) (conj (wf_stalls _ Hwf)
              (conj (wf_stage _ Hwf) (wf_running _ Hwf)))))).
Qed.

(** X19. In every state the provider reaches no two instructions are
    shown in the same stage. *)
Theorem one_instruction_per_stage (decoder : string -> string)
    (st : SimulationState) (k1 k2 : jsnum) (s : Z) :
  reachable decoder st ->
  instructionStages st !! k1 = Some (Some s) ->
  instructionStages st !! k2 = Some (Some s) ->
  k1 = k2.
Proof. intros Hreach. apply (wf_distinct _ (reachable_wellFormed _ _ Hreach)). Qed.

(** X20. In every state the provider reaches the memory has exactly the
    32 words 0 to 31: no run adds or removes an address. *)
Theorem memory_keeps_its_words (decoder : string -> string)
    (st : SimulationState) (a : Z) :
  reachable decoder st ->
  is_Some (memory st !! a) <-> 0 <= a < 32.
Proof. intros Hreach. apply (wf_memory _ (reachable_wellFormed _ _ Hreach)). Qed.

(** X21. Pausing a reachable running state makes the tick return the
    paused state itself, and resuming gives back exactly the state that
    was paused. *)
Theorem pause_then_resume (decoder : string -> string)
    (st : SimulationState) :
  reachable decoder st ->
  isRunning st = true ->
  isRunning (pauseSimulation st) = false
  /\ calculateNextState decoder (pauseSimulation st) = Some (pauseSimulation st)
  /\ resumeSimulation (pauseSimulation st) = st.
Proof.
  intros Hreach Hrun.
  destruct (wf_running _ (reachable_wellFormed _ _ Hreach) Hrun) as [Hc Hf].
  unfold pauseSimulation. rewrite Hrun. split_and!; [done | done |].
  unfold resumeSimulation. simpl. rewrite Hf.
  rewrite (proj2 (Z.ltb_lt _ _) Hc). simpl.
  destruct st. simpl in *. by subst.
Qed.

(** ** The actions of the provider *)

(** The table [startSimulation] fills: the parse of each instruction at
    its position. *)
Lemma usage_fold_lookup (l : list string) :
  forall (first : nat) (m : gmap nat RegisterUsage) (i : nat),
    fold_left (fun usage entry => <[fst entry := parseInstruction (snd entry)]> usage)
      (zip (seq first (length l)) l) m !! i
    = if decide (first <= i < first + length l)%nat
      then parseInstruction <$> l !! (i - first)%nat
      else m !! i.
Proof.
  induction l as [| x l IH]; intros first m i.
  - simpl. destruct (decide _) as [H | H]; [lia | done].
  - simpl. rewrite IH.
    destruct (decide (S first <= i < S first + length l)%nat) as [H1 | H1],
             (decide (first <= i < first + S (length l))%nat) as [H2 | H2];
      try lia.
    + replace (i - first)%nat with (S (i - S first)) by lia. done.
    + assert (i = first) as -> by lia.
      rewrite lookup_insert_eq, Nat.sub_diag. done.
    + rewrite lookup_insert_ne by lia. done.
Qed.

(** X22. [startSimulation] never throws, whatever the submitted texts
    are.  Without instructions it resets; otherwise the state it leaves
    is at cycle 1, running, with the parse of each text in
    [registerUsage], the tables of [detectHazards] for them, [maxCycles]
    equal to the completion cycle, the first instruction in stage 0 and
    the others in none. *)
Theorem startSimulation_returns (submitted : list string)
    (st : SimulationState) :
  exists st',
    startSimulation submitted st = Some st'
    /\ (submitted = [] -> st' = resetSimulation st)
    /\ (submitted <> [] ->
        instructions st' = submitted
        /\ currentCycle st' = 1
        /\ isRunning st' = true
        /\ isFinished st' = false
        /\ currentStallCycles st' = 0
        /\ maxCycles st' = completionCycle st'
        /\ registers st' = initialRegisters
        /\ memory st' = initialMemory
        /\ PC st' = Num 0
        /\ (forall i, registerUsage st' !! i = parseInstruction <$> submitted !! i)
        /\ detectHazards submitted (registerUsage st')
             (forwardingEnabled st) (stallsEnabled st)
           = Some (mkAnalysis (hazards st') (forwardings st') (stalls st'))
        /\ instructionStages st' !! Num 0 = Some (Some 0)
        /\ (forall k, 0 < k < Z.of_nat (length submitted) ->
              instructionStages st' !! Num k = Some None)).
Proof.
  unfold startSimulation. destruct submitted as [| x l]; [by eexists |].
  remember (x :: l) as submitted eqn:Hl.
  set (usage := fold_left _ (indexed submitted) ∅).
  assert (Husage : forall i, usage !! i = parseInstruction <$> submitted !! i).
  { intros i. unfold usage, indexed. rewrite usage_fold_lookup.
    rewrite Nat.sub_0_r. destruct (decide _) as [H | H]; [done |].
    rewrite lookup_empty. rewrite lookup_ge_None_2; [done | lia]. }
  destruct (detectHazards_total submitted usage (forwardingEnabled st)
              (stallsEnabled st)) as (T & HT & _).
  { intros i Hi. rewrite Husage.
    destruct (lookup_lt_is_Some_2 submitted i Hi) as [y ->]. by eexists. }
  rewrite HT. simpl. eexists. split; [reflexivity |]. simpl.
  split; [by subst |]. intros _.
  assert (Hlen : (0 < length submitted)%nat) by (subst; simpl; lia).
  split_and!; try done.
  - unfold completionCycle. simpl.
    by rewrite (proj2 (Z.ltb_lt 0 (Z.of_nat (length submitted)))) by lia.
  - by destruct T.
  - rewrite initialStages_lookup.
    by rewrite (proj2 (window_spec 0 0 (Z.of_nat (length submitted)))) by lia.
  - intros k Hk. rewrite initialStages_lookup.
    rewrite (proj2 (window_spec 0 k (Z.of_nat (length submitted)))) by lia.
    destruct (k =? 0) eqn:E; [apply Z.eqb_eq in E; lia | done].
Qed.

(** ** Parser, analyzer and execution unit together *)

(** X23. In the tables that [detectHazards] returns, an instruction that
    the RAW test finds to read what the load right before it writes has
    the stall entry 1 without forwarding and 0 with it, whatever the
    producers farther away are. *)
Theorem load_use_stall_is_final (instrs : list string)
    (usage : gmap nat RegisterUsage) (fwd : bool) (T : Analysis)
    (i : nat) (cur prev : RegisterUsage) :
  detectHazards instrs usage fwd true = Some T ->
  (1 <= i < length instrs)%nat ->
  usage !! i = Some cur -> type cur <> J ->
  usage !! (i - 1)%nat = Some prev ->
  isLoad prev = true ->
  fst (rawHazard cur prev) = true ->
  aStalls T !! i = Some (if fwd then 0 else 1).
Proof. apply load_use_final_stall. Qed.

(** X24. Analyzer and execution unit together: with the edges that
    [detectHazards] stores for an instruction, a call whose operands are
    written by name, so that [parseInt] reads no number in them, gives
    the same result as with no edge at all. *)
Theorem analyzer_edges_are_inert (decoder : string -> string)
    (instrs : list string) (usage : gmap nat RegisterUsage)
    (fwd stallsOn : bool) (T : Analysis) (i : nat) (fs : list ForwardingInfo)
    (hex : string) (regs : gmap string jsnum) (mem : gmap Z jsval)
    (pc : jsnum) (stage : StageName) (cycle : Z) :
  detectHazards instrs usage fwd stallsOn = Some T ->
  aForwardings T !! i = Some fs ->
  (forall x, x ∈ forwardedOperands stage (decoder hex) ->
     Str.parseInt (stripDollar x) = NaN) ->
  executeMIPSInstruction decoder hex regs mem pc stage fs cycle
  = executeMIPSInstruction decoder hex regs mem pc stage [] cycle.
Proof.
  intros Hrun Hfs Hnamed. apply forwarding_inert_for_named_operands; [done |].
  intros f Hf. by destruct (analyzer_edges _ _ _ _ _ _ _ _ Hrun Hfs Hf) as [_ ?].
Qed.

(** X25. Parser and analyzer together: an instruction whose opcode is
    not 0, 3, a load (32, 33, 35, 36, 37, 48) or one of 8, 9, 12, 13, 14,
    15 is parsed with destination 0 and as no load, so that as a producer
    it gives no hazard, edge or stall to any instruction: the body of the
    pair returns the tables as they are.  These are the stores, the
    branches and [j], and also the opcodes 10 and 11, which the list
    [8, 9, 12, 13, 14, 15] leaves out. *)
Theorem untracked_producer (hex : string) (z : Z) (fwd : bool) (i j : nat)
    (cur : RegisterUsage) (T : Analysis) :
  Str.parseIntRadix (Some 16) hex = Num z ->
  0 <= z < 2 ^ 32 ->
  existsb (Z.eqb (z / 2 ^ 26)) [0; 3; 32; 33; 35; 36; 37; 48; 8; 9; 12; 13; 14; 15]
  = false ->
  scanPair fwd i j cur (parseInstruction hex) T = Some T.
Proof.
  intros Hz Hword Hop.
  destruct (parseInstruction_of_word hex z Hz Hword)
    as (_ & _ & _ & _ & _ & Hrd & Hload & _).
  simpl in Hrd, Hload, Hop.
  repeat (apply orb_false_iff in Hop as [? Hop]).
  unfold scanPair.
  replace (rd (parseInstruction hex)) with (Num 0); cycle 1.
  { rewrite Hrd. by repeat match goal with H : (_ =? _) = false |- _ => rewrite H; clear H end. }
  replace (isLoad (parseInstruction hex)) with false; [done |].
  rewrite Hload. by repeat match goal with H : (_ =? _) = false |- _ => rewrite H; clear H end.
Qed.

Lemma totalStalls_zero (stalls : gmap nat Z) :
  (forall i v, stalls !! i = Some v -> v = 0) -> totalStalls stalls = 0.
Proof.
  unfold totalStalls.
  apply (map_fold_weak_ind
           (fun r (m : gmap nat Z) => (forall i v, m !! i = Some v -> v = 0) -> r = 0)).
  - done.
  - intros i x m r Hi IH Hz.
    assert (x = 0) as -> by (apply (Hz i); by rewrite lookup_insert_eq).
    rewrite IH; [done |]. intros j v Hj. apply (Hz j).
    rewrite lookup_insert_ne; [done |]. intros ->. congruence.
Qed.

(** X26. With forwarding enabled, or with hazard detection disabled, a
    run of n instructions has no stall at all and [maxCycles] is n + 4:
    under forwarding a load-use pair waits no cycle either. *)
Theorem run_length_without_stalls (submitted : list string)
    (st st' : SimulationState) :
  startSimulation submitted st = Some st' ->
  submitted <> [] ->
  forwardingEnabled st = true \/ stallsEnabled st = false ->
  (forall i v, stalls st' !! i = Some v -> v = 0)
  /\ maxCycles st' = Z.of_nat (length submitted) + 4.
Proof.
  unfold startSimulation. destruct submitted as [| x l]; [done |].
  intros H _ Hoff. apply bind_Some in H as (T & HT & H).
  assert (Hzero : forall i v, aStalls T !! i = Some v -> v = 0).
  { destruct Hoff as [Hf | Hs].
    - rewrite Hf in HT. intros i v. by eapply forwarding_leaves_no_stall.
    - rewrite Hs in HT. unfold detectHazards in HT. simpl in HT.
      injection HT as <-. intros i v. apply initialAnalysis_entries. }
  injection H as <-. simpl. split; [done |].
  rewrite (totalStalls_zero _ Hzero). unfold DEFAULT_STAGE_COUNT. simpl. lia.
Qed.

(** ** Examples *)

(** [addi $t0, $zero, 5] in EX leaves [$t1] alone. *)
Lemma call_register_frame_witness :
  (<["$zero" := Num 0]> (<["$t0" := Num 5]> exampleRegisters)) !! "$t1"
  = exampleRegisters !! "$t1".
Proof.
  apply (call_register_frame sampleDecoder "20080005" exampleRegisters
           initialMemory (Num 0) sEX [] 3 _ initialMemory None
           "addi" ["$t0"; "$zero"; "5"] "$t1").
  - vm_compute; reflexivity.
  - vm_compute; reflexivity.
  - discriminate.
  - intros first [= <-]. vm_compute. discriminate.
  - vm_compute. discriminate.
Defined.

(** The same instruction in WB. *)
Lemma call_stage_frame_witness :
  <["$zero" := Num 0]> exampleRegisters = <["$zero" := Num 0]> exampleRegisters
  /\ initialMemory = initialMemory
  /\ (None : option jsnum) = None.
Proof.
  apply (call_stage_frame sampleDecoder "20080005" exampleRegisters
           initialMemory (Num 0) sWB [] 5).
  vm_compute; reflexivity.
Defined.

Lemma call_writes_one_word_witness :
  <[4 := Number (Num 7)]> initialMemory = initialMemory
  \/ exists a v, 0 <= a < 32
                 /\ <[4 := Number (Num 7)]> initialMemory = <[a := v]> initialMemory.
Proof.
  apply (call_writes_one_word memoryDecoder "AD090004"
           (<["$t1" := Num 7]> initialRegisters) initialMemory (Num 0) sMEM [] 4
           (<["$t1" := Num 7]> initialRegisters) _ None).
  vm_compute; reflexivity.
Defined.

(** An encoding that the decoder of the examples reads as [nop]. *)
Lemma unknown_mnemonic_ignored_witness :
  executeMIPSInstruction sampleDecoder "00000000" exampleRegisters
    initialMemory (Num 0) sEX [] 3
  = Some (<["$zero" := Num 0]> exampleRegisters, initialMemory, None).
Proof. apply unknown_mnemonic_ignored. vm_compute; reflexivity. Defined.

(** [sw $t1, 4($t0)] then [lw $t2, 4($t0)] with [$t1 = 7] and [$t0 = 0]. *)
Lemma store_then_load_witness :
  exists mem1,
    executeMIPSInstruction memoryDecoder "AD090004"
      (<["$t1" := Num 7]> initialRegisters) initialMemory (Num 0) sMEM [] 4
    = Some (<["$t1" := Num 7]> initialRegisters, mem1, None)
    /\ executeMIPSInstruction memoryDecoder "8D0A0004"
         (<["$t1" := Num 7]> initialRegisters) mem1 (Num 0) sMEM [] 5
       = Some (<["$zero" := Num 0]>
                 (<[normalizeRegister (stripDollar "$t2") :=
                      getRegisterValue (<["$t1" := Num 7]> initialRegisters)
                        (stripDollar "$t1")]>
                    (<["$t1" := Num 7]> initialRegisters)),
               mem1, None).
Proof.
  apply (store_then_load memoryDecoder "AD090004" "8D0A0004"
           (<["$t1" := Num 7]> initialRegisters) initialMemory (Num 0) (Num 0)
           4 5 "$t1" "$t2" "4($t0)" "4" "t0").
  - vm_compute; reflexivity.
  - vm_compute; reflexivity.
  - vm_compute; reflexivity.
  - vm_compute; reflexivity.
  - vm_compute; reflexivity.
Defined.

(** [sw $t1, -1($t0)] and [lw $t2, -1($t0)] with [$t0 = 2^53 + 32]: the
    sum 2^53 + 31 is not a double and is rounded to 2^53 + 32, the
    address is 32, and both the store and the load are skipped. *)
Example rounded_address_outside_memory :
  let regs := <["$t1" := Num 7]> (<["$t0" := Num (2 ^ 53 + 32)]> initialRegisters) in
  JS.add (Num (2 ^ 53 + 32)) (Num (-1)) = Num (2 ^ 53 + 32)
  /\ effectiveAddress regs sMEM [] "-1" "t0" = 32
  /\ executeMIPSInstruction largeBaseDecoder "AD09FFFF" regs initialMemory
       (Num 0) sMEM [] 4
     = Some (<["$zero" := Num 0]> regs, initialMemory, None)
  /\ executeMIPSInstruction largeBaseDecoder "8D0AFFFF" regs initialMemory
       (Num 0) sMEM [] 5
     = Some (<["$zero" := Num 0]> regs, initialMemory, None).
Proof. cbv zeta. repeat split; vm_compute; reflexivity. Qed.

(** The [add] of [stalledExample] is in decode with two stall cycles: two
    stalled ticks later the next tick shows it in stage 1 + 2 + 1 = 4. *)
Lemma stalled_cycles_skip_stages_witness :
  performAll sampleDecoder
    (replicate (Z.to_nat (currentStallCycles stalledExample)) Clock) stalledExample
  = Some (afterStall stalledExample)
  /\ forall st2,
       calculateNextState sampleDecoder (afterStall stalledExample) = Some st2 ->
       isFinished st2 = false ->
       JS.numEq (PC st2) (PC stalledExample) = true ->
       forall key s,
         instructionStages stalledExample !! key = Some (Some s) ->
         instructionStages st2 !! key
         = Some (stageOrNull (stageCount stalledExample)
                   (s + currentStallCycles stalledExample + 1)).
Proof.
  apply (stalled_cycles_skip_stages sampleDecoder beforeStall stalledExample).
  - vm_compute; reflexivity.
  - vm_compute; reflexivity.
  - vm_compute. discriminate.
  - vm_compute; reflexivity.
  - vm_compute; reflexivity.
  - vm_compute; reflexivity.
  - vm_compute. discriminate.
Defined.

(** In that run the [add] is shown in decode and then in write-back: its
    EX call is never made, and [$t2] is still 0 when the run is over. *)
Example stalled_add_is_never_executed :
  (fun st => (currentCycle st, instructionStages st !! Num 1))
    <$> [stalledExample; afterStall stalledExample]
  = [(3, Some (Some 1)); (5, Some (Some 1))]
  /\ (fun st => (currentCycle st, instructionStages st !! Num 1))
       <$> calculateNextState sampleDecoder (afterStall stalledExample)
     = Some (6, Some (Some 4))
  /\ (fun st => (isFinished st, registers st !! "$t0", registers st !! "$t2"))
       <$> performAll sampleDecoder (replicate 6 Clock) stalledExample
     = Some (true, Some (Num 5), Some (Num 0)).
Proof. split_and!; vm_compute; reflexivity. Qed.

(** [singleRunning] is at cycle 5 of 5: three ticks are enough. *)
Lemma run_finishes_witness :
  isFinished singleFinished = true /\ isRunning singleFinished = false.
Proof.
  apply (run_finishes sampleDecoder singleRunning singleFinished 3).
  - apply stateAfter_reachable. vm_compute. eauto.
  - vm_compute; reflexivity.
  - vm_compute. discriminate.
  - vm_compute; reflexivity.
Defined.

(** The redirection of [beforeJump] keeps the tables and drops two
    instructions. *)
Lemma tick_keeps_analysis_witness :
  registerUsage afterJump = registerUsage beforeJump
  /\ hazards afterJump = hazards beforeJump
  /\ forwardings afterJump = forwardings beforeJump
  /\ stalls afterJump = stalls beforeJump
  /\ maxCycles afterJump = maxCycles beforeJump
  /\ stageCount afterJump = stageCount beforeJump
  /\ forwardingEnabled afterJump = forwardingEnabled beforeJump
  /\ stallsEnabled afterJump = stallsEnabled beforeJump
  /\ exists n, instructions afterJump = drop n (instructions beforeJump).
Proof.
  apply (tick_keeps_analysis sampleDecoder beforeJump afterJump).
  vm_compute; reflexivity.
Defined.

Lemma reachable_state_bounds_witness :
  stageCount stalledExample = 5
  /\ 0 <= currentCycle stalledExample
  /\ 0 <= currentStallCycles stalledExample <= 2
  /\ (forall i v, stalls stalledExample !! i = Some v -> 0 <= v <= 2)
  /\ (forall key s,
        instructionStages stalledExample !! key = Some (Some s) -> 0 <= s < 5)
  /\ (isRunning stalledExample = true ->
      0 < currentCycle stalledExample /\ isFinished stalledExample = false).
Proof.
  apply (reachable_state_bounds sampleDecoder).
  apply stateAfter_reachable. vm_compute. eauto.
Defined.

(** In [stalledExample] the [addi] is in EX and the [add] in decode. *)
Lemma one_instruction_per_stage_witness : Num 1 = Num 1.
Proof.
  apply (one_instruction_per_stage sampleDecoder stalledExample (Num 1) (Num 1) 1).
  - apply stateAfter_reachable. vm_compute. eauto.
  - vm_compute; reflexivity.
  - vm_compute; reflexivity.
Defined.

Lemma memory_keeps_its_words_witness :
  is_Some (memory afterLateJump !! 31) <-> 0 <= 31 < 32.
Proof.
  apply (memory_keeps_its_words sampleDecoder).
  apply stateAfter_reachable. vm_compute. eauto.
Defined.

Lemma pause_then_resume_witness :
  isRunning (pauseSimulation stalledExample) = false
  /\ calculateNextState sampleDecoder (pauseSimulation stalledExample)
     = Some (pauseSimulation stalledExample)
  /\ resumeSimulation (pauseSimulation stalledExample) = stalledExample.
Proof.
  apply pause_then_resume.
  - apply stateAfter_reachable. vm_compute. eauto.
  - vm_compute; reflexivity.
Defined.

(** In [loadUseProgram] without forwarding the [add] waits one cycle. *)
Lemma load_use_stall_is_final_witness :
  aStalls loadUseAnalysis !! 1%nat = Some (if false then 0 else 1).
Proof.
  apply (load_use_stall_is_final loadUseProgram loadUseUsage false
           loadUseAnalysis 1 addT2 lwT1).
  - vm_compute; reflexivity.
  - simpl; lia.
  - vm_compute; reflexivity.
  - vm_compute; discriminate.
  - vm_compute; reflexivity.
  - vm_compute; reflexivity.
  - vm_compute; reflexivity.
Defined.

(** The edge that [forwardedAnalysis] has for the [add] changes nothing in
    its EX call. *)
Lemma analyzer_edges_are_inert_witness :
  executeMIPSInstruction sampleDecoder "01095020" exampleRegisters
    initialMemory (Num 0) sEX [mkForwardingInfo 1 2 sEX sEX "$t0"] 4
  = executeMIPSInstruction sampleDecoder "01095020" exampleRegisters
      initialMemory (Num 0) sEX [] 4.
Proof.
  apply (analyzer_edges_are_inert sampleDecoder exampleProgram exampleUsage
           true true forwardedAnalysis 2).
  - vm_compute; reflexivity.
  - vm_compute; reflexivity.
  - intros x Hx. vm_compute in Hx.
    apply elem_of_cons in Hx as [-> | Hx];
      [| apply list_elem_of_singleton in Hx as ->]; vm_compute; reflexivity.
Defined.

(** [slti $t0, $t1, 5] is the word 0x29280005, of opcode 10. *)
Lemma untracked_producer_witness :
  scanPair false 1 0 addT2 (parseInstruction "29280005") (initialAnalysis 2)
  = Some (initialAnalysis 2).
Proof.
  apply (untracked_producer "29280005" 690487301).
  - vm_compute; reflexivity.
  - lia.
  - vm_compute; reflexivity.
Defined.

(** [exampleProgram] started with forwarding: 3 + 4 cycles. *)
Lemma run_length_without_stalls_witness :
  (forall i v, stalls (stateAfter [Start exampleProgram]) !! i = Some v -> v = 0)
  /\ maxCycles (stateAfter [Start exampleProgram])
     = Z.of_nat (length exampleProgram) + 4.
Proof.
  apply (run_length_without_stalls exampleProgram initialState).
  - vm_compute; reflexivity.
  - discriminate.
  - left. vm_compute; reflexivity.
Defined.

(** [and $t2, $t0, $t1] with [$t0 = 5] and [$t1 = 7]. *)
Lemma logic_results_are_words_witness :
  exists v,
    (<["$zero" := Num 0]> (<["$t2" := Num 5]> exampleRegisters))
      !! normalizeRegister (stripDollar "$t2") = Some (Num v)
    /\ resultRange Op.and v.
Proof.
  apply (logic_results_are_words logicDecoder "01095024" exampleRegisters
           initialMemory (Num 0) [] 3 _ initialMemory None "and" "$t2"
           ["$t0"; "$t1"] Op.and).
  - vm_compute; reflexivity.
  - vm_compute; reflexivity.
  - vm_compute; reflexivity.
  - set_solver.
  - vm_compute. discriminate.
Defined.

(** The sums are not words: [add] of 2147483647 and 1 leaves 2147483648,
    and [add] of a register that does not exist leaves [NaN]. *)
Example add_is_not_wrapped :
  registerAfter "$t2"
    (executeMIPSInstruction sampleDecoder "01095020"
       (<["$t1" := Num 1]> (<["$t0" := Num 2147483647]> initialRegisters))
       initialMemory (Num 0) sEX [] 3)
  = Some (Num 2147483648)
  /\ registerAfter "$t2"
       (executeMIPSInstruction sampleDecoder "01095020"
          (delete "$t1" initialRegisters) initialMemory (Num 0) sEX [] 3)
     = Some NaN.
Proof. split; vm_compute; reflexivity. Qed.
